(** * Snapzify project scripts: a shallow embedding

    The repository holds four small Python scripts.  Two of them
    ([add_chinese_processing.py], [add_pinyin_openai.py]) patch an Xcode
    project manifest by a sequence of [re.sub] calls; the other two
    ([fix_logging.py], [fix_app_logging.py]) rewrite logger calls of a Swift
    file, again by a sequence of [re.sub] calls.

    Texts are lists of 8-bit characters.  The fragment of Python's [re]
    the scripts use (literal characters, a greedy repetition of a character
    class, one capture group, the IGNORECASE flag) is embedded as a
    backtracking matcher, and [re.sub] as a left-to-right scan for
    non-overlapping matches.

    A script is a function from the text it reads ([f.read()]) to an
    [outcome]: the line it prints, its exit status, and the text it hands to
    [f.write], if it gets that far.  The scripts have no other state.  The
    identifiers that the manifest scripts call generated are the constants
    of the source. *)

From Stdlib Require Import Ascii String.
From Stdlib Require Import List Bool Arith Lia.
Import ListNotations.

Local Open Scope list_scope.

(** ** Characters and texts *)

Definition text := list ascii.

Definition str (s : string) : text := list_ascii_of_string s.

Definition dq : ascii := "034"%char.   (* the double quote *)
Definition nl : ascii := "010"%char.   (* line feed *)
Definition tab : ascii := "009"%char.  (* horizontal tab *)

(** ASCII lowering, as IGNORECASE does on the characters of the patterns
    (no character between 128 and 255 folds to an ASCII letter). *)
Definition lower (c : ascii) : ascii :=
  let n := nat_of_ascii c in
  if (65 <=? n) && (n <=? 90) then ascii_of_nat (n + 32) else c.

Definition ceq (ci : bool) (a b : ascii) : bool :=
  if ci then Ascii.eqb (lower a) (lower b) else Ascii.eqb a b.

(** Python's [pat in s] on [str]. *)
Fixpoint starts_with (p s : text) : bool :=
  match p, s with
  | [], _ => true
  | a :: p', b :: s' => Ascii.eqb a b && starts_with p' s'
  | _ :: _, [] => false
  end.

Fixpoint contains (p s : text) : bool :=
  starts_with p s ||
  match s with
  | [] => false
  | _ :: s' => contains p s'
  end.

(** Number of (possibly overlapping) occurrences of [p] in [s]. *)
Fixpoint occurrences (p s : text) : nat :=
  (if starts_with p s then 1 else 0) +
  match s with
  | [] => 0
  | _ :: s' => occurrences p s'
  end.

(** ** The regular expressions of the scripts *)

Inductive item : Type :=
| Lit (c : ascii)                       (* one literal character *)
| Rep (min : nat) (p : ascii -> bool)   (* greedy [cls]* (min 0) or [cls]+ (min 1) *)
| GOpen                                 (* ( *)
| GClose.                               (* ) *)

Definition regex := list item.

Definition lits (s : string) : regex := map Lit (str s).

(** A match is the matched text, each character tagged with whether it lies
    inside the capture group. *)
Definition tagged := list (bool * ascii).

Definition whole (m : tagged) : text := map snd m.
Definition group1 (m : tagged) : text := map snd (filter fst m).

(** Greedy repetition with backtracking: take as many characters of the
    class as possible, and give them back one by one while the rest of the
    pattern (the continuation [k]) fails.  [n] counts the characters taken. *)
Fixpoint rep (p : ascii -> bool) (min : nat) (k : text -> option tagged)
         (ing : bool) (n : nat) (s : text) {struct s} : option tagged :=
  let stop := if min <=? n then k s else None in
  match s with
  | c :: s' =>
      if p c then
        match rep p min k ing (S n) s' with
        | Some m => Some ((ing, c) :: m)
        | None => stop
        end
      else stop
  | [] => stop
  end.

(** [match_here ci items ing s]: match [items] at the start of [s]
    (Python's [pattern.match]). *)
Fixpoint match_here (ci : bool) (items : regex) (ing : bool) (s : text)
         {struct items} : option tagged :=
  match items with
  | [] => Some []
  | Lit c :: r =>
      match s with
      | c' :: s' =>
          if ceq ci c c'
          then option_map (cons (ing, c')) (match_here ci r ing s')
          else None
      | [] => None
      end
  | Rep min p :: r => rep p min (match_here ci r ing) ing 0 s
  | GOpen :: r => match_here ci r true s
  | GClose :: r => match_here ci r false s
  end.

(** ** [re.sub] *)

Inductive seg : Type :=
| Gap (c : ascii)     (* a character outside every match, copied *)
| Hit (m : tagged).   (* a match, replaced *)

(** The scan of [re.finditer]: leftmost match first, then on from its end.
    [skip] is the number of characters of the current match still to pass.
    An empty match is followed by the character it stands before. *)
Fixpoint scan (ci : bool) (items : regex) (skip : nat) (s : text) : list seg :=
  match s with
  | [] =>
      match skip, match_here ci items false [] with
      | 0, Some m => [Hit m]
      | _, _ => []
      end
  | c :: s' =>
      match skip with
      | S k => scan ci items k s'
      | 0 =>
          match match_here ci items false s with
          | Some [] => Hit [] :: Gap c :: scan ci items 0 s'
          | Some ((_ :: m') as m) => Hit m :: scan ci items (length m') s'
          | None => Gap c :: scan ci items 0 s'
          end
      end
  end.

Definition finditer (ci : bool) (items : regex) (s : text) : list seg :=
  scan ci items 0 s.

Definition is_hit (x : seg) : bool :=
  match x with Hit _ => true | Gap _ => false end.

(** [len(re.findall(pattern, s))]. *)
Definition count_matches (ci : bool) (items : regex) (s : text) : nat :=
  length (filter is_hit (finditer ci items s)).

(** A replacement template [pre \1 post]. *)
Record template : Type := { t_pre : text; t_post : text }.

Definition expand (t : template) (m : tagged) : text :=
  t_pre t ++ group1 m ++ t_post t.

Definition render (t : template) (x : seg) : text :=
  match x with
  | Gap c => [c]
  | Hit m => expand t m
  end.

Definition original (x : seg) : text :=
  match x with
  | Gap c => [c]
  | Hit m => whole m
  end.

(** [re.sub(pattern, template, s, flags)]. *)
Definition re_sub (ci : bool) (items : regex) (t : template) (s : text) : text :=
  flat_map (render t) (finditer ci items s).

(** ** What a run of a script does to the outside world *)

Record outcome : Type := {
  stdout : string;          (* the line printed *)
  status : nat;             (* the exit status of the process *)
  written : option text     (* the text passed to [f.write], if any *)
}.

(** The file on disk after a run that started from [content]. *)
Definition file_after (content : text) (o : outcome) : text :=
  match written o with
  | Some c => c
  | None => content
  end.

(** The character class [[^}]]. *)
Definition not_rbrace (c : ascii) : bool := negb (Ascii.eqb c "}"%char).

(** A pattern [(prefix[^}]+};\n)] and a pattern [(prefix\n)]: the whole
    match is the group. *)
Definition record_anchor (prefix : string) : regex :=
  GOpen :: lits prefix ++ Rep 1 not_rbrace :: lits "};" ++ [Lit nl; GClose].

Definition line_anchor (prefix : string) : regex :=
  GOpen :: lits prefix ++ [Lit nl; GClose].

(** The template [r'\1' + addition]. *)
Definition after_anchor (addition : text) : template :=
  {| t_pre := []; t_post := addition |}.

(** One section insertion: [content = re.sub(pattern, r'\1' + addition, content)]. *)
Definition insert_after (pattern : regex) (addition : text) (content : text) : text :=
  re_sub false pattern (after_anchor addition) content.

(** *** add_chinese_processing.py *)
Module AddChinese.

Definition display_name : string := "ChineseProcessingService.swift".

Definition file_ref_id : string := "3D9B1A301234567890123460".
Definition build_file_id : string := "3D9B1A311234567890123461".

Definition build_file_pattern : regex :=
  record_anchor "3D9B1A211234567890123458 /* PinyinServiceOpenAI.swift in Sources */ = {".
Definition build_file_addition : text :=
  [tab; tab] ++ str build_file_id
  ++ str " /* ChineseProcessingService.swift in Sources */ = {isa = PBXBuildFile; fileRef = "
  ++ str file_ref_id ++ str " /* ChineseProcessingService.swift */; };" ++ [nl].

Definition file_ref_pattern : regex :=
  record_anchor "3D9B1A201234567890123457 /* PinyinServiceOpenAI.swift */ = {".
Definition file_ref_addition : text :=
  [tab; tab] ++ str file_ref_id
  ++ str " /* ChineseProcessingService.swift */ = {isa = PBXFileReference; lastKnownFileType = sourcecode.swift; path = ChineseProcessingService.swift; sourceTree = "
  ++ [dq] ++ str "<group>" ++ [dq] ++ str "; };" ++ [nl].

Definition services_pattern : regex :=
  line_anchor "3D9B1A201234567890123457 /* PinyinServiceOpenAI.swift */,".
Definition services_addition : text :=
  [tab; tab; tab; tab] ++ str file_ref_id
  ++ str " /* ChineseProcessingService.swift */," ++ [nl].

Definition build_phase_pattern : regex :=
  line_anchor "3D9B1A211234567890123458 /* PinyinServiceOpenAI.swift in Sources */,".
Definition build_phase_addition : text :=
  [tab; tab; tab; tab] ++ str build_file_id
  ++ str " /* ChineseProcessingService.swift in Sources */," ++ [nl].

(** The buffer after each of the four [re.sub] calls. *)
Definition stage1 (content : text) : text :=
  insert_after build_file_pattern build_file_addition content.
Definition stage2 (content : text) : text :=
  insert_after file_ref_pattern file_ref_addition (stage1 content).
Definition stage3 (content : text) : text :=
  insert_after services_pattern services_addition (stage2 content).
Definition stage4 (content : text) : text :=
  insert_after build_phase_pattern build_phase_addition (stage3 content).

Definition msg_present : string := "ChineseProcessingService.swift already in project".
Definition msg_added : string := "Added ChineseProcessingService.swift to project".

(** The script, from the text read from the project file. *)
Definition run (content : text) : outcome :=
  if contains (str display_name) content then
    {| stdout := msg_present; status := 0; written := None |}
  else
    {| stdout := msg_added; status := 0; written := Some (stage4 content) |}.

End AddChinese.

(** *** add_pinyin_openai.py *)
Module AddPinyin.

Definition display_name : string := "PinyinServiceOpenAI.swift".

Definition file_ref_id : string := "3D9B1A201234567890123457".
Definition build_file_id : string := "3D9B1A211234567890123458".
Definition build_file_id2 : string := "3D9B1A221234567890123459".

Definition build_record (id : string) : text :=
  [tab; tab] ++ str id
  ++ str " /* PinyinServiceOpenAI.swift in Sources */ = {isa = PBXBuildFile; fileRef = "
  ++ str file_ref_id ++ str " /* PinyinServiceOpenAI.swift */; };" ++ [nl].

Definition build_file_pattern : regex :=
  record_anchor "3D9B1A0E1234567890123456 /* PinyinServiceImpl.swift in Sources */ = {".
Definition build_file_addition : text := build_record build_file_id.

(** This pattern has no [ = {] before the class. *)
Definition share_ext_pattern : regex :=
  record_anchor "3D4F30C32C6FC87E002CC01C /* PinyinServiceImpl.swift in Sources */".
Definition share_ext_addition : text := build_record build_file_id2.

Definition file_ref_pattern : regex :=
  record_anchor "3D9B1A0F1234567890123456 /* PinyinServiceImpl.swift */ = {".
Definition file_ref_addition : text :=
  [tab; tab] ++ str file_ref_id
  ++ str " /* PinyinServiceOpenAI.swift */ = {isa = PBXFileReference; lastKnownFileType = sourcecode.swift; path = PinyinServiceOpenAI.swift; sourceTree = "
  ++ [dq] ++ str "<group>" ++ [dq] ++ str "; };" ++ [nl].

Definition services_pattern : regex :=
  line_anchor "3D9B1A0F1234567890123456 /* PinyinServiceImpl.swift */,".
Definition services_addition : text :=
  [tab; tab; tab; tab] ++ str file_ref_id
  ++ str " /* PinyinServiceOpenAI.swift */," ++ [nl].

Definition phase_entry (id : string) : text :=
  [tab; tab; tab; tab] ++ str id
  ++ str " /* PinyinServiceOpenAI.swift in Sources */," ++ [nl].

Definition build_phase_pattern : regex :=
  line_anchor "3D9B1A0E1234567890123456 /* PinyinServiceImpl.swift in Sources */,".
Definition build_phase_addition : text := phase_entry build_file_id.

Definition share_build_pattern : regex :=
  line_anchor "3D4F30C32C6FC87E002CC01C /* PinyinServiceImpl.swift in Sources */,".
Definition share_build_addition : text := phase_entry build_file_id2.

Definition pipeline (content : text) : text :=
  let content := insert_after build_file_pattern build_file_addition content in
  let content := insert_after share_ext_pattern share_ext_addition content in
  let content := insert_after file_ref_pattern file_ref_addition content in
  let content := insert_after services_pattern services_addition content in
  let content := insert_after build_phase_pattern build_phase_addition content in
  insert_after share_build_pattern share_build_addition content.

Definition msg_present : string := "PinyinServiceOpenAI.swift already in project".
Definition msg_added : string := "Added PinyinServiceOpenAI.swift to project".

Definition run (content : text) : outcome :=
  if contains (str display_name) content then
    {| stdout := msg_present; status := 0; written := None |}
  else
    {| stdout := msg_added; status := 0; written := Some (pipeline content) |}.

End AddPinyin.

(** ** The log rewriting scripts *)

(** In the comments below Q stands for the double quote character.
    The character classes [[^Q]], [[^:]] and [\w] (on 8-bit characters:
    ASCII letters, digits and underscore, and the letters and numeric
    characters of Latin-1). *)
Definition not_dq (c : ascii) : bool := negb (Ascii.eqb c dq).
Definition not_colon (c : ascii) : bool := negb (Ascii.eqb c ":"%char).

Definition is_word (c : ascii) : bool :=
  let n := nat_of_ascii c in
  ((48 <=? n) && (n <=? 57)) || ((65 <=? n) && (n <=? 90)) ||
  ((97 <=? n) && (n <=? 122)) || (n =? 95) ||
  (n =? 170) || (n =? 178) || (n =? 179) || (n =? 181) || (n =? 185) ||
  (n =? 186) || ((188 <=? n) && (n <=? 190)) ||
  ((192 <=? n) && (n <=? 214)) || ((216 <=? n) && (n <=? 246)) ||
  (248 <=? n).

(** One [content = re.sub(pattern, template, content, flags)] line. *)
Record rule : Type := {
  r_ci : bool;        (* flags=re.IGNORECASE *)
  r_pat : regex;
  r_tpl : template
}.

Definition apply_rule (content : text) (r : rule) : text :=
  re_sub (r_ci r) (r_pat r) (r_tpl r) content.

(** The lines of a script, one after the other. *)
Definition apply_rules (rules : list rule) (content : text) : text :=
  fold_left apply_rule rules content.

(** The text [logger.<level>(Q<message>Q)]. *)
Definition call (level : string) (message : text) : text :=
  str "logger." ++ str level ++ "("%char :: dq :: message ++ [dq; ")"%char].

(** The template [logger.<level>(Q\1Q)]. *)
Definition call_tpl (level : string) : template :=
  {| t_pre := str "logger." ++ str level ++ ["("%char; dq];
     t_post := [dq; ")"%char] |}.

(** The pattern [logger\.Q([^Q]+)Q\)] of a malformed call. *)
Definition malformed : regex :=
  lits "logger." ++ [Lit dq; GOpen; Rep 1 not_dq; GClose; Lit dq; Lit ")"%char].

(** A pattern [logger\.debug\(Q(body)Q\)]. *)
Definition debug_call (body : regex) : regex :=
  lits "logger.debug(" ++ Lit dq :: GOpen :: body ++ [GClose; Lit dq; Lit ")"%char].

(** The body [[^Q]*marker[^Q]*]. *)
Definition mentions (marker : string) : regex :=
  Rep 0 not_dq :: lits marker ++ [Rep 0 not_dq].

(** The body [TTS[^:]*: marker[^Q]*]. *)
Definition tts_mentions (marker : string) : regex :=
  lits "TTS" ++ Rep 0 not_colon :: lits ": " ++ lits marker ++ [Rep 0 not_dq].

(** The pattern [(logger\.\w+\()Qprefix] and its template [\1Q]. *)
Definition prefixed (prefix : string) : regex :=
  GOpen :: lits "logger." ++ Rep 1 is_word :: Lit "("%char :: GClose :: Lit dq :: lits prefix.

Definition strip_tpl : template := {| t_pre := []; t_post := [dq] |}.

Definition normalize : rule :=
  {| r_ci := false; r_pat := malformed; r_tpl := call_tpl "debug" |}.

Definition promote (ci : bool) (body : regex) (level : string) : rule :=
  {| r_ci := ci; r_pat := debug_call body; r_tpl := call_tpl level |}.

Definition strip (prefix : string) : rule :=
  {| r_ci := false; r_pat := prefixed prefix; r_tpl := strip_tpl |}.

(** *** fix_logging.py *)
Module FixLogging.

Definition rules : list rule :=
  [ normalize;
    promote true (mentions "error") "error";
    promote true (mentions "failed") "error";
    promote true (mentions "invalid") "error";
    promote true (mentions "not configured") "warning";
    promote true (mentions "not properly") "warning";
    promote false (tts_mentions "generateAudio") "info";
    promote false (tts_mentions "Received") "info";
    promote false (tts_mentions "Audio saved") "info";
    strip "TTSService: " ].

Definition rewrite (content : text) : text := apply_rules rules content.

Definition run (content : text) : outcome :=
  {| stdout := "Fixed logging in TTSServiceOpenAI.swift";
     status := 0;
     written := Some (rewrite content) |}.

End FixLogging.

(** *** fix_app_logging.py *)
Module FixAppLogging.

(** The body [[^Q]*No [^Q]* found[^Q]*]. *)
Definition no_found : regex :=
  Rep 0 not_dq :: lits "No " ++ Rep 0 not_dq :: lits " found" ++ [Rep 0 not_dq].

Definition rules : list rule :=
  [ normalize;
    promote true (mentions "Error") "error";
    promote true (mentions "Failed") "error";
    promote true no_found "info";
    promote false (mentions "Processing") "info";
    promote false (mentions "Looking for") "debug";
    promote false (mentions "Found") "info";
    promote false (mentions "Successfully") "info";
    promote false (mentions "loaded") "info";
    promote false (mentions "exists") "debug";
    promote false (mentions "Cleaned up") "info";
    strip "AppState: " ].

Definition rewrite (content : text) : text := apply_rules rules content.

Definition run (content : text) : outcome :=
  {| stdout := "Fixed logging in SnapzifyApp.swift";
     status := 0;
     written := Some (rewrite content) |}.

End FixAppLogging.

(** ** Vocabulary of the statements *)

(** [wrapped items]: [items] is the inside of a group that is closed at the
    very end of the pattern, so that the group is the whole match. *)
Fixpoint wrapped (items : regex) : bool :=
  match items with
  | [GClose] => true
  | Lit _ :: r => wrapped r
  | Rep _ _ :: r => wrapped r
  | _ => false
  end.

Definition is_anchor (pattern : regex) : bool :=
  match pattern with
  | GOpen :: body => wrapped body
  | _ => false
  end.

(** [inserted blk n s out]: [out] is [s] with [n] copies of [blk] put in,
    and nothing else changed. *)
Inductive inserted (blk : text) : nat -> text -> text -> Prop :=
| inserted_nil : inserted blk 0 [] []
| inserted_keep c n s out :
    inserted blk n s out -> inserted blk n (c :: s) (c :: out)
| inserted_block n s out :
    inserted blk n s out -> inserted blk (S n) s (blk ++ out).

(** The segment of [re.sub(pattern, r'\1' + addition, ...)] in the output. *)
Definition with_addition (addition : text) (x : seg) : text :=
  original x ++ (if is_hit x then addition else []).

(** ** Sample buffers *)
Module Samples.

(** One group-membership line of the anchor entity, and nothing else. *)
Definition services_line : text :=
  [tab; tab; tab; tab]
  ++ str "3D9B1A201234567890123457 /* PinyinServiceOpenAI.swift */," ++ [nl].

(** The same line twice. *)
Definition services_twice : text := services_line ++ services_line.

(** One build-registration record of the anchor entity, between two lines. *)
Definition build_record_line : text :=
  [tab; tab]
  ++ str "3D9B1A211234567890123458 /* PinyinServiceOpenAI.swift in Sources */ = {isa = PBXBuildFile; fileRef = 3D9B1A201234567890123457 /* PinyinServiceOpenAI.swift */; };"
  ++ [nl].

Definition build_section : text :=
  str "/* Begin PBXBuildFile section */" ++ [nl]
  ++ build_record_line
  ++ str "/* End PBXBuildFile section */" ++ [nl].

(** A buffer that holds the display name already. *)
Definition both_names : text :=
  str "ChineseProcessingService.swift PinyinServiceOpenAI.swift".

(** A line of the manifest: [indent] tabs, the text, a line feed. *)
Definition ln (indent : nat) (s : string) : text :=
  repeat tab indent ++ str s ++ [nl].

(** A manifest in the layout Xcode writes, with the entity
    [PinyinServiceImpl.swift] registered in the main target and in the share
    extension target. *)
Definition pinyin_manifest : text :=
  ln 0 "/* Begin PBXBuildFile section */"
  ++ ln 2 "3D9B1A0E1234567890123456 /* PinyinServiceImpl.swift in Sources */ = {isa = PBXBuildFile; fileRef = 3D9B1A0F1234567890123456 /* PinyinServiceImpl.swift */; };"
  ++ ln 2 "3D4F30C32C6FC87E002CC01C /* PinyinServiceImpl.swift in Sources */ = {isa = PBXBuildFile; fileRef = 3D9B1A0F1234567890123456 /* PinyinServiceImpl.swift */; };"
  ++ ln 0 "/* End PBXBuildFile section */"
  ++ ln 0 "/* Begin PBXFileReference section */"
  ++ ln 2 "3D9B1A0F1234567890123456 /* PinyinServiceImpl.swift */ = {isa = PBXFileReference; lastKnownFileType = sourcecode.swift; path = PinyinServiceImpl.swift; sourceTree = SOURCE_ROOT; };"
  ++ ln 0 "/* End PBXFileReference section */"
  ++ ln 0 "/* Begin PBXGroup section */"
  ++ ln 2 "3D9B1A001234567890123456 /* Services */ = {"
  ++ ln 3 "isa = PBXGroup;"
  ++ ln 3 "children = ("
  ++ ln 4 "3D9B1A0F1234567890123456 /* PinyinServiceImpl.swift */,"
  ++ ln 3 ");"
  ++ ln 3 "path = Services;"
  ++ ln 3 "sourceTree = SOURCE_ROOT;"
  ++ ln 2 "};"
  ++ ln 0 "/* End PBXGroup section */"
  ++ ln 0 "/* Begin PBXSourcesBuildPhase section */"
  ++ ln 2 "3D4F30A02C6FC87D002CC01C /* Sources */ = {"
  ++ ln 3 "isa = PBXSourcesBuildPhase;"
  ++ ln 3 "buildActionMask = 2147483647;"
  ++ ln 3 "files = ("
  ++ ln 4 "3D9B1A0E1234567890123456 /* PinyinServiceImpl.swift in Sources */,"
  ++ ln 3 ");"
  ++ ln 3 "runOnlyForDeploymentPostprocessing = 0;"
  ++ ln 2 "};"
  ++ ln 2 "3D4F30B02C6FC87D002CC01C /* Sources */ = {"
  ++ ln 3 "isa = PBXSourcesBuildPhase;"
  ++ ln 3 "buildActionMask = 2147483647;"
  ++ ln 3 "files = ("
  ++ ln 4 "3D4F30C32C6FC87E002CC01C /* PinyinServiceImpl.swift in Sources */,"
  ++ ln 3 ");"
  ++ ln 3 "runOnlyForDeploymentPostprocessing = 0;"
  ++ ln 2 "};"
  ++ ln 0 "/* End PBXSourcesBuildPhase section */".

(** A manifest in the same layout with the entity
    [PinyinServiceOpenAI.swift], the anchor of [add_chinese_processing.py],
    registered in the main target. *)
Definition chinese_manifest : text :=
  ln 0 "/* Begin PBXBuildFile section */"
  ++ ln 2 "3D9B1A211234567890123458 /* PinyinServiceOpenAI.swift in Sources */ = {isa = PBXBuildFile; fileRef = 3D9B1A201234567890123457 /* PinyinServiceOpenAI.swift */; };"
  ++ ln 0 "/* End PBXBuildFile section */"
  ++ ln 0 "/* Begin PBXFileReference section */"
  ++ ln 2 "3D9B1A201234567890123457 /* PinyinServiceOpenAI.swift */ = {isa = PBXFileReference; lastKnownFileType = sourcecode.swift; path = PinyinServiceOpenAI.swift; sourceTree = SOURCE_ROOT; };"
  ++ ln 0 "/* End PBXFileReference section */"
  ++ ln 0 "/* Begin PBXGroup section */"
  ++ ln 2 "3D9B1A001234567890123456 /* Services */ = {"
  ++ ln 3 "isa = PBXGroup;"
  ++ ln 3 "children = ("
  ++ ln 4 "3D9B1A201234567890123457 /* PinyinServiceOpenAI.swift */,"
  ++ ln 3 ");"
  ++ ln 3 "path = Services;"
  ++ ln 3 "sourceTree = SOURCE_ROOT;"
  ++ ln 2 "};"
  ++ ln 0 "/* End PBXGroup section */"
  ++ ln 0 "/* Begin PBXSourcesBuildPhase section */"
  ++ ln 2 "3D4F30A02C6FC87D002CC01C /* Sources */ = {"
  ++ ln 3 "isa = PBXSourcesBuildPhase;"
  ++ ln 3 "buildActionMask = 2147483647;"
  ++ ln 3 "files = ("
  ++ ln 4 "3D9B1A211234567890123458 /* PinyinServiceOpenAI.swift in Sources */,"
  ++ ln 3 ");"
  ++ ln 3 "runOnlyForDeploymentPostprocessing = 0;"
  ++ ln 2 "};"
  ++ ln 0 "/* End PBXSourcesBuildPhase section */".

(** The message [failed to load \QxQ], with two escaped double quotes. *)
Definition escaped_quote_message : text :=
  str "failed to load \" ++ [dq] ++ str "x\" ++ [dq].

Definition failed_message : text := str "TTSService: Request failed".

Definition not_configured_message : text := str "TTSService: API key not configured".

(** The malformed call [logger.Qlogger.Q)] followed by [xQ)]. *)
Definition nested_malformed : text :=
  str "logger." ++ [dq] ++ str "logger." ++ [dq] ++ str ")x" ++ [dq] ++ str ")".

End Samples.

(** ** Vocabulary of the statements about the log scripts *)

(** A message without a double quote. *)
Definition quote_free (m : text) : bool := forallb not_dq m.

(** Number of double quotes of a text, and number of literal double quotes
    of a pattern. *)
Definition quotes (s : text) : nat := count_occ ascii_dec s dq.

Fixpoint quotes_needed (items : regex) : nat :=
  match items with
  | [] => 0
  | Lit c :: r => (if Ascii.eqb c dq then 1 else 0) + quotes_needed r
  | _ :: r => quotes_needed r
  end.

(** [marker] at the start of [s], and somewhere in [s], with the characters
    compared as the matcher compares them. *)
Fixpoint starts_with_ci (ci : bool) (marker s : text) : bool :=
  match marker, s with
  | [], _ => true
  | a :: p', b :: s' => ceq ci a b && starts_with_ci ci p' s'
  | _ :: _, [] => false
  end.

Fixpoint mentioned (ci : bool) (marker s : text) : bool :=
  starts_with_ci ci marker s ||
  match s with
  | [] => false
  | _ :: s' => mentioned ci marker s'
  end.

(** The message without the prefix it starts with, if it does. *)
Definition strip_prefix (prefix m : text) : text :=
  if starts_with prefix m then skipn (length prefix) m else m.

(** The text [logger.Q<message>Q)]. *)
Definition malformed_call (message : text) : text :=
  str "logger." ++ dq :: message ++ [dq; ")"%char].

(** The end of the patterns of the log scripts, [)Q\)], and its match. *)
Definition closing : regex := [GClose; Lit dq; Lit ")"%char].

Definition closed : tagged := [(false, dq); (false, ")"%char)].

(** A pattern without group marks. *)
Definition plain (items : regex) : bool :=
  forallb (fun i => match i with GOpen | GClose => false | _ => true end) items.

(** The levels the scripts write. *)
Definition levels : list string := ["debug"; "error"; "warning"; "info"]%string.

(** A call between two stretches of text. *)
Definition in_context (pre : text) (level : string) (m post : text) : text :=
  pre ++ call level m ++ post.

(** The head [logger.debug(Q] of a debug call, and the match of a call
    pattern: the head outside the group, the message inside, the closing
    quote and parenthesis outside. *)
Definition debug_head : text := str "logger.debug(" ++ [dq].

Definition call_match (head m : text) : tagged :=
  map (pair false) head ++ map (pair true) m ++ closed.

(** ** Vocabulary of the statements about whole runs *)

(** A text without a line feed. *)
Definition newline_free (p : text) : bool :=
  forallb (fun c => negb (Ascii.eqb c nl)) p.

(** A pattern whose last character is a literal line feed, before the
    closing of the group. *)
Fixpoint ends_with_nl (items : regex) : bool :=
  match items with
  | [] => false
  | i :: r =>
      match i, r with
      | Lit c, [GClose] => Ascii.eqb c nl
      | _, _ => ends_with_nl r
      end
  end.

Definition is_empty (s : text) : bool :=
  match s with [] => true | _ :: _ => false end.

(** The buffer of [add_pinyin_openai.py] after each of its six [re.sub]
    calls; [AddPinyin.pipeline] is the last of them. *)
Module PinyinStages.

Definition stage1 (content : text) : text :=
  insert_after AddPinyin.build_file_pattern AddPinyin.build_file_addition content.
Definition stage2 (content : text) : text :=
  insert_after AddPinyin.share_ext_pattern AddPinyin.share_ext_addition (stage1 content).
Definition stage3 (content : text) : text :=
  insert_after AddPinyin.file_ref_pattern AddPinyin.file_ref_addition (stage2 content).
Definition stage4 (content : text) : text :=
  insert_after AddPinyin.services_pattern AddPinyin.services_addition (stage3 content).
Definition stage5 (content : text) : text :=
  insert_after AddPinyin.build_phase_pattern AddPinyin.build_phase_addition (stage4 content).
Definition stage6 (content : text) : text :=
  insert_after AddPinyin.share_build_pattern AddPinyin.share_build_addition (stage5 content).

End PinyinStages.

(** ** Vocabulary of the statements about untouched text *)

(** A rule whose matches start with [logger.], in some case of the letters. *)
Definition needs_logger (r : rule) : Prop :=
  forall s res, match_here (r_ci r) (r_pat r) false s = Some res ->
                starts_with_ci true (str "logger.") s = true.

(** ** Vocabulary of the level tables of the log scripts *)

(** [s] without its longest start in the class [p]. *)
Fixpoint drop_class (p : ascii -> bool) (s : text) : text :=
  match s with
  | c :: s' => if p c then drop_class p s' else s
  | [] => []
  end.

(** [k1] somewhere in [s] and [k2] somewhere after it, with the characters
    compared as the matcher compares them. *)
Fixpoint mentioned_then (ci : bool) (k1 k2 s : text) : bool :=
  (starts_with_ci ci k1 s && mentioned ci k2 (skipn (length k1) s)) ||
  match s with
  | [] => false
  | _ :: s' => mentioned_then ci k1 k2 s'
  end.

(** A message [TTS<no colon>: <marker>...]: it starts with [TTS], and its
    first colon after that starts [: <marker>]. *)
Definition tts_form (marker : string) (m : text) : bool :=
  starts_with (str "TTS") m
  && starts_with (str ": " ++ str marker) (drop_class not_colon (skipn 3 m)).

(** The level that the rules of [fix_logging.py], read from top to bottom,
    give to a debug call with message [m]. *)
Definition tts_level (m : text) : string :=
  if mentioned true (str "error") m
     || mentioned true (str "failed") m
     || mentioned true (str "invalid") m
  then "error"
  else if mentioned true (str "not configured") m
          || mentioned true (str "not properly") m
  then "warning"
  else if tts_form "generateAudio" m
          || tts_form "Received" m
          || tts_form "Audio saved" m
  then "info"
  else "debug".

(** The same for [fix_app_logging.py]; its two rules that write
    [logger.debug] do not show in the table. *)
Definition app_level (m : text) : string :=
  if mentioned true (str "Error") m || mentioned true (str "Failed") m
  then "error"
  else if mentioned_then true (str "No ") (str " found") m
          || mentioned false (str "Processing") m
          || mentioned false (str "Found") m
          || mentioned false (str "Successfully") m
          || mentioned false (str "loaded") m
          || mentioned false (str "Cleaned up") m
  then "info"
  else "debug".

(** ** Texts with several calls *)

(** A call and the text before it. *)
Record logcall : Type := {
  c_pre : text;
  c_level : string;
  c_msg : text
}.

Definition call_text (c : logcall) : text :=
  c_pre c ++ call (c_level c) (c_msg c).

(** The calls one after the other, then [post]. *)
Fixpoint calls_text (cs : list logcall) (post : text) : text :=
  match cs with
  | [] => post
  | c :: cs' => call_text c ++ calls_text cs' post
  end.

(** A call of one of the four levels, with no double quote in its message
    or in the text before it, whose message does not start with a closing
    parenthesis. *)
Definition well_formed (c : logcall) : Prop :=
  In (c_level c) levels
  /\ quote_free (c_pre c) = true
  /\ quote_free (c_msg c) = true
  /\ starts_with [")"%char] (c_msg c) = false.

(** A text whose first double quote, if it has one, is not followed by a
    closing parenthesis. *)
Definition opens (rest : text) : Prop :=
  forall x y, quote_free x = true -> rest = x ++ dq :: y ->
              starts_with [")"%char] y = false.

(** A body of literal characters other than the double quote and of
    classes [[^Q]]. *)
Definition quoteless (body : regex) : Prop :=
  Forall (fun i => match i with
                   | Lit c => not_dq c = true
                   | Rep _ p => p = not_dq
                   | GOpen | GClose => False
                   end) body.

(** A pattern [head Q ( rest ]: literal characters, a double quote, and the
    group opened. *)
Definition quoted (head : text) (r : regex) : regex :=
  map Lit head ++ Lit dq :: GOpen :: r.

(** A message that starts with [TTS] and has no colon after it. *)
Definition tts_open (m : text) : bool :=
  starts_with (str "TTS") m && is_empty (drop_class not_colon (skipn 3 m)).

(** What a promotion rule does to a call: a debug call whose message fits
    is written with the level of the rule. *)
Definition promote_call (fits : text -> bool) (level : string) (c : logcall) : logcall :=
  if String.eqb (c_level c) "debug" && fits (c_msg c)
  then {| c_pre := c_pre c; c_level := level; c_msg := c_msg c |}
  else c.

Definition strip_call (prefix : string) (c : logcall) : logcall :=
  {| c_pre := c_pre c; c_level := c_level c;
     c_msg := strip_prefix (str prefix) (c_msg c) |}.

(** What each script does to a call: the level from its table for a debug
    call, the prefix taken off the message. *)
Definition tts_fix (c : logcall) : logcall :=
  {| c_pre := c_pre c;
     c_level := if String.eqb (c_level c) "debug" then tts_level (c_msg c) else c_level c;
     c_msg := strip_prefix (str "TTSService: ") (c_msg c) |}.

Definition app_fix (c : logcall) : logcall :=
  {| c_pre := c_pre c;
     c_level := if String.eqb (c_level c) "debug" then app_level (c_msg c) else c_level c;
     c_msg := strip_prefix (str "AppState: ") (c_msg c) |}.

(** * Properties of the matcher and of [re.sub] *)

Section Engine.

Variable ci : bool.

(** A match is a prefix of the text it was found in. *)
Lemma rep_prefix (p : ascii -> bool) (min : nat) (k : text -> option tagged) (ing : bool) :
  (forall s m, k s = Some m -> exists rest, s = whole m ++ rest) ->
  forall s n m, rep p min k ing n s = Some m -> exists rest, s = whole m ++ rest.
Proof.
  intros Hk s; induction s as [|c s IH]; intros n m H; simpl in H.
  - destruct (min <=? n); [eauto | discriminate].
  - assert (Hstop : (if min <=? n then k (c :: s) else None) = Some m ->
                    exists rest, c :: s = whole m ++ rest).
    { destruct (min <=? n); [eauto | discriminate]. }
    destruct (p c); [|auto].
    destruct (rep p min k ing (S n) s) as [m'|] eqn:E; [|auto].
    injection H as <-. destruct (IH _ _ E) as [rest ->].
    exists rest; reflexivity.
Qed.

Lemma match_here_prefix (items : regex) :
  forall ing s m, match_here ci items ing s = Some m -> exists rest, s = whole m ++ rest.
Proof.
  induction items as [|[c|min p| |] r IH]; intros ing s m H; simpl in H.
  - injection H as <-. exists s; reflexivity.
  - destruct s as [|c' s']; [discriminate|].
    destruct (ceq ci c c'); [|discriminate].
    destruct (match_here ci r ing s') as [m'|] eqn:E; [|discriminate].
    injection H as <-. destruct (IH _ _ _ E) as [rest ->].
    exists rest; reflexivity.
  - eapply rep_prefix; [|exact H]. intros; eapply IH; eauto.
  - eapply IH; eauto.
  - eapply IH; eauto.
Qed.

Lemma whole_length (m : tagged) : length (whole m) = length m.
Proof. apply length_map. Qed.

(** The segments of a scan, put back together, are the text scanned. *)
Lemma scan_original (items : regex) :
  forall s skip, flat_map original (scan ci items skip s) = skipn skip s.
Proof.
  induction s as [|c s IH]; intros skip; simpl.
  - destruct skip; [|reflexivity].
    destruct (match_here ci items false []) as [m|] eqn:E; [|reflexivity].
    destruct (match_here_prefix _ _ _ _ E) as [rest Hr].
    simpl. rewrite app_nil_r. symmetry in Hr. apply app_eq_nil in Hr. tauto.
  - destruct skip as [|k]; [|apply IH].
    destruct (match_here ci items false (c :: s)) as [[|x m']|] eqn:E; simpl.
    + rewrite IH. reflexivity.
    + rewrite IH. destruct (match_here_prefix _ _ _ _ E) as [rest Hr].
      simpl in Hr. injection Hr as Hc Hs. subst c. f_equal.
      rewrite Hs at 1. rewrite <- whole_length.
      rewrite skipn_app, skipn_all, Nat.sub_diag. simpl. exact (eq_sym Hs).
    + rewrite IH. reflexivity.
Qed.

Lemma finditer_original (items : regex) (s : text) :
  flat_map original (finditer ci items s) = s.
Proof. unfold finditer. rewrite scan_original. reflexivity. Qed.

(** Every match reported by the scan is the match of the pattern at the
    place where it stands. *)
Lemma scan_hit (items : regex) :
  forall s skip l1 m l2,
    scan ci items skip s = l1 ++ Hit m :: l2 ->
    match_here ci items false (whole m ++ flat_map original l2) = Some m.
Proof.
  induction s as [|c s IH]; intros skip l1 m l2 H; simpl in H.
  - destruct skip; [|destruct l1; discriminate].
    destruct (match_here ci items false []) as [m0|] eqn:E; [|destruct l1; discriminate].
    destruct l1 as [|x l1]; [|destruct l1; discriminate].
    injection H as <- <-. simpl. rewrite app_nil_r.
    destruct (match_here_prefix _ _ _ _ E) as [rest Hr].
    symmetry in Hr. apply app_eq_nil in Hr. destruct Hr as [-> _]. exact E.
  - destruct skip as [|k]; [|eapply IH; eauto].
    destruct (match_here ci items false (c :: s)) as [[|x m']|] eqn:E.
    + destruct l1 as [|y l1].
      * injection H as <- <-. simpl. rewrite scan_original. exact E.
      * injection H as _ H. destruct l1 as [|z l1]; [discriminate|].
        injection H as _ H. eapply IH; eauto.
    + destruct l1 as [|y l1].
      * injection H as <- <-. rewrite scan_original.
        destruct (match_here_prefix _ _ _ _ E) as [rest Hr].
        rewrite Hr in E. simpl in Hr. injection Hr as _ Hs.
        rewrite Hs, <- whole_length, skipn_app, skipn_all, Nat.sub_diag.
        exact E.
      * injection H as _ H. eapply IH; eauto.
    + destruct l1 as [|y l1]; [discriminate|].
      injection H as _ H. eapply IH; eauto.
Qed.

End Engine.

Section Anchors.

(** Inside a group closed at the end, every character is tagged. *)
Lemma rep_all_tagged (p : ascii -> bool) (min : nat) (k : text -> option tagged) :
  (forall s m, k s = Some m -> Forall (fun x => fst x = true) m) ->
  forall s n m, rep p min k true n s = Some m -> Forall (fun x => fst x = true) m.
Proof.
  intros Hk s; induction s as [|c s IH]; intros n m H; simpl in H.
  - destruct (min <=? n); [eauto | discriminate].
  - assert (Hstop : (if min <=? n then k (c :: s) else None) = Some m ->
                    Forall (fun x => fst x = true) m).
    { destruct (min <=? n); [eauto | discriminate]. }
    destruct (p c); [|auto].
    destruct (rep p min k true (S n) s) as [m'|] eqn:E; [|auto].
    injection H as <-. constructor; [reflexivity | eauto].
Qed.

Lemma wrapped_all_tagged (ci : bool) (items : regex) :
  wrapped items = true ->
  forall s m, match_here ci items true s = Some m -> Forall (fun x => fst x = true) m.
Proof.
  induction items as [|[c|min p| |] r IH]; intros W s m H; simpl in W.
  - discriminate.
  - simpl in H. destruct s as [|c' s']; [discriminate|].
    destruct (ceq ci c c'); [|discriminate].
    destruct (match_here ci r true s') as [m'|] eqn:E; [|discriminate].
    injection H as <-. constructor; [reflexivity | eauto].
  - simpl in H. eapply rep_all_tagged; [|exact H]. intros; eapply IH; eauto.
  - discriminate.
  - destruct r; [|discriminate]. simpl in H. injection H as <-. constructor.
Qed.

Lemma all_tagged_group (m : tagged) :
  Forall (fun x => fst x = true) m -> group1 m = whole m.
Proof.
  unfold group1, whole. induction 1 as [|[b c] m Hb _ IH]; [reflexivity|].
  simpl in *. subst b. simpl. f_equal. exact IH.
Qed.

Lemma anchor_group (pattern : regex) (s : text) (m : tagged) :
  is_anchor pattern = true ->
  match_here false pattern false s = Some m -> group1 m = whole m.
Proof.
  destruct pattern as [|[| | |] body]; try discriminate.
  simpl. intros W H. apply all_tagged_group. eapply wrapped_all_tagged; eauto.
Qed.

(** What [insert_after] does, segment by segment. *)
Lemma insert_after_segments (pattern : regex) (addition s : text) :
  is_anchor pattern = true ->
  insert_after pattern addition s
  = flat_map (with_addition addition) (finditer false pattern s).
Proof.
  intros A. unfold insert_after, re_sub.
  assert (H : forall l1 m l2, finditer false pattern s = l1 ++ Hit m :: l2 ->
                              group1 m = whole m).
  { intros l1 m l2 E. eapply anchor_group; [exact A|].
    eapply scan_hit. exact E. }
  revert H. generalize (finditer false pattern s) as l.
  induction l as [|x l IH]; intros H; [reflexivity|].
  cbn [flat_map].
  rewrite IH by (intros l1 m l2 E; apply (H (x :: l1) m l2); rewrite E; reflexivity).
  f_equal. destruct x as [c|m]; [reflexivity|].
  unfold with_addition, render, expand, after_anchor.
  cbn [t_pre t_post original is_hit app].
  rewrite (H [] m l eq_refl). reflexivity.
Qed.

Lemma gaps_only (l : list seg) :
  filter is_hit l = [] ->
  forall addition, flat_map (with_addition addition) l = flat_map original l.
Proof.
  induction l as [|[c|m] l IH]; intros H addition; simpl in *.
  - reflexivity.
  - rewrite IH by exact H. reflexivity.
  - discriminate.
Qed.

(** A section whose anchor matches nowhere leaves the buffer as it is. *)
Lemma insert_after_no_match (pattern : regex) (addition s : text) :
  is_anchor pattern = true ->
  count_matches false pattern s = 0 ->
  insert_after pattern addition s = s.
Proof.
  intros A H. rewrite insert_after_segments by exact A.
  unfold count_matches in H. apply length_zero_iff_nil in H.
  rewrite gaps_only by exact H. apply finditer_original.
Qed.

Lemma one_hit (l : list seg) :
  length (filter is_hit l) = 1 ->
  exists l1 m l2, l = l1 ++ Hit m :: l2 /\ filter is_hit l1 = [] /\ filter is_hit l2 = [].
Proof.
  induction l as [|[c|m] l IH]; simpl; intros H.
  - discriminate.
  - destruct (IH H) as (l1 & m & l2 & -> & H1 & H2).
    exists (Gap c :: l1), m, l2. auto.
  - exists [], m, l. injection H as H. apply length_zero_iff_nil in H. auto.
Qed.

End Anchors.

(** * The manifest scripts *)

(** C2.  A buffer that already holds the display name is left alone: the
    script writes nothing, so the file is as before, and it ends with
    status 0 and its own "already in project" message.  This holds for
    [add_chinese_processing.py] and for [add_pinyin_openai.py]. *)
Theorem already_present_is_noop (content : text) :
  (contains (str AddChinese.display_name) content = true ->
   AddChinese.run content
   = {| stdout := AddChinese.msg_present; status := 0; written := None |}
   /\ file_after content (AddChinese.run content) = content)
  /\
  (contains (str AddPinyin.display_name) content = true ->
   AddPinyin.run content
   = {| stdout := AddPinyin.msg_present; status := 0; written := None |}
   /\ file_after content (AddPinyin.run content) = content).
Proof.
  split; intros H.
  - unfold AddChinese.run. rewrite H. split; reflexivity.
  - unfold AddPinyin.run. rewrite H. split; reflexivity.
Qed.

Lemma already_present_is_noop_witness :
  (AddChinese.run Samples.both_names
   = {| stdout := AddChinese.msg_present; status := 0; written := None |}
   /\ file_after Samples.both_names (AddChinese.run Samples.both_names) = Samples.both_names)
  /\
  (AddPinyin.run Samples.both_names
   = {| stdout := AddPinyin.msg_present; status := 0; written := None |}
   /\ file_after Samples.both_names (AddPinyin.run Samples.both_names) = Samples.both_names).
Proof.
  split.
  - apply (proj1 (already_present_is_noop Samples.both_names)). vm_compute. reflexivity.
  - apply (proj2 (already_present_is_noop Samples.both_names)). vm_compute. reflexivity.
Defined.

(** C8, as the claim states it, fails: on the empty buffer no anchor
    matches, yet the process ends with status 0. *)
Lemma exit_status_counterexample :
  ~ (count_matches false AddChinese.build_file_pattern [] = 0 ->
     status (AddChinese.run []) <> 0).
Proof.
  intros H. apply H; reflexivity.
Qed.

(** C8, amended.  Every run ends with status 0.  It prints the "already in
    project" message and writes nothing when the display name is in the
    buffer; otherwise it prints the "Added" message and writes the buffer
    left by the four substitutions, whether or not the anchors matched.
    The two messages differ. *)
Theorem exit_status_always_zero (content : text) :
  status (AddChinese.run content) = 0
  /\ (if contains (str AddChinese.display_name) content
      then stdout (AddChinese.run content) = AddChinese.msg_present
           /\ written (AddChinese.run content) = None
      else stdout (AddChinese.run content) = AddChinese.msg_added
           /\ written (AddChinese.run content) = Some (AddChinese.stage4 content))
  /\ AddChinese.msg_present <> AddChinese.msg_added.
Proof.
  unfold AddChinese.run.
  destruct (contains (str AddChinese.display_name) content); simpl;
    repeat split; discriminate.
Qed.

Section Insertions.

Lemma inserted_prefix (blk w : text) :
  forall n s out, inserted blk n s out -> inserted blk n (w ++ s) (w ++ out).
Proof.
  induction w as [|c w IH]; intros n s out H; simpl; [exact H|].
  constructor. apply IH. exact H.
Qed.

Lemma inserted_segments (addition : text) (l : list seg) :
  inserted addition (length (filter is_hit l))
           (flat_map original l) (flat_map (with_addition addition) l).
Proof.
  induction l as [|[c|m] l IH]; simpl.
  - constructor.
  - constructor. exact IH.
  - unfold with_addition. simpl. rewrite <- app_assoc.
    apply inserted_prefix. constructor. exact IH.
Qed.

Lemma inserted_length (blk : text) (n : nat) (s out : text) :
  inserted blk n s out -> length out = length s + n * length blk.
Proof.
  induction 1; simpl; [reflexivity | lia |].
  rewrite length_app. lia.
Qed.

Lemma insert_after_inserted (pattern : regex) (addition s : text) :
  is_anchor pattern = true ->
  inserted addition (count_matches false pattern s) s (insert_after pattern addition s).
Proof.
  intros A. rewrite insert_after_segments by exact A.
  unfold count_matches.
  rewrite <- (finditer_original false pattern s) at 2.
  apply inserted_segments.
Qed.

End Insertions.

(** C3.  When the anchor pattern of a section matches exactly once, the
    buffer splits into the text before the match, the matched anchor text
    and the text after it, and the substitution returns these three with the
    new record spliced in right after the anchor text: the record stands
    between the anchor record and what followed it, and the text before and
    after is as it was. *)
Theorem insert_after_single_match (pattern : regex) (addition s : text) :
  is_anchor pattern = true ->
  count_matches false pattern s = 1 ->
  exists before m after,
    s = before ++ whole m ++ after
    /\ match_here false pattern false (whole m ++ after) = Some m
    /\ insert_after pattern addition s = before ++ whole m ++ addition ++ after.
Proof.
  intros A H. unfold count_matches in H.
  destruct (one_hit _ H) as (l1 & m & l2 & E & H1 & H2).
  exists (flat_map original l1), m, (flat_map original l2).
  split; [|split].
  - rewrite <- (finditer_original false pattern s) at 1.
    rewrite E, flat_map_app. reflexivity.
  - eapply scan_hit. exact E.
  - rewrite insert_after_segments by exact A.
    rewrite E, flat_map_app. simpl.
    rewrite (gaps_only _ H1), (gaps_only _ H2).
    unfold with_addition. simpl. rewrite <- app_assoc. reflexivity.
Qed.

Lemma insert_after_single_match_witness :
  exists before m after,
    Samples.build_section = before ++ whole m ++ after
    /\ match_here false AddChinese.build_file_pattern false (whole m ++ after) = Some m
    /\ AddChinese.stage1 Samples.build_section
       = before ++ whole m ++ AddChinese.build_file_addition ++ after.
Proof.
  apply (insert_after_single_match AddChinese.build_file_pattern
           AddChinese.build_file_addition Samples.build_section).
  - vm_compute. reflexivity.
  - vm_compute. reflexivity.
Defined.

(** C1, as the claim states it, fails: in a buffer with the group line of
    the anchor entity only, the build-registration anchor has no match, yet
    the file after the run differs from the file before. *)
Lemma missing_anchor_counterexample :
  ~ (count_matches false AddChinese.build_file_pattern Samples.services_line = 0 ->
     file_after Samples.services_line (AddChinese.run Samples.services_line)
     = Samples.services_line).
Proof.
  intros H. assert (E := H eq_refl). vm_compute in E. discriminate E.
Qed.

(** C1, amended.  The script has no report for a missing anchor.  When the
    display name is not in the buffer, the run prints the "Added" message,
    ends with status 0 and writes the buffer left by the four substitutions;
    a substitution whose anchor has no match returns its buffer unchanged,
    and so the buffer written is the input when no anchor matches at any of
    the four steps. *)
Theorem missing_anchor_is_skipped (content : text) :
  contains (str AddChinese.display_name) content = false ->
  AddChinese.run content
  = {| stdout := AddChinese.msg_added; status := 0;
       written := Some (AddChinese.stage4 content) |}
  /\ (count_matches false AddChinese.build_file_pattern content = 0 ->
      AddChinese.stage1 content = content)
  /\ (count_matches false AddChinese.file_ref_pattern (AddChinese.stage1 content) = 0 ->
      AddChinese.stage2 content = AddChinese.stage1 content)
  /\ (count_matches false AddChinese.services_pattern (AddChinese.stage2 content) = 0 ->
      AddChinese.stage3 content = AddChinese.stage2 content)
  /\ (count_matches false AddChinese.build_phase_pattern (AddChinese.stage3 content) = 0 ->
      AddChinese.stage4 content = AddChinese.stage3 content)
  /\ (count_matches false AddChinese.build_file_pattern content = 0 ->
      count_matches false AddChinese.file_ref_pattern content = 0 ->
      count_matches false AddChinese.services_pattern content = 0 ->
      count_matches false AddChinese.build_phase_pattern content = 0 ->
      file_after content (AddChinese.run content) = content).
Proof.
  intros Hname.
  assert (S1 : count_matches false AddChinese.build_file_pattern content = 0 ->
               AddChinese.stage1 content = content)
    by (intros H; apply insert_after_no_match; [reflexivity | exact H]).
  assert (S2 : count_matches false AddChinese.file_ref_pattern (AddChinese.stage1 content) = 0 ->
               AddChinese.stage2 content = AddChinese.stage1 content)
    by (intros H; apply insert_after_no_match; [reflexivity | exact H]).
  assert (S3 : count_matches false AddChinese.services_pattern (AddChinese.stage2 content) = 0 ->
               AddChinese.stage3 content = AddChinese.stage2 content)
    by (intros H; apply insert_after_no_match; [reflexivity | exact H]).
  assert (S4 : count_matches false AddChinese.build_phase_pattern (AddChinese.stage3 content) = 0 ->
               AddChinese.stage4 content = AddChinese.stage3 content)
    by (intros H; apply insert_after_no_match; [reflexivity | exact H]).
  unfold AddChinese.run. rewrite Hname.
  repeat (split; [assumption || reflexivity|]).
  intros H1 H2 H3 H4. unfold file_after; simpl.
  assert (E1 := S1 H1). rewrite <- E1 in H2. assert (E2 := S2 H2).
  rewrite <- E1, <- E2 in H3. assert (E3 := S3 H3).
  rewrite <- E1, <- E2, <- E3 in H4. assert (E4 := S4 H4).
  congruence.
Qed.

Lemma missing_anchor_is_skipped_witness :
  AddChinese.run Samples.services_line
  = {| stdout := AddChinese.msg_added; status := 0;
       written := Some (AddChinese.stage4 Samples.services_line) |}
  /\ AddChinese.stage1 Samples.services_line = Samples.services_line.
Proof.
  destruct (missing_anchor_is_skipped Samples.services_line) as (H1 & H2 & _).
  - vm_compute. reflexivity.
  - split; [exact H1 | apply H2; vm_compute; reflexivity].
Defined.







Section Idempotence.

Lemma starts_with_app (p s y : text) :
  starts_with p s = true -> starts_with p (s ++ y) = true.
Proof.
  revert s; induction p as [|a p IH]; intros s H; [reflexivity|].
  destruct s as [|b s]; [discriminate|]. simpl in *.
  apply andb_true_iff in H. destruct H as [H1 H2].
  rewrite H1, (IH _ H2). reflexivity.
Qed.

Lemma contains_app_l (p s y : text) :
  contains p s = true -> contains p (s ++ y) = true.
Proof.
  induction s as [|c s IH]; simpl; intros H.
  - rewrite orb_false_r in H.
    destruct p; [|discriminate]. destruct y; reflexivity.
  - apply orb_true_iff in H. apply orb_true_iff. destruct H as [H|H].
    + left. apply (starts_with_app p (c :: s) y H).
    + right. apply IH. exact H.
Qed.

Lemma contains_app_r (p x s : text) :
  contains p s = true -> contains p (x ++ s) = true.
Proof.
  intros H. induction x as [|c x IH]; [exact H|].
  simpl. rewrite IH. apply orb_true_r.
Qed.

Lemma some_hit (l : list seg) :
  length (filter is_hit l) <> 0 -> exists l1 m l2, l = l1 ++ Hit m :: l2.
Proof.
  induction l as [|[c|m] l IH]; simpl; intros H.
  - contradiction.
  - destruct (IH H) as (l1 & m & l2 & ->). exists (Gap c :: l1), m, l2. reflexivity.
  - exists [], m, l. reflexivity.
Qed.

(** A substitution that found its anchor leaves a buffer that holds
    whatever its record holds. *)
Lemma insert_after_contains (pattern : regex) (addition s p : text) :
  is_anchor pattern = true ->
  count_matches false pattern s <> 0 ->
  contains p addition = true ->
  contains p (insert_after pattern addition s) = true.
Proof.
  intros A H Hp. rewrite insert_after_segments by exact A.
  destruct (some_hit _ H) as (l1 & m & l2 & ->).
  rewrite flat_map_app. simpl. unfold with_addition at 2. simpl.
  apply contains_app_r. rewrite <- !app_assoc. apply contains_app_r.
  apply contains_app_l. exact Hp.
Qed.

Lemma insert_after_absent (pattern : regex) (addition s p : text) :
  is_anchor pattern = true ->
  contains p addition = true ->
  contains p (insert_after pattern addition s) = false ->
  count_matches false pattern s = 0 /\ insert_after pattern addition s = s.
Proof.
  intros A Hp H.
  destruct (Nat.eq_dec (count_matches false pattern s) 0) as [E|E].
  - split; [exact E | apply insert_after_no_match; assumption].
  - rewrite (insert_after_contains _ _ _ _ A E Hp) in H. discriminate.
Qed.

End Idempotence.




(** C5.  On a manifest in Xcode's layout, where every anchor of
    [add_pinyin_openai.py] matches, the pattern for the share extension's
    build record (which lacks the [ = {] of its sibling pattern) matches
    twice: at the build record, and at the entry of the Sources build phase,
    from where the class runs on to the brace that closes the phase.  The
    second build identifier then stands in two build-registration records
    (three occurrences in all, not two), and the primary identifier occurs
    five times, not four.  On the like manifest for
    [add_chinese_processing.py], whose patterns all have the [ = {], each
    anchor matches once and the identifiers occur three times and twice. *)
Theorem pinyin_share_record_duplicated :
  (contains (str AddPinyin.display_name) Samples.pinyin_manifest = false
   /\ count_matches false AddPinyin.build_file_pattern Samples.pinyin_manifest = 1
   /\ count_matches false AddPinyin.share_ext_pattern Samples.pinyin_manifest = 2
   /\ written (AddPinyin.run Samples.pinyin_manifest)
      = Some (AddPinyin.pipeline Samples.pinyin_manifest)
   /\ occurrences AddPinyin.share_ext_addition
        (AddPinyin.pipeline Samples.pinyin_manifest) = 2
   /\ occurrences (str AddPinyin.build_file_id2)
        (AddPinyin.pipeline Samples.pinyin_manifest) = 3
   /\ occurrences (str AddPinyin.build_file_id)
        (AddPinyin.pipeline Samples.pinyin_manifest) = 2
   /\ occurrences (str AddPinyin.file_ref_id)
        (AddPinyin.pipeline Samples.pinyin_manifest) = 5)
  /\
  (written (AddChinese.run Samples.chinese_manifest)
   = Some (AddChinese.stage4 Samples.chinese_manifest)
   /\ count_matches false AddChinese.build_file_pattern Samples.chinese_manifest = 1
   /\ occurrences AddChinese.build_file_addition
        (AddChinese.stage4 Samples.chinese_manifest) = 1
   /\ occurrences (str AddChinese.build_file_id)
        (AddChinese.stage4 Samples.chinese_manifest) = 2
   /\ occurrences (str AddChinese.file_ref_id)
        (AddChinese.stage4 Samples.chinese_manifest) = 3).
Proof.
  repeat split; vm_compute; reflexivity.
Qed.

(** * The log scripts *)

Section Mentions.

Variable ci : bool.

Lemma ceq_dq_r (c : ascii) : not_dq c = true -> ceq ci c dq = false.
Proof.
  destruct c as [[] [] [] [] [] [] [] []]; destruct ci; vm_compute; congruence.
Qed.

(** The tail of every promotion pattern: the class up to the closing quote. *)
Lemma rep_to_quote (min n : nat) (k : text -> option tagged) (x y : text) (res : tagged) :
  quote_free x = true ->
  min <= n + length x ->
  k (dq :: y) = Some res ->
  rep not_dq min k true n (x ++ dq :: y) = Some (map (pair true) x ++ res).
Proof.
  revert n. induction x as [|a x IH]; intros n Q L K; simpl in *.
  - replace (min <=? n) with true by (symmetry; apply Nat.leb_le; lia).
    exact K.
  - apply andb_true_iff in Q. destruct Q as [Qa Qx].
    rewrite Qa. rewrite (IH (S n)) by (assumption || lia). reflexivity.
Qed.

End Mentions.

Section Quotes.

Variable ci : bool.

Lemma ceq_dq_l (c : ascii) : ceq ci dq c = true -> c = dq.
Proof.
  destruct c as [[] [] [] [] [] [] [] []]; destruct ci; vm_compute; congruence.
Qed.

Lemma quotes_cons_le (c : ascii) (s : text) : quotes s <= quotes (c :: s).
Proof. unfold quotes. simpl. destruct (ascii_dec c dq); lia. Qed.

Lemma rep_quotes (p : ascii -> bool) (min q : nat) (k : text -> option tagged) (ing : bool) :
  (forall s m, k s = Some m -> q <= quotes s) ->
  forall s n m, rep p min k ing n s = Some m -> q <= quotes s.
Proof.
  intros Hk s; induction s as [|c s IH]; intros n m H; simpl in H.
  - destruct (min <=? n); [eauto | discriminate].
  - assert (Hstop : (if min <=? n then k (c :: s) else None) = Some m ->
                    q <= quotes (c :: s)).
    { destruct (min <=? n); [eauto | discriminate]. }
    destruct (p c); [|auto].
    destruct (rep p min k ing (S n) s) as [m'|] eqn:E; [|auto].
    pose proof (IH _ _ E). pose proof (quotes_cons_le c s). lia.
Qed.

(** A match needs as many double quotes in the text as the pattern has
    literal ones. *)
Lemma match_here_quotes (items : regex) :
  forall ing s m, match_here ci items ing s = Some m -> quotes_needed items <= quotes s.
Proof.
  induction items as [|[c|min p| |] r IH]; intros ing s m H; simpl in *.
  - lia.
  - destruct s as [|c' s']; [discriminate|].
    destruct (ceq ci c c') eqn:C; [|discriminate].
    destruct (match_here ci r ing s') as [m'|] eqn:E; [|discriminate].
    pose proof (IH _ _ _ E) as Q.
    destruct (Ascii.eqb c dq) eqn:D.
    + apply Ascii.eqb_eq in D. subst c. apply ceq_dq_l in C. subst c'.
      unfold quotes in *. simpl. destruct (ascii_dec dq dq); [lia | contradiction].
    + pose proof (quotes_cons_le c' s'). lia.
  - eapply rep_quotes; [|exact H]. intros; eapply IH; eauto.
  - eapply IH; eauto.
  - eapply IH; eauto.
Qed.

Lemma scan_gap (items : regex) (c : ascii) (s : text) :
  match_here ci items false (c :: s) = None ->
  scan ci items 0 (c :: s) = Gap c :: scan ci items 0 s.
Proof. intros H. simpl. rewrite H. reflexivity. Qed.

(** Too few quotes left: the rest of the text is copied. *)
Lemma scan_few_quotes (items : regex) (s : text) :
  quotes s < quotes_needed items ->
  scan ci items 0 s = map Gap s.
Proof.
  induction s as [|c s IH]; intros Q.
  - simpl. destruct (match_here ci items false []) as [m|] eqn:E; [|reflexivity].
    apply match_here_quotes in E. lia.
  - rewrite scan_gap.
    + simpl. f_equal. apply IH. pose proof (quotes_cons_le c s). lia.
    + destruct (match_here ci items false (c :: s)) as [m|] eqn:E; [|reflexivity].
      apply match_here_quotes in E. lia.
Qed.

Lemma render_gaps (t : template) (s : text) : flat_map (render t) (map Gap s) = s.
Proof. induction s as [|c s IH]; simpl; [|rewrite IH]; reflexivity. Qed.

Lemma quotes_quote_free (m : text) : quote_free m = true -> quotes m = 0.
Proof.
  unfold quotes. induction m as [|a m IH]; simpl; intros Q; [reflexivity|].
  apply andb_true_iff in Q. destruct Q as [Qa Qm].
  destruct (ascii_dec a dq) as [->|_]; [discriminate | auto].
Qed.

Lemma quotes_app (a b : text) : quotes (a ++ b) = quotes a + quotes b.
Proof. unfold quotes. apply count_occ_app. Qed.

Lemma quotes_needed_app (a b : regex) :
  quotes_needed (a ++ b) = quotes_needed a + quotes_needed b.
Proof.
  induction a as [|[c|min p| |] a IH]; simpl; try assumption; lia.
Qed.

End Quotes.

Section Rules.

Lemma debug_call_quotes (body : regex) : 2 <= quotes_needed (debug_call body).
Proof.
  unfold debug_call. rewrite quotes_needed_app. cbn [lits str list_ascii_of_string map].
  cbn [quotes_needed]. rewrite quotes_needed_app. simpl. lia.
Qed.

Lemma group1_app (a b : tagged) : group1 (a ++ b) = group1 a ++ group1 b.
Proof. unfold group1. rewrite filter_app, map_app. reflexivity. Qed.

Lemma group1_in (x : text) : group1 (map (pair true) x) = x.
Proof. unfold group1. induction x as [|a x IH]; simpl; [|rewrite IH]; reflexivity. Qed.

Lemma group1_out (x : text) : group1 (map (pair false) x) = [].
Proof. unfold group1. induction x as [|a x IH]; simpl; auto. Qed.

Lemma whole_app (a b : tagged) : whole (a ++ b) = whole a ++ whole b.
Proof. apply map_app. Qed.

Lemma whole_tag (b : bool) (x : text) : whole (map (pair b) x) = x.
Proof. unfold whole. induction x as [|a x IH]; simpl; [|rewrite IH]; reflexivity. Qed.

Lemma ceq_refl (ci : bool) (c : ascii) : ceq ci c c = true.
Proof. unfold ceq. destruct ci; apply Ascii.eqb_refl. Qed.

(** Literal characters of the pattern against the same characters. *)
Lemma lits_here (ci : bool) (l : text) (r : regex) (ing : bool) (s : text) :
  match_here ci (map Lit l ++ r) ing (l ++ s)
  = option_map (app (map (pair ing) l)) (match_here ci r ing s).
Proof.
  induction l as [|c l IH]; simpl.
  - destruct (match_here ci r ing s); reflexivity.
  - rewrite ceq_refl, IH. destruct (match_here ci r ing s); reflexivity.
Qed.

End Rules.

Section Strip.

Lemma lits_exact (l : text) (ing : bool) (s : text) :
  match_here false (map Lit l) ing s
  = if starts_with l s then Some (map (pair ing) l) else None.
Proof.
  revert s. induction l as [|c l IH]; intros s; simpl; [reflexivity|].
  destruct s as [|a s]; [reflexivity|].
  destruct (Ascii.eqb c a) eqn:E; simpl; [|reflexivity].
  apply Ascii.eqb_eq in E. subst a. rewrite IH.
  destruct (starts_with l s); reflexivity.
Qed.

Lemma starts_with_msg (l m y : text) :
  quote_free l = true ->
  starts_with l (m ++ dq :: y) = starts_with l m.
Proof.
  revert m. induction l as [|c l IH]; intros m Q; simpl; [reflexivity|].
  simpl in Q. apply andb_true_iff in Q. destruct Q as [Qc Ql].
  destruct m as [|a m]; simpl.
  - unfold not_dq in Qc. destruct (Ascii.eqb c dq); [discriminate | reflexivity].
  - rewrite IH by exact Ql. reflexivity.
Qed.

Lemma starts_with_split (l m : text) :
  starts_with l m = true -> m = l ++ skipn (length l) m.
Proof.
  revert m. induction l as [|c l IH]; intros m H; simpl; [reflexivity|].
  destruct m as [|a m]; [discriminate|]. simpl in H.
  apply andb_true_iff in H. destruct H as [E H]. apply Ascii.eqb_eq in E.
  subst a. f_equal. apply IH. exact H.
Qed.

(** The first quote of a text is where it is. *)
Lemma first_quote (x t pre s : text) :
  quote_free x = true ->
  pre ++ dq :: s = x ++ dq :: t ->
  (pre = x /\ s = t) \/ exists p, t = p ++ dq :: s.
Proof.
  revert pre. induction x as [|a x IH]; intros pre Q E; simpl in *.
  - destruct pre as [|b pre]; simpl in E.
    + injection E as E2. left. auto.
    + injection E as E1 E2. right. exists pre. auto.
  - apply andb_true_iff in Q. destruct Q as [Qa Qx].
    destruct pre as [|b pre]; simpl in E; injection E as E1 E2.
    + subst a. discriminate.
    + destruct (IH pre Qx E2) as [[-> ->]|[p ->]].
      * left. subst. auto.
      * right. exists p. reflexivity.
Qed.

End Strip.

Section StripCall.

(** [(logger\.\w+\()Q] at the start of a call, for any rest of the pattern. *)
Lemma word_here (level : string) (r : regex) (s : text) :
  In level levels ->
  match_here false
    (GOpen :: lits "logger." ++ Rep 1 is_word :: Lit "("%char :: GClose :: Lit dq :: r)
    false (str "logger." ++ str level ++ "("%char :: dq :: s)
  = option_map
      (app (map (pair true) (str "logger." ++ str level ++ ["("%char]) ++ [(false, dq)]))
      (match_here false r false s).
Proof.
  intros L. destruct L as [<-|[<-|[<-|[<-|[]]]]];
    simpl; destruct (match_here false r false s); reflexivity.
Qed.

Lemma scan_skip_app (ci : bool) (items : regex) (a b : text) :
  scan ci items (length a) (a ++ b) = scan ci items 0 b.
Proof. induction a as [|c a IH]; simpl; [destruct b|]; auto. Qed.

(** A match at the start of the text is the first segment of the scan. *)
Lemma scan_hit_prefix (ci : bool) (items : regex) (w b : text) (res : tagged) :
  match_here ci items false (w ++ b) = Some res ->
  whole res = w ->
  w <> [] ->
  scan ci items 0 (w ++ b) = Hit res :: scan ci items 0 b.
Proof.
  intros H W N. destruct w as [|c w]; [contradiction|].
  simpl. simpl in H. rewrite H. destruct res as [|x res]; [discriminate|].
  simpl in W. injection W as _ W. f_equal.
  rewrite <- (whole_length res), W. apply scan_skip_app.
Qed.

Lemma quote_free_app (a b : text) :
  quote_free (a ++ b) = quote_free a && quote_free b.
Proof. apply forallb_app. Qed.

End StripCall.

Section WellFormed.

Variable ci : bool.

(** The match of a plain body closed by [closing] is the group, then the
    closing quote and parenthesis. *)
Lemma rep_body_group (p : ascii -> bool) (min : nat) (k : text -> option tagged) :
  (forall s res, k s = Some res ->
     exists g rest, res = map (pair true) g ++ closed /\ s = g ++ dq :: ")"%char :: rest) ->
  forall s n res, rep p min k true n s = Some res ->
     exists g rest, res = map (pair true) g ++ closed /\ s = g ++ dq :: ")"%char :: rest.
Proof.
  intros Hk s; induction s as [|c s IH]; intros n res H; simpl in H.
  - destruct (min <=? n); [eauto | discriminate].
  - assert (Hstop : (if min <=? n then k (c :: s) else None) = Some res ->
             exists g rest, res = map (pair true) g ++ closed
                            /\ c :: s = g ++ dq :: ")"%char :: rest).
    { destruct (min <=? n); [eauto | discriminate]. }
    destruct (p c); [|auto].
    destruct (rep p min k true (S n) s) as [m'|] eqn:E; [|auto].
    injection H as <-. destruct (IH _ _ E) as (g & rest & -> & ->).
    exists (c :: g), rest. auto.
Qed.

Lemma body_group (body : regex) :
  plain body = true ->
  forall s res, match_here ci (body ++ closing) true s = Some res ->
    exists g rest, res = map (pair true) g ++ closed /\ s = g ++ dq :: ")"%char :: rest.
Proof.
  induction body as [|[c|min p| |] r IH]; intros P s res H; simpl in P; try discriminate.
  - cbn [app closing match_here] in H.
    destruct s as [|a s]; [discriminate|].
    destruct (ceq ci dq a) eqn:D; [|discriminate]. apply ceq_dq_l in D. subst a.
    destruct s as [|b s]; [discriminate|].
    unfold ceq in H. assert (B : b = ")"%char).
    { destruct b as [[] [] [] [] [] [] [] []]; destruct ci; try discriminate H; reflexivity. }
    subst b. exists [], s. split; [|reflexivity].
    destruct ci; simpl in H; injection H as <-; reflexivity.
  - simpl in H. destruct s as [|a s]; [discriminate|].
    destruct (ceq ci c a); [|discriminate].
    destruct (match_here ci (r ++ closing) true s) as [m'|] eqn:E; [|discriminate].
    injection H as <-. destruct (IH P _ _ E) as (g & rest & -> & ->).
    exists (a :: g), rest. auto.
  - simpl in H. eapply rep_body_group; [|exact H]. intros; eapply IH; eauto.
Qed.

End WellFormed.

Section Calls.

Lemma quote_free_strip (prefix m : text) :
  quote_free m = true -> quote_free (strip_prefix prefix m) = true.
Proof.
  intros Q. unfold strip_prefix. destruct (starts_with prefix m); [|exact Q].
  rewrite <- (firstn_skipn (length prefix) m), quote_free_app in Q.
  apply andb_true_iff in Q. tauto.
Qed.

End Calls.

Section Malformed.

Lemma lits_inv (l : text) (r : regex) (ing : bool) :
  forall s res, match_here false (map Lit l ++ r) ing s = Some res ->
    exists s' res', s = l ++ s' /\ match_here false r ing s' = Some res'
                    /\ res = map (pair ing) l ++ res'.
Proof.
  induction l as [|c l IH]; intros s res H; simpl in H.
  - exists s, res. auto.
  - destruct s as [|a s]; [discriminate|].
    destruct (Ascii.eqb c a) eqn:E; [|discriminate].
    apply Ascii.eqb_eq in E. subst a.
    destruct (match_here false (map Lit l ++ r) ing s) as [m'|] eqn:M; [|discriminate].
    injection H as <-. destruct (IH _ _ M) as (s' & res' & -> & M' & ->).
    exists s', res'. auto.
Qed.

Lemma closing_inv (s : text) (res : tagged) :
  match_here false closing true s = Some res ->
  exists rest, s = dq :: ")"%char :: rest /\ res = closed.
Proof.
  intros H. cbn [closing match_here] in H. unfold ceq in H.
  destruct s as [|a s]; [discriminate|].
  destruct (Ascii.eqb dq a) eqn:A; [|discriminate].
  apply Ascii.eqb_eq in A. subst a.
  destruct s as [|b s]; [discriminate|].
  destruct (Ascii.eqb ")"%char b) eqn:B; [|discriminate].
  apply Ascii.eqb_eq in B. subst b.
  simpl in H. exists s. split; [reflexivity | unfold closed; congruence].
Qed.

Lemma class_inv (min : nat) :
  forall s n res,
    rep not_dq min (match_here false closing true) true n s = Some res ->
    exists g rest, quote_free g = true /\ min <= n + length g
                   /\ s = g ++ dq :: ")"%char :: rest
                   /\ res = map (pair true) g ++ closed.
Proof.
  induction s as [|c s IH]; intros n res H; cbn [rep] in H.
  - destruct (min <=? n); discriminate.
  - assert (Hstop : (if min <=? n then match_here false closing true (c :: s) else None)
                    = Some res ->
             exists g rest, quote_free g = true /\ min <= n + length g
                            /\ c :: s = g ++ dq :: ")"%char :: rest
                            /\ res = map (pair true) g ++ closed).
    { destruct (min <=? n) eqn:L; [|discriminate]. intros K.
      apply closing_inv in K. destruct K as (rest & -> & ->).
      apply Nat.leb_le in L. exists [], rest. simpl. repeat split; auto; lia. }
    destruct (not_dq c) eqn:Pc; [|auto].
    destruct (rep not_dq min (match_here false closing true) true (S n) s)
      as [m'|] eqn:E; [|auto].
    injection H as <-. destruct (IH _ _ E) as (g & rest & Q & L & -> & ->).
    exists (c :: g), rest. simpl. rewrite Pc, Q. repeat split; auto; lia.
Qed.

(** What the pattern of a malformed call matches. *)
Lemma malformed_inv (s : text) (res : tagged) :
  match_here false malformed false s = Some res ->
  exists g, g <> [] /\ quote_free g = true
            /\ whole res = malformed_call g /\ group1 res = g.
Proof.
  intros H.
  change malformed
    with (map Lit (str "logger." ++ [dq]) ++ GOpen :: Rep 1 not_dq :: closing) in H.
  apply lits_inv in H. destruct H as (s' & res' & -> & M & ->).
  cbn [match_here] in M. apply class_inv in M.
  destruct M as (g & rest & Q & L & -> & ->).
  exists g. repeat split.
  - destruct g; [simpl in L; lia | discriminate].
  - exact Q.
  - rewrite !whole_app, !whole_tag. reflexivity.
  - rewrite !group1_app, group1_out, group1_in. simpl. apply app_nil_r.
Qed.

End Malformed.

Section Pass.

Lemma fix_logging_shape :
  Forall (fun r => exists ci body target,
            r = promote ci body target /\ plain body = true /\ In target levels)
    [ promote true (mentions "error") "error";
      promote true (mentions "failed") "error";
      promote true (mentions "invalid") "error";
      promote true (mentions "not configured") "warning";
      promote true (mentions "not properly") "warning";
      promote false (tts_mentions "generateAudio") "info";
      promote false (tts_mentions "Received") "info";
      promote false (tts_mentions "Audio saved") "info" ].
Proof.
  repeat constructor;
    eexists; eexists; eexists;
    (split; [reflexivity | split; [reflexivity | simpl; tauto]]).
Qed.

Lemma fix_app_logging_shape :
  Forall (fun r => exists ci body target,
            r = promote ci body target /\ plain body = true /\ In target levels)
    [ promote true (mentions "Error") "error";
      promote true (mentions "Failed") "error";
      promote true FixAppLogging.no_found "info";
      promote false (mentions "Processing") "info";
      promote false (mentions "Looking for") "debug";
      promote false (mentions "Found") "info";
      promote false (mentions "Successfully") "info";
      promote false (mentions "loaded") "info";
      promote false (mentions "exists") "debug";
      promote false (mentions "Cleaned up") "info" ].
Proof.
  repeat constructor;
    eexists; eexists; eexists;
    (split; [reflexivity | split; [reflexivity | simpl; tauto]]).
Qed.

End Pass.

Section PromotionMatches.

Variable ci : bool.

Lemma ceq_paren (c : ascii) : ceq ci ")"%char c = true -> c = ")"%char.
Proof.
  destruct c as [[] [] [] [] [] [] [] []]; destruct ci; vm_compute; congruence.
Qed.

Lemma ceq_quote_free (a b : ascii) : not_dq a = true -> ceq ci a b = true -> not_dq b = true.
Proof.
  intros Qa E. destruct (not_dq b) eqn:Qb; [reflexivity|].
  unfold not_dq in Qb. apply negb_false_iff, Ascii.eqb_eq in Qb. subst b.
  rewrite (ceq_dq_r ci a Qa) in E. discriminate.
Qed.

Lemma closing_at (s : text) (res : tagged) :
  match_here ci closing true s = Some res ->
  exists rest, s = dq :: ")"%char :: rest /\ res = closed.
Proof.
  intros H. cbn [closing match_here] in H.
  destruct s as [|a s]; [discriminate|].
  destruct (ceq ci dq a) eqn:A; [|discriminate]. apply ceq_dq_l in A. subst a.
  destruct s as [|b s]; [discriminate|].
  destruct (ceq ci ")"%char b) eqn:B; [|discriminate]. apply ceq_paren in B. subst b.
  simpl in H. exists s. split; [reflexivity | unfold closed; congruence].
Qed.

Lemma closing_not_quote (a : ascii) (s : text) :
  not_dq a = true -> match_here ci closing true (a :: s) = None.
Proof.
  intros Q. destruct (match_here ci closing true (a :: s)) as [r|] eqn:E; [|reflexivity].
  apply closing_at in E. destruct E as (rest & E & _). injection E as -> _. discriminate.
Qed.

(** The class up to the first quote, whatever comes after the quote. *)
Lemma class_to_quote (x y : text) (n : nat) :
  quote_free x = true ->
  rep not_dq 0 (match_here ci closing true) true n (x ++ dq :: y)
  = option_map (app (map (pair true) x)) (match_here ci closing true (dq :: y)).
Proof.
  revert n. induction x as [|a x IH]; intros n Q.
  - cbn [app rep]. change (not_dq dq) with false. cbn [Nat.leb map].
    destruct (match_here ci closing true (dq :: y)); reflexivity.
  - simpl in Q. apply andb_true_iff in Q. destruct Q as [Qa Qx].
    cbn [app rep]. rewrite Qa, (IH (S n) Qx). cbn [Nat.leb].
    destruct (match_here ci closing true (dq :: y)); [reflexivity|].
    cbn [option_map]. apply closing_not_quote. exact Qa.
Qed.

Lemma marker_at (marker x y : text) :
  quote_free marker = true ->
  quote_free x = true ->
  match_here ci (map Lit marker ++ Rep 0 not_dq :: closing) true (x ++ dq :: y)
  = if starts_with_ci ci marker x
    then option_map (app (map (pair true) x)) (match_here ci closing true (dq :: y))
    else None.
Proof.
  revert x. induction marker as [|c marker IH]; intros x Qm Qx.
  - cbn [map app match_here starts_with_ci]. apply class_to_quote. exact Qx.
  - simpl in Qm. apply andb_true_iff in Qm. destruct Qm as [Qc Qm].
    destruct x as [|a x]; cbn [map app match_here starts_with_ci].
    + rewrite (ceq_dq_r ci c Qc). reflexivity.
    + simpl in Qx. apply andb_true_iff in Qx. destruct Qx as [_ Qx].
      destruct (ceq ci c a); [|reflexivity]. cbn [andb].
      cbn [map app] in IH. rewrite (IH x Qm Qx).
      destruct (starts_with_ci ci marker x); [|reflexivity].
      destruct (match_here ci closing true (dq :: y)); reflexivity.
Qed.

Lemma mentions_at (marker x y : text) (n : nat) :
  quote_free marker = true ->
  quote_free x = true ->
  rep not_dq 0 (match_here ci (map Lit marker ++ Rep 0 not_dq :: closing) true)
      true n (x ++ dq :: y)
  = if mentioned ci marker x
    then option_map (app (map (pair true) x)) (match_here ci closing true (dq :: y))
    else None.
Proof.
  intros Qm. revert n. induction x as [|a x IH]; intros n Qx.
  - cbn [app rep]. change (not_dq dq) with false. cbn [Nat.leb].
    change (dq :: y) with ([] ++ dq :: y) at 1.
    rewrite marker_at by auto. cbn [mentioned]. rewrite orb_false_r. reflexivity.
  - simpl in Qx. apply andb_true_iff in Qx. destruct Qx as [Qa Qx].
    cbn [rep app]. rewrite Qa. rewrite (IH (S n) Qx). cbn [mentioned Nat.leb].
    change (a :: x ++ dq :: y) with ((a :: x) ++ dq :: y).
    rewrite marker_at; [|exact Qm | simpl; rewrite Qa; exact Qx].
    destruct (mentioned ci marker x).
    + rewrite orb_true_r.
      destruct (match_here ci closing true (dq :: y)); [reflexivity|].
      destruct (starts_with_ci ci marker (a :: x)); reflexivity.
    + rewrite orb_false_r. reflexivity.
Qed.

End PromotionMatches.

Section PromotionInversion.

Variable ci : bool.

Lemma split_quote (s : text) :
  exists x rest, quote_free x = true /\ s = x ++ rest
                 /\ (rest = [] \/ exists y, rest = dq :: y).
Proof.
  induction s as [|a s (x & rest & Q & -> & R)].
  - exists [], []. auto.
  - destruct (not_dq a) eqn:Qa.
    + exists (a :: x), rest. simpl. rewrite Qa, Q. auto.
    + unfold not_dq in Qa. apply negb_false_iff, Ascii.eqb_eq in Qa. subst a.
      exists [], (dq :: x ++ rest). simpl. eauto.
Qed.

Lemma lits_inv_ci (l : text) (r : regex) (ing : bool) :
  forall s res, match_here ci (map Lit l ++ r) ing s = Some res ->
    exists l' s' res', s = l' ++ s' /\ starts_with_ci ci l l' = true
                       /\ length l' = length l
                       /\ match_here ci r ing s' = Some res'
                       /\ res = map (pair ing) l' ++ res'.
Proof.
  induction l as [|c l IH]; intros s res H; simpl in H.
  - exists [], s, res. auto.
  - destruct s as [|a s]; [discriminate|].
    destruct (ceq ci c a) eqn:E; [|discriminate].
    destruct (match_here ci (map Lit l ++ r) ing s) as [m'|] eqn:M; [|discriminate].
    injection H as <-. destruct (IH _ _ M) as (l' & s' & res' & -> & S & L & M' & ->).
    exists (a :: l'), s', res'. simpl. rewrite E, S, L. auto.
Qed.

Lemma quotes_needed_lits (l : text) :
  quote_free l = true -> quotes_needed (map Lit l) = 0.
Proof.
  induction l as [|c l IH]; simpl; intros Q; [reflexivity|].
  apply andb_true_iff in Q. destruct Q as [Qc Ql].
  unfold not_dq in Qc. apply negb_true_iff in Qc. rewrite Qc. auto.
Qed.

(** What a promotion rule with body [mentions marker] matches, anywhere. *)
Lemma promote_match_inv (marker : string) (s : text) (res : tagged) :
  quote_free (str marker) = true ->
  match_here ci (debug_call (mentions marker)) false s = Some res ->
  exists head g,
    starts_with_ci ci (str "logger.debug(" ++ [dq]) head = true
    /\ length head = 14
    /\ quote_free g = true
    /\ mentioned ci (str marker) g = true
    /\ whole res = head ++ g ++ [dq; ")"%char]
    /\ group1 res = g.
Proof.
  intros Qk H.
  assert (P : debug_call (mentions marker)
              = map Lit (str "logger.debug(" ++ [dq])
                ++ GOpen :: Rep 0 not_dq
                  :: (map Lit (str marker) ++ Rep 0 not_dq :: closing)).
  { unfold debug_call, mentions, lits. simpl. rewrite <- app_assoc. reflexivity. }
  rewrite P in H. clear P. apply lits_inv_ci in H.
  destruct H as (head & s' & res' & -> & S & L & M & ->).
  cbn [match_here] in M.
  destruct (split_quote s') as (x & rest & Q & -> & [->|[y ->]]).
  - exfalso. rewrite app_nil_r in M.
    eapply (rep_quotes not_dq 0 1) in M.
    + rewrite (quotes_quote_free x Q) in M. lia.
    + intros s m E. apply match_here_quotes in E.
      rewrite quotes_needed_app, (quotes_needed_lits _ Qk) in E. exact E.
  - rewrite (mentions_at ci (str marker) x y 0 Qk Q) in M.
    destruct (mentioned ci (str marker) x) eqn:Mx; [|discriminate].
    destruct (match_here ci closing true (dq :: y)) as [r0|] eqn:K; [|discriminate].
    apply closing_at in K. destruct K as (rest & Ey & ->).
    injection Ey as ->. injection M as <-.
    exists head, x.
    split; [exact S|]. split; [exact L|]. split; [exact Q|]. split; [exact Mx|].
    split.
    + rewrite !whole_app, !whole_tag. reflexivity.
    + rewrite !group1_app, group1_out, group1_in. simpl. apply app_nil_r.
Qed.

End PromotionInversion.

Section Context.

Variable ci : bool.

(** Two texts cut at their first quote are cut at the same place. *)
Lemma first_quote_both (a b s t : text) :
  quote_free a = true ->
  quote_free b = true ->
  a ++ dq :: s = b ++ dq :: t ->
  a = b /\ s = t.
Proof.
  intros Qa Qb E. destruct (first_quote b t a s Qb E) as [H|[p Hp]]; [exact H|].
  symmetry in E. destruct (first_quote a s b t Qa E) as [[-> ->]|[q Hq]]; [auto|].
  exfalso. subst t. apply (f_equal (@length ascii)) in Hq.
  rewrite !length_app in Hq. simpl in Hq. rewrite length_app in Hq. simpl in Hq. lia.
Qed.

(** The scan copies a stretch in which no match starts. *)
Lemma scan_gaps_prefix (items : regex) (pre rest : text) :
  (forall p1 c p2, pre = p1 ++ c :: p2 ->
                   match_here ci items false (c :: p2 ++ rest) = None) ->
  scan ci items 0 (pre ++ rest) = map Gap pre ++ scan ci items 0 rest.
Proof.
  induction pre as [|c pre IH]; intros H; [reflexivity|].
  cbn [app map]. rewrite scan_gap by (apply (H [] c pre); reflexivity).
  f_equal. apply IH. intros p1 c' p2 E. apply (H (c :: p1) c' p2).
  rewrite E. reflexivity.
Qed.

Lemma starts_ci_quote_free (l l' : text) :
  quote_free l = true ->
  starts_with_ci ci l l' = true ->
  length l' = length l ->
  quote_free l' = true.
Proof.
  revert l'. induction l as [|c l IH]; intros l' Q S L.
  - destruct l'; [reflexivity | discriminate].
  - destruct l' as [|a l']; [discriminate|].
    simpl in *. apply andb_true_iff in Q. destruct Q as [Qc Ql].
    apply andb_true_iff in S. destruct S as [Sc Sl].
    rewrite (ceq_quote_free ci c a Qc Sc). apply IH; auto.
Qed.

(** A pattern that starts with literal characters and a quote matches a
    text whose first quote stands right after these characters. *)
Lemma head_inv (l : text) (r : regex) (ing : bool) (s : text) (res : tagged) :
  quote_free l = true ->
  match_here ci (map Lit l ++ Lit dq :: r) ing s = Some res ->
  exists l' s', s = l' ++ dq :: s' /\ quote_free l' = true
                /\ starts_with_ci ci l l' = true /\ length l' = length l.
Proof.
  intros Q H. apply lits_inv_ci in H.
  destruct H as (l' & s' & res' & -> & S & L & M & _).
  cbn [match_here] in M. destruct s' as [|a s']; [discriminate|].
  destruct (ceq ci dq a) eqn:A; [|discriminate]. apply ceq_dq_l in A. subst a.
  exists l', s'. repeat split; auto. eapply starts_ci_quote_free; eauto.
Qed.

End Context.

Section ContextRules.

(** No match of a promotion rule or of the first rule starts before a
    call, in a stretch without quotes. *)
Lemma promote_not_before (ci : bool) (body : regex) (level : string)
      (c : ascii) (p2 tail : text) :
  In level levels ->
  quote_free (c :: p2) = true ->
  match_here ci (debug_call body) false
             (c :: p2 ++ str "logger." ++ str level ++ "("%char :: dq :: tail)
  = None.
Proof.
  intros L Q.
  destruct (match_here ci (debug_call body) false
              (c :: p2 ++ str "logger." ++ str level ++ "("%char :: dq :: tail))
    as [res|] eqn:E; [|reflexivity].
  exfalso.
  change (debug_call body)
    with (map Lit (str "logger.debug(") ++ Lit dq :: GOpen :: body ++ closing) in E.
  apply head_inv in E; [|reflexivity].
  destruct E as (l' & s' & E & Q' & S & Len).
  assert (X : (c :: p2 ++ str "logger." ++ str level ++ ["("%char]) ++ dq :: tail
              = l' ++ dq :: s').
  { rewrite <- E. cbn [app]. rewrite <- !app_assoc. reflexivity. }
  apply first_quote_both in X; [|
    simpl in Q |- *; apply andb_true_iff in Q; destruct Q as [-> Q2];
    rewrite !quote_free_app, Q2;
    destruct L as [<-|[<-|[<-|[<-|[]]]]]; reflexivity | exact Q'].
  destruct X as [<- _].
  destruct L as [<-|[<-|[<-|[<-|[]]]]];
    simpl in Len; rewrite length_app in Len; simpl in Len;
    try lia.
  destruct p2 as [|c2 p2]; [|simpl in Len; lia].
  simpl in S. destruct (ceq ci "l" c); destruct ci; discriminate S.
Qed.

End ContextRules.

Section ContextStrip.

Lemma normalize_not_before (c : ascii) (p2 y tail : text) :
  quote_free (c :: p2 ++ y) = true ->
  7 <= length y ->
  match_here false malformed false (c :: p2 ++ y ++ dq :: tail) = None.
Proof.
  intros Q Ly.
  destruct (match_here false malformed false (c :: p2 ++ y ++ dq :: tail))
    as [res|] eqn:E; [|reflexivity].
  exfalso.
  change malformed
    with (map Lit (str "logger.") ++ Lit dq :: GOpen :: Rep 1 not_dq :: closing) in E.
  apply head_inv in E; [|reflexivity].
  destruct E as (l' & s' & E & Q' & S & Len).
  assert (X : (c :: p2 ++ y) ++ dq :: tail = l' ++ dq :: s').
  { rewrite <- E. cbn [app]. rewrite <- !app_assoc. reflexivity. }
  apply first_quote_both in X; [|exact Q | exact Q'].
  destruct X as [<- _]. simpl in Len. rewrite length_app in Len. lia.
Qed.

(** Greedy repetition, read backwards: what was taken, and where the rest
    of the pattern matched. *)
Lemma rep_inv (p : ascii -> bool) (min : nat) (k : text -> option tagged) (ing : bool) :
  forall s n res, rep p min k ing n s = Some res ->
    exists w s' res', forallb p w = true /\ min <= n + length w
                      /\ s = w ++ s' /\ k s' = Some res'
                      /\ res = map (pair ing) w ++ res'.
Proof.
  induction s as [|c s IH]; intros n res H; cbn [rep] in H.
  - destruct (min <=? n) eqn:L; [|discriminate]. apply Nat.leb_le in L.
    exists [], [], res. simpl. repeat split; auto; lia.
  - assert (Hstop : (if min <=? n then k (c :: s) else None) = Some res ->
             exists w s' res', forallb p w = true /\ min <= n + length w
                               /\ c :: s = w ++ s' /\ k s' = Some res'
                               /\ res = map (pair ing) w ++ res').
    { destruct (min <=? n) eqn:L; [|discriminate]. apply Nat.leb_le in L.
      intros K. exists [], (c :: s), res. simpl. repeat split; auto; lia. }
    destruct (p c) eqn:Pc; [|auto].
    destruct (rep p min k ing (S n) s) as [m'|] eqn:E; [|auto].
    injection H as <-. destruct (IH _ _ E) as (w & s' & res' & W & L & -> & K & ->).
    exists (c :: w), s', res'. simpl. rewrite Pc, W. repeat split; auto; lia.
Qed.

Lemma word_quote_free (w : text) : forallb is_word w = true -> quote_free w = true.
Proof.
  induction w as [|a w IH]; simpl; intros H; [reflexivity|].
  apply andb_true_iff in H. destruct H as [Ha Hw]. rewrite (IH Hw), andb_true_r.
  destruct (not_dq a) eqn:Q; [reflexivity|].
  unfold not_dq in Q. apply negb_false_iff, Ascii.eqb_eq in Q. subst a. discriminate.
Qed.

(** What the prefix pattern matches. *)
Lemma strip_match_inv (prefix : string) (s : text) (res : tagged) :
  match_here false (prefixed prefix) false s = Some res ->
  exists w rest, forallb is_word w = true /\ w <> []
                 /\ s = str "logger." ++ w ++ "("%char :: dq :: str prefix ++ rest.
Proof.
  intros H.
  change (prefixed prefix)
    with (GOpen :: map Lit (str "logger.")
            ++ Rep 1 is_word :: Lit "("%char :: GClose :: Lit dq :: map Lit (str prefix)) in H.
  cbn [match_here] in H. apply lits_inv in H.
  destruct H as (s1 & res1 & -> & M & _).
  cbn [match_here] in M. apply rep_inv in M.
  destruct M as (w & s' & res' & W & L & -> & K & _).
  cbn [match_here] in K. unfold ceq in K.
  destruct s' as [|a s']; [discriminate|].
  destruct (Ascii.eqb "("%char a) eqn:A; [|discriminate].
  apply Ascii.eqb_eq in A. subst a.
  destruct s' as [|b s']; [discriminate|].
  destruct (Ascii.eqb dq b) eqn:B; [|discriminate].
  apply Ascii.eqb_eq in B. subst b.
  rewrite lits_exact in K.
  destruct (starts_with (str prefix) s') eqn:P; [|discriminate].
  apply starts_with_split in P.
  exists w, (skipn (length (str prefix)) s'). split; [exact W|]. split.
  - destruct w; [simpl in L; lia | discriminate].
  - rewrite <- P. reflexivity.
Qed.

End ContextStrip.

Section ContextStrip2.

Lemma starts_with_self (l r : text) : starts_with l (l ++ r) = true.
Proof. induction l as [|c l IH]; simpl; [|rewrite Ascii.eqb_refl, IH]; reflexivity. Qed.

Lemma strip_not_before (prefix level : string) (c : ascii) (p2 tail : text) :
  forallb is_word (str level) = true ->
  quote_free (c :: p2) = true ->
  match_here false (prefixed prefix) false
             (c :: p2 ++ str "logger." ++ str level ++ "("%char :: dq :: tail)
  = None.
Proof.
  intros W Q.
  destruct (match_here false (prefixed prefix) false
              (c :: p2 ++ str "logger." ++ str level ++ "("%char :: dq :: tail))
    as [res|] eqn:E; [|reflexivity].
  exfalso. apply strip_match_inv in E. destruct E as (w & rest & Ww & _ & E).
  assert (X : (c :: p2 ++ str "logger." ++ str level ++ ["("%char]) ++ dq :: tail
              = (str "logger." ++ w ++ ["("%char]) ++ dq :: str prefix ++ rest).
  { rewrite <- !app_assoc. cbn [app] in *. rewrite <- !app_assoc. exact E. }
  apply first_quote_both in X.
  - destruct X as [X _].
    assert (Y : (c :: p2 ++ str "logger") ++ "."%char :: str level = str "logger." ++ w).
    { apply (app_inj_tail _ _ "("%char "("%char).
      transitivity (c :: p2 ++ str "logger." ++ str level ++ ["("%char]).
      - cbn [app]. rewrite <- !app_assoc. reflexivity.
      - rewrite X, <- app_assoc. reflexivity. }
    apply app_eq_app in Y. destruct Y as [l [[Y1 Y2]|[Y1 Y2]]].
    + subst w. rewrite forallb_app in Ww. simpl in Ww.
      rewrite andb_false_r in Ww. discriminate.
    + destruct p2 as [|c2 p2].
      * simpl in Y1. injection Y1 as _ Y1. discriminate Y1.
      * apply (f_equal (@length ascii)) in Y1. simpl in Y1.
        rewrite !length_app in Y1. simpl in Y1. lia.
  - change (quote_free ((c :: p2) ++ str "logger." ++ str level ++ ["("%char]) = true).
    rewrite !quote_free_app, Q, (word_quote_free _ W). reflexivity.
  - rewrite !quote_free_app, (word_quote_free _ Ww). reflexivity.
Qed.

Lemma prefixed_quotes (prefix : string) : 1 <= quotes_needed (prefixed prefix).
Proof.
  unfold prefixed. cbn [quotes_needed]. rewrite quotes_needed_app. simpl. lia.
Qed.

(** After the message of a call and a stretch without quotes, the prefix
    pattern has no match. *)
Lemma strip_tail_ctx (prefix : string) (x post : text) :
  quote_free x = true ->
  quote_free post = true ->
  (forall y, starts_with (str prefix) (")"%char :: y) = false) ->
  scan false (prefixed prefix) 0 (x ++ dq :: ")"%char :: post)
  = map Gap (x ++ dq :: ")"%char :: post).
Proof.
  intros Qx Qp N. rewrite scan_gaps_prefix.
  - rewrite map_app. f_equal.
    rewrite scan_gap by reflexivity. cbn [map]. f_equal.
    apply scan_few_quotes. pose proof (prefixed_quotes prefix).
    assert (quotes (")"%char :: post) = 0)
      by (apply quotes_quote_free; simpl; exact Qp).
    lia.
  - intros p1 c p2 E.
    destruct (match_here false (prefixed prefix) false (c :: p2 ++ dq :: ")"%char :: post))
      as [res|] eqn:M; [|reflexivity].
    exfalso. apply strip_match_inv in M. destruct M as (w & rest & Ww & _ & M).
    assert (X : (c :: p2) ++ dq :: ")"%char :: post
                = (str "logger." ++ w ++ ["("%char]) ++ dq :: str prefix ++ rest).
    { rewrite <- !app_assoc. exact M. }
    apply first_quote_both in X.
    + destruct X as [_ X]. pose proof (N post) as N'.
      rewrite X, starts_with_self in N'. discriminate.
    + rewrite E, quote_free_app in Qx. apply andb_true_iff in Qx. tauto.
    + rewrite !quote_free_app, (word_quote_free _ Ww). reflexivity.
Qed.

End ContextStrip2.

Section ContextCalls.

Lemma in_context_eq (pre : text) (level : string) (m post : text) :
  in_context pre level m post
  = pre ++ str "logger." ++ str level ++ "("%char :: dq :: m ++ dq :: ")"%char :: post.
Proof.
  unfold in_context, call. rewrite <- !app_assoc. cbn [app].
  rewrite <- !app_assoc. reflexivity.
Qed.

Lemma re_sub_gaps (ci : bool) (items : regex) (t : template) (s : text) :
  scan ci items 0 s = map Gap s -> re_sub ci items t s = s.
Proof. intros H. unfold re_sub, finditer. rewrite H. apply render_gaps. Qed.

Lemma scan_gaps_app (ci : bool) (items : regex) (pre rest : text) :
  (forall p1 c p2, pre = p1 ++ c :: p2 ->
                   match_here ci items false (c :: p2 ++ rest) = None) ->
  scan ci items 0 rest = map Gap rest ->
  scan ci items 0 (pre ++ rest) = map Gap (pre ++ rest).
Proof. intros H R. rewrite scan_gaps_prefix, R, map_app by exact H. reflexivity. Qed.

Lemma suffix_quote_free (pre p1 p2 : text) (c : ascii) :
  quote_free pre = true -> pre = p1 ++ c :: p2 -> quote_free (c :: p2) = true.
Proof.
  intros Q ->. rewrite quote_free_app in Q. apply andb_true_iff in Q. tauto.
Qed.

Lemma tail_quotes (m post : text) :
  quote_free m = true -> quote_free post = true ->
  quotes (m ++ dq :: ")"%char :: post) = 1.
Proof.
  intros Qm Qp. rewrite quotes_app, (quotes_quote_free m Qm).
  change (dq :: ")"%char :: post) with ([dq; ")"%char] ++ post).
  rewrite quotes_app, (quotes_quote_free post Qp). reflexivity.
Qed.

(** The end of a call and what follows hold no match of a pattern with two
    literal quotes. *)
Lemma scan_tail_ctx (ci : bool) (items : regex) (m post : text) :
  quote_free m = true -> quote_free post = true ->
  2 <= quotes_needed items ->
  scan ci items 0 (m ++ dq :: ")"%char :: post) = map Gap (m ++ dq :: ")"%char :: post).
Proof.
  intros Qm Qp N. apply scan_few_quotes. rewrite tail_quotes by assumption. lia.
Qed.

Lemma scan_post (ci : bool) (items : regex) (post : text) :
  quote_free post = true ->
  1 <= quotes_needed items ->
  scan ci items 0 post = map Gap post.
Proof.
  intros Q N. apply scan_few_quotes. rewrite (quotes_quote_free post Q). lia.
Qed.

Lemma levels_words (level : string) :
  In level levels -> forallb is_word (str level) = true.
Proof. intros [<-|[<-|[<-|[<-|[]]]]]; reflexivity. Qed.

(** The scan of the first rule finds nothing in a call between two
    stretches without quotes. *)
Lemma normalize_scan_ctx (pre : text) (level : string) (m post : text) :
  In level levels ->
  quote_free pre = true -> quote_free m = true -> quote_free post = true ->
  scan false malformed 0 (in_context pre level m post)
  = map Gap (in_context pre level m post).
Proof.
  intros L Qpre Qm Qpost. rewrite in_context_eq.
  apply scan_gaps_app.
  - intros p1 c p2 E.
    pose proof (normalize_not_before c p2 (str "logger." ++ str level ++ ["("%char])
                  (m ++ dq :: ")"%char :: post)) as H.
    rewrite <- !app_assoc in H. apply H.
    + change (quote_free ((c :: p2) ++ str "logger." ++ str level ++ ["("%char]) = true).
      rewrite !quote_free_app, (suffix_quote_free _ _ _ _ Qpre E),
        (word_quote_free _ (levels_words _ L)). reflexivity.
    + rewrite length_app. simpl. lia.
  - destruct L as [<-|[<-|[<-|[<-|[]]]]];
      cbn [str list_ascii_of_string app];
      repeat (rewrite scan_gap by reflexivity);
      rewrite scan_tail_ctx by (assumption || (simpl; lia));
      reflexivity.
Qed.

(** A promotion rule finds nothing in a call of another level. *)
Lemma promote_scan_other (ci : bool) (body : regex) (pre : text) (level : string)
      (m post : text) :
  In level ["error"; "warning"; "info"]%string ->
  quote_free pre = true -> quote_free m = true -> quote_free post = true ->
  scan ci (debug_call body) 0 (in_context pre level m post)
  = map Gap (in_context pre level m post).
Proof.
  intros L Qpre Qm Qpost. rewrite in_context_eq.
  apply scan_gaps_app.
  - intros p1 c p2 E. apply promote_not_before.
    + simpl in L |- *. tauto.
    + exact (suffix_quote_free _ _ _ _ Qpre E).
  - destruct L as [<-|[<-|[<-|[]]]];
      cbn [str list_ascii_of_string app];
      repeat (rewrite scan_gap by (destruct ci; reflexivity));
      rewrite scan_tail_ctx by (assumption || apply debug_call_quotes);
      reflexivity.
Qed.

End ContextCalls.

Section ContextPromote.

Lemma call_app_eq (level : string) (m post : text) :
  call level m ++ post
  = str "logger." ++ str level ++ "("%char :: dq :: m ++ dq :: ")"%char :: post.
Proof.
  unfold call. rewrite <- !app_assoc. cbn [app]. rewrite <- !app_assoc. reflexivity.
Qed.

Lemma expand_call_match (level : string) (head m : text) :
  expand (call_tpl level) (call_match head m) = call level m.
Proof.
  unfold expand, call_tpl, call_match, call. cbn [t_pre t_post].
  rewrite !group1_app, group1_out, group1_in.
  change (group1 closed) with (@nil ascii).
  rewrite app_nil_r, <- !app_assoc. reflexivity.
Qed.

Lemma whole_call_match (head m : text) :
  whole (call_match head m) = head ++ m ++ [dq; ")"%char].
Proof. unfold call_match. rewrite !whole_app, !whole_tag. reflexivity. Qed.

(** The scan of a text with one match, between stretches without match. *)
Lemma scan_one_hit (ci : bool) (items : regex) (pre w post : text) (res : tagged) :
  (forall p1 c p2, pre = p1 ++ c :: p2 ->
                   match_here ci items false (c :: p2 ++ w ++ post) = None) ->
  match_here ci items false (w ++ post) = Some res ->
  whole res = w ->
  w <> [] ->
  scan ci items 0 post = map Gap post ->
  scan ci items 0 (pre ++ w ++ post) = map Gap pre ++ Hit res :: map Gap post.
Proof.
  intros N H W Ne P.
  rewrite scan_gaps_prefix by exact N.
  rewrite (scan_hit_prefix ci items w post res H W Ne), P. reflexivity.
Qed.

Lemma render_one_hit (t : template) (pre post : text) (res : tagged) :
  flat_map (render t) (map Gap pre ++ Hit res :: map Gap post)
  = pre ++ expand t res ++ post.
Proof.
  rewrite flat_map_app, render_gaps. cbn [flat_map render].
  rewrite render_gaps. reflexivity.
Qed.

Lemma promote_here_ctx (ci : bool) (marker : string) (m post : text) :
  quote_free (str marker) = true ->
  quote_free m = true ->
  match_here ci (debug_call (mentions marker)) false (call "debug" m ++ post)
  = if mentioned ci (str marker) m
    then Some (call_match debug_head m)
    else None.
Proof.
  intros Qk Qm.
  assert (P : debug_call (mentions marker)
              = map Lit debug_head
                ++ GOpen :: Rep 0 not_dq
                  :: (map Lit (str marker) ++ Rep 0 not_dq :: closing)).
  { unfold debug_call, mentions, lits. simpl. rewrite <- app_assoc. reflexivity. }
  assert (T : call "debug" m ++ post = debug_head ++ m ++ dq :: ")"%char :: post).
  { rewrite call_app_eq. reflexivity. }
  rewrite P, T, lits_here. cbn [match_here].
  rewrite (mentions_at ci (str marker) m (")"%char :: post) 0 Qk Qm).
  assert (K : match_here ci closing true (dq :: ")"%char :: post) = Some closed)
    by (destruct ci; reflexivity).
  rewrite K. destruct (mentioned ci (str marker) m); reflexivity.
Qed.

Lemma quotes_zero (g : text) : quotes g = 0 -> quote_free g = true.
Proof.
  unfold quotes. induction g as [|a g IH]; simpl; intros H; [reflexivity|].
  destruct (ascii_dec a dq) as [->|N]; [discriminate|].
  rewrite (IH H), andb_true_r. unfold not_dq.
  apply negb_true_iff, Ascii.eqb_neq. exact N.
Qed.

Lemma promote_plain_here_ctx (ci : bool) (body : regex) (m post : text) (res : tagged) :
  plain body = true ->
  quote_free m = true ->
  quote_free post = true ->
  match_here ci (debug_call body) false (call "debug" m ++ post) = Some res ->
  res = call_match debug_head m.
Proof.
  intros P Qm Qp H.
  assert (E : debug_call body = map Lit debug_head ++ GOpen :: (body ++ closing))
    by reflexivity.
  assert (T : call "debug" m ++ post = debug_head ++ m ++ dq :: ")"%char :: post).
  { rewrite call_app_eq. reflexivity. }
  rewrite E, T, lits_here in H. cbn [match_here] in H.
  destruct (match_here ci (body ++ closing) true (m ++ dq :: ")"%char :: post))
    as [r|] eqn:M; [|discriminate].
  simpl in H. injection H as <-.
  destruct (body_group ci body P _ _ M) as (g & rest & -> & Eg).
  assert (Qg : quote_free g = true).
  { apply quotes_zero. apply (f_equal quotes) in Eg.
    rewrite (tail_quotes m post Qm Qp), quotes_app in Eg.
    change (dq :: ")"%char :: rest) with ([dq] ++ ")"%char :: rest) in Eg.
    rewrite quotes_app in Eg. change (quotes [dq]) with 1 in Eg. lia. }
  symmetry in Eg. apply first_quote_both in Eg; [|exact Qg | exact Qm].
  destruct Eg as [-> _]. reflexivity.
Qed.

End ContextPromote.

Section ContextRules2.

Lemma ctx_promote_hit (ci : bool) (body : regex) (level : string) (pre m post : text) :
  quote_free pre = true -> quote_free post = true ->
  match_here ci (debug_call body) false (call "debug" m ++ post)
  = Some (call_match debug_head m) ->
  re_sub ci (debug_call body) (call_tpl level) (in_context pre "debug" m post)
  = in_context pre level m post.
Proof.
  intros Qpre Qpost H. unfold re_sub, finditer, in_context.
  rewrite (scan_one_hit ci _ pre (call "debug" m) post (call_match debug_head m)).
  - rewrite render_one_hit, expand_call_match. reflexivity.
  - intros p1 c p2 E. rewrite call_app_eq. apply promote_not_before.
    + simpl. tauto.
    + exact (suffix_quote_free _ _ _ _ Qpre E).
  - exact H.
  - rewrite whole_call_match. reflexivity.
  - discriminate.
  - apply scan_post; [exact Qpost|]. pose proof (debug_call_quotes body). lia.
Qed.

Lemma ctx_promote_miss (ci : bool) (body : regex) (t : template) (pre m post : text) :
  quote_free pre = true -> quote_free m = true -> quote_free post = true ->
  match_here ci (debug_call body) false (call "debug" m ++ post) = None ->
  re_sub ci (debug_call body) t (in_context pre "debug" m post)
  = in_context pre "debug" m post.
Proof.
  intros Qpre Qm Qpost H. apply re_sub_gaps. rewrite in_context_eq.
  rewrite call_app_eq in H.
  apply scan_gaps_app.
  - intros p1 c p2 E. apply promote_not_before.
    + simpl. tauto.
    + exact (suffix_quote_free _ _ _ _ Qpre E).
  - cbn [str list_ascii_of_string app] in *.
    rewrite scan_gap by exact H.
    repeat (rewrite scan_gap by (destruct ci; reflexivity)).
    rewrite scan_tail_ctx by (assumption || apply debug_call_quotes).
    reflexivity.
Qed.

(** What a promotion rule with body [mentions marker] does to a debug call
    between two stretches without quotes. *)
Lemma ctx_promote_mentions (ci : bool) (marker level : string) (pre m post : text) :
  quote_free (str marker) = true ->
  quote_free pre = true -> quote_free m = true -> quote_free post = true ->
  re_sub ci (debug_call (mentions marker)) (call_tpl level) (in_context pre "debug" m post)
  = in_context pre (if mentioned ci (str marker) m then level else "debug") m post.
Proof.
  intros Qk Qpre Qm Qpost.
  pose proof (promote_here_ctx ci marker m post Qk Qm) as H.
  destruct (mentioned ci (str marker) m).
  - apply ctx_promote_hit; assumption.
  - apply ctx_promote_miss; assumption.
Qed.

Lemma ctx_promote_other (ci : bool) (body : regex) (t : template) (pre : text)
      (level : string) (m post : text) :
  In level ["error"; "warning"; "info"]%string ->
  quote_free pre = true -> quote_free m = true -> quote_free post = true ->
  re_sub ci (debug_call body) t (in_context pre level m post)
  = in_context pre level m post.
Proof. intros. apply re_sub_gaps, promote_scan_other; assumption. Qed.

Lemma ctx_normalize (t : template) (pre : text) (level : string) (m post : text) :
  In level levels ->
  quote_free pre = true -> quote_free m = true -> quote_free post = true ->
  re_sub false malformed t (in_context pre level m post) = in_context pre level m post.
Proof. intros. apply re_sub_gaps, normalize_scan_ctx; assumption. Qed.

Lemma ctx_not_malformed (pre : text) (level : string) (m post : text) :
  In level levels ->
  quote_free pre = true -> quote_free m = true -> quote_free post = true ->
  count_matches false malformed (in_context pre level m post) = 0.
Proof.
  intros. unfold count_matches, finditer. rewrite normalize_scan_ctx by assumption.
  generalize (in_context pre level m post) as s.
  induction s; simpl; auto.
Qed.

Lemma ctx_promote_keeps (ci : bool) (body : regex) (target level : string)
      (pre m post : text) :
  plain body = true ->
  In target levels ->
  In level levels ->
  quote_free pre = true -> quote_free m = true -> quote_free post = true ->
  exists level', In level' levels
    /\ apply_rule (in_context pre level m post) (promote ci body target)
       = in_context pre level' m post.
Proof.
  intros P Lt L Qpre Qm Qpost. unfold apply_rule, promote. cbn [r_ci r_pat r_tpl].
  destruct L as [<-|L].
  - destruct (match_here ci (debug_call body) false (call "debug" m ++ post))
      as [res|] eqn:H.
    + rewrite (promote_plain_here_ctx ci body m post res P Qm Qpost H) in H.
      exists target. split; [exact Lt | apply ctx_promote_hit; assumption].
    + exists "debug"%string. split; [simpl; tauto | apply ctx_promote_miss; assumption].
  - exists level. split; [simpl; tauto | apply ctx_promote_other; assumption].
Qed.

Lemma ctx_promotes_keep (rs : list rule) (pre post : text) :
  Forall (fun r => exists ci body target,
            r = promote ci body target /\ plain body = true /\ In target levels) rs ->
  quote_free pre = true -> quote_free post = true ->
  forall level m, In level levels -> quote_free m = true ->
  exists level', In level' levels
    /\ fold_left apply_rule rs (in_context pre level m post) = in_context pre level' m post.
Proof.
  intros F Qpre Qpost.
  induction F as [|r rs (ci & body & target & -> & P & Lt) _ IH]; intros level m L Q.
  - exists level. auto.
  - destruct (ctx_promote_keeps ci body target level pre m post P Lt L Qpre Q Qpost)
      as (l1 & L1 & E1).
    simpl. rewrite E1. apply IH; assumption.
Qed.

End ContextRules2.

Section ContextRules3.

Lemma malformed_app_eq (m post : text) :
  malformed_call m ++ post
  = (str "logger." ++ [dq]) ++ m ++ dq :: ")"%char :: post.
Proof.
  unfold malformed_call. rewrite <- !app_assoc. cbn [app].
  rewrite <- !app_assoc. reflexivity.
Qed.

(** The first rule on a malformed call between two stretches without
    quotes. *)
Lemma ctx_normalize_malformed (pre m post : text) :
  quote_free pre = true -> quote_free m = true -> quote_free post = true ->
  m <> [] ->
  apply_rule (pre ++ malformed_call m ++ post) normalize = in_context pre "debug" m post.
Proof.
  intros Qpre Qm Qpost Ne. unfold apply_rule, normalize. cbn [r_ci r_pat r_tpl].
  unfold re_sub, finditer, in_context.
  rewrite (scan_one_hit false _ pre (malformed_call m) post
             (call_match (str "logger." ++ [dq]) m)).
  - rewrite render_one_hit, expand_call_match. reflexivity.
  - intros p1 c p2 E. rewrite malformed_app_eq.
    pose proof (normalize_not_before c p2 (str "logger.") (m ++ dq :: ")"%char :: post))
      as H.
    rewrite <- app_assoc. apply H.
    + change (quote_free ((c :: p2) ++ str "logger.") = true).
      rewrite quote_free_app, (suffix_quote_free _ _ _ _ Qpre E). reflexivity.
    + simpl. lia.
  - rewrite malformed_app_eq.
    change malformed
      with (map Lit (str "logger." ++ [dq]) ++ GOpen :: Rep 1 not_dq :: closing).
    rewrite lits_here. cbn [match_here].
    rewrite (rep_to_quote 1 0 _ m (")"%char :: post) closed);
      [reflexivity | exact Qm | | reflexivity].
    destruct m; [contradiction | simpl; lia].
  - rewrite whole_call_match. reflexivity.
  - discriminate.
  - apply scan_post; [exact Qpost | simpl; lia].
Qed.

(** What the prefix rule does to a call between two stretches without
    quotes. *)
Lemma ctx_strip (prefix level : string) (pre m post : text) :
  In level levels ->
  quote_free (str prefix) = true ->
  (forall y, starts_with (str prefix) (")"%char :: y) = false) ->
  quote_free pre = true -> quote_free m = true -> quote_free post = true ->
  re_sub false (prefixed prefix) strip_tpl (in_context pre level m post)
  = in_context pre level (strip_prefix (str prefix) m) post.
Proof.
  intros L Qp N Qpre Qm Qpost.
  pose proof (word_here level (map Lit (str prefix)) (m ++ dq :: ")"%char :: post) L) as H.
  rewrite lits_exact, starts_with_msg in H by exact Qp.
  change (GOpen :: lits "logger." ++ Rep 1 is_word :: Lit "("%char :: GClose
            :: Lit dq :: map Lit (str prefix))
    with (prefixed prefix) in H.
  assert (B : forall p1 c p2 tail, pre = p1 ++ c :: p2 ->
                match_here false (prefixed prefix) false
                  (c :: p2 ++ str "logger." ++ str level ++ "("%char :: dq :: tail) = None).
  { intros p1 c p2 tail E. apply strip_not_before.
    - apply levels_words. exact L.
    - exact (suffix_quote_free _ _ _ _ Qpre E). }
  unfold strip_prefix.
  destruct (starts_with (str prefix) m) eqn:S.
  - pose proof (starts_with_split _ _ S) as Em.
    set (m' := skipn (length (str prefix)) m) in *.
    assert (Qm' : quote_free m' = true).
    { rewrite Em, quote_free_app in Qm. apply andb_true_iff in Qm. tauto. }
    set (w := str "logger." ++ str level ++ ["("%char; dq] ++ str prefix).
    set (res := map (pair true) (str "logger." ++ str level ++ ["("%char])
                ++ [(false, dq)] ++ map (pair false) (str prefix)).
    assert (T : str "logger." ++ str level ++ "("%char :: dq :: m ++ dq :: ")"%char :: post
                = w ++ m' ++ dq :: ")"%char :: post).
    { unfold w. rewrite Em at 1. rewrite <- !app_assoc. reflexivity. }
    rewrite T in H.
    unfold re_sub, finditer. rewrite !in_context_eq, T.
    rewrite (scan_one_hit false _ pre w (m' ++ dq :: ")"%char :: post) res).
    + rewrite render_one_hit. unfold expand, strip_tpl, res. cbn [t_pre t_post].
      rewrite !group1_app, group1_in, group1_out.
      change (group1 [(false, dq)]) with (@nil ascii).
      cbn [app]. rewrite <- !app_assoc. reflexivity.
    + intros p1 c p2 E. rewrite <- T. apply (B p1 c p2 _ E).
    + rewrite H. cbn [option_map]. unfold res. rewrite <- app_assoc. reflexivity.
    + unfold res, w. rewrite !whole_app, !whole_tag. cbn [whole map snd].
      rewrite <- !app_assoc. reflexivity.
    + unfold w. discriminate.
    + apply strip_tail_ctx; assumption.
  - cbn [option_map] in H. apply re_sub_gaps. rewrite in_context_eq.
    apply scan_gaps_app.
    + intros p1 c p2 E. apply (B p1 c p2 _ E).
    + destruct L as [<-|[<-|[<-|[<-|[]]]]];
        cbn [str list_ascii_of_string app] in *;
        rewrite scan_gap by exact H;
        repeat (rewrite scan_gap by reflexivity);
        rewrite strip_tail_ctx by assumption;
        reflexivity.
Qed.

End ContextRules3.

Section ContextPass.

(** A script of the shape of the two log scripts (the first rule, promotion
    rules with plain bodies, the prefix rule) turns a malformed call with a
    message, between two stretches without quotes, into a well-formed
    call. *)
Lemma ctx_pass_keeps (promotes : list rule) (prefix : string) (pre m post : text) :
  Forall (fun r => exists ci body target,
            r = promote ci body target /\ plain body = true /\ In target levels)
         promotes ->
  quote_free (str prefix) = true ->
  (forall y, starts_with (str prefix) (")"%char :: y) = false) ->
  quote_free pre = true -> quote_free m = true -> quote_free post = true ->
  m <> [] ->
  exists level, In level levels
    /\ apply_rules (normalize :: promotes ++ [strip prefix]) (pre ++ malformed_call m ++ post)
       = in_context pre level (strip_prefix (str prefix) m) post.
Proof.
  intros F Qp N Qpre Qm Qpost Ne. unfold apply_rules. cbn [fold_left].
  rewrite (ctx_normalize_malformed pre m post Qpre Qm Qpost Ne), fold_left_app.
  destruct (ctx_promotes_keep promotes pre post F Qpre Qpost "debug" m) as (level & L & E);
    [simpl; tauto | exact Qm |].
  rewrite E. exists level. split; [exact L|].
  cbn [fold_left]. unfold apply_rule, strip. cbn [r_ci r_pat r_tpl].
  apply ctx_strip; assumption.
Qed.

End ContextPass.

Ltac other_levels :=
  repeat (rewrite ctx_promote_other by (assumption || (simpl; tauto))).







(** * Identifier counts of the manifest scripts *)

Section LineEnds.

(** A match of a pattern that ends with a literal line feed ends with a
    line feed. *)
Lemma ends_with_nl_match (items : regex) :
  ends_with_nl items = true ->
  forall ing s m, match_here false items ing s = Some m ->
    exists w, whole m = w ++ [nl].
Proof.
  induction items as [|i r IH]; intros E ing s m H; [discriminate|].
  destruct i as [c|min p| |].
  - cbn [match_here] in H. destruct s as [|a s]; [discriminate|].
    unfold ceq in H. destruct (Ascii.eqb c a) eqn:A; [|discriminate].
    apply Ascii.eqb_eq in A. subst a.
    destruct (match_here false r ing s) as [m'|] eqn:M; [|discriminate].
    injection H as <-.
    assert (D : (r = [GClose] /\ Ascii.eqb c nl = true) \/ ends_with_nl r = true).
    { simpl in E. destruct r as [|[| | |] [|j r']]; auto. }
    destruct D as [[-> C]|D].
    + apply Ascii.eqb_eq in C. subst c. simpl in M. injection M as <-.
      exists []. reflexivity.
    + destruct (IH D _ _ _ M) as [w W]. exists (c :: w). simpl. rewrite W. reflexivity.
  - assert (D : ends_with_nl r = true) by (simpl in E; destruct r; exact E).
    cbn [match_here] in H. apply rep_inv in H.
    destruct H as (w & s' & res' & _ & _ & _ & K & ->).
    destruct (IH D _ _ _ K) as [w' W]. exists (w ++ w').
    rewrite whole_app, whole_tag, W, app_assoc. reflexivity.
  - assert (D : ends_with_nl r = true) by (simpl in E; destruct r; exact E).
    cbn [match_here] in H. eapply IH; eauto.
  - assert (D : ends_with_nl r = true) by (simpl in E; destruct r; exact E).
    cbn [match_here] in H. eapply IH; eauto.
Qed.

Lemma starts_with_line (p w z : text) :
  newline_free p = true ->
  starts_with p (w ++ nl :: z) = starts_with p w.
Proof.
  revert w. induction p as [|c p IH]; intros w Q; [reflexivity|].
  simpl in Q. apply andb_true_iff in Q. destruct Q as [Qc Qp].
  destruct w as [|a w]; simpl.
  - apply negb_true_iff in Qc. rewrite Qc. reflexivity.
  - rewrite IH by exact Qp. reflexivity.
Qed.

Lemma occurrences_nil (p : text) : p <> [] -> occurrences p [] = 0.
Proof. destruct p; [contradiction | reflexivity]. Qed.

(** Occurrences of a text without line feed are counted line by line. *)
Lemma occurrences_line (p u y : text) :
  newline_free p = true -> p <> [] ->
  occurrences p ((u ++ [nl]) ++ y) = occurrences p (u ++ [nl]) + occurrences p y.
Proof.
  intros Q N. induction u as [|a u IH].
  - cbn [app occurrences].
    change (nl :: y) with ([] ++ nl :: y). change [nl] with ([] ++ nl :: []).
    rewrite !starts_with_line by exact Q.
    destruct p; [contradiction|]. simpl. reflexivity.
  - cbn [app occurrences]. rewrite IH.
    replace (a :: (u ++ [nl]) ++ y) with ((a :: u) ++ nl :: y)
      by (simpl; rewrite <- app_assoc; reflexivity).
    change (a :: u ++ [nl]) with ((a :: u) ++ nl :: []).
    rewrite !starts_with_line by exact Q. lia.
Qed.

End LineEnds.

Section Accounting.

Lemma hits_Forall (P : tagged -> Prop) (l : list seg) :
  (forall l1 m l2, l = l1 ++ Hit m :: l2 -> P m) ->
  Forall (fun x => match x with Hit m => P m | Gap _ => True end) l.
Proof.
  induction l as [|x l IH]; intros H; constructor.
  - destruct x as [c|m]; [exact I | apply (H [] m l eq_refl)].
  - apply IH. intros l1 m l2 E. apply (H (x :: l1) m l2). rewrite E. reflexivity.
Qed.

Lemma occurrences_segments (p a : text) (l : list seg) :
  newline_free p = true -> p <> [] ->
  Forall (fun x => match x with
                   | Hit m => exists w, whole m = w ++ [nl]
                   | Gap _ => True
                   end) l ->
  forall left,
    occurrences p (left ++ flat_map (with_addition (a ++ [nl])) l)
    = occurrences p (left ++ flat_map original l)
      + length (filter is_hit l) * occurrences p (a ++ [nl]).
Proof.
  intros Q N F. induction F as [|x l Hx _ IH]; intros left.
  - simpl. lia.
  - destruct x as [c|m].
    + change (occurrences p (left ++ c :: flat_map (with_addition (a ++ [nl])) l)
              = occurrences p (left ++ c :: flat_map original l)
                + length (filter is_hit l) * occurrences p (a ++ [nl])).
      replace (left ++ c :: flat_map (with_addition (a ++ [nl])) l)
        with ((left ++ [c]) ++ flat_map (with_addition (a ++ [nl])) l)
        by (rewrite <- app_assoc; reflexivity).
      replace (left ++ c :: flat_map original l)
        with ((left ++ [c]) ++ flat_map original l)
        by (rewrite <- app_assoc; reflexivity).
      apply IH.
    + destruct Hx as [w W].
      change (occurrences p (left ++ (whole m ++ a ++ [nl])
                                  ++ flat_map (with_addition (a ++ [nl])) l)
              = occurrences p (left ++ whole m ++ flat_map original l)
                + S (length (filter is_hit l)) * occurrences p (a ++ [nl])).
      rewrite W.
      replace (left ++ ((w ++ [nl]) ++ a ++ [nl]) ++ flat_map (with_addition (a ++ [nl])) l)
        with (((left ++ w) ++ [nl])
              ++ ((a ++ [nl]) ++ flat_map (with_addition (a ++ [nl])) l))
        by (rewrite <- !app_assoc; reflexivity).
      replace (left ++ (w ++ [nl]) ++ flat_map original l)
        with (((left ++ w) ++ [nl]) ++ flat_map original l)
        by (rewrite <- !app_assoc; reflexivity).
      rewrite !occurrences_line by assumption.
      pose proof (IH []) as E. cbn [app] in E. rewrite E. simpl. lia.
Qed.

(** How often a text without line feed occurs after a section insertion:
    as often as before, and once more per match for each occurrence in the
    record. *)
Lemma insert_after_occurrences (pattern : regex) (a s p : text) :
  is_anchor pattern = true ->
  ends_with_nl pattern = true ->
  newline_free p = true -> p <> [] ->
  occurrences p (insert_after pattern (a ++ [nl]) s)
  = occurrences p s + count_matches false pattern s * occurrences p (a ++ [nl]).
Proof.
  intros A E Q N. rewrite insert_after_segments by exact A.
  unfold count_matches.
  rewrite <- (finditer_original false pattern s) at 2.
  apply (occurrences_segments p a _ Q N) with (left := []).
  apply hits_Forall. intros l1 m l2 H. apply scan_hit in H.
  eapply ends_with_nl_match; eauto.
Qed.

End Accounting.

Section Identifiers.

Lemma insert_after_count (pattern : regex) (addition s p : text) :
  is_anchor pattern = true ->
  ends_with_nl pattern = true ->
  addition = removelast addition ++ [nl] ->
  newline_free p = true -> p <> [] ->
  occurrences p (insert_after pattern addition s)
  = occurrences p s + count_matches false pattern s * occurrences p addition.
Proof.
  intros A E -> Q N. apply insert_after_occurrences; assumption.
Qed.

End Identifiers.

Ltac count_stage :=
  rewrite insert_after_count by (reflexivity || discriminate).

(** X1.  After the four substitutions of [add_chinese_processing.py], the
    primary identifier occurs as often as in the buffer read, and once more
    for every match of the build-registration anchor, of the file-reference
    anchor and of the group anchor; the build identifier occurs as often as
    before, and once more for every match of the build-registration anchor
    and of the build-phase anchor.  Nothing else adds or removes an
    occurrence. *)
Theorem chinese_identifier_count (content : text) :
  occurrences (str AddChinese.file_ref_id) (AddChinese.stage4 content)
  = occurrences (str AddChinese.file_ref_id) content
    + count_matches false AddChinese.build_file_pattern content
    + count_matches false AddChinese.file_ref_pattern (AddChinese.stage1 content)
    + count_matches false AddChinese.services_pattern (AddChinese.stage2 content)
  /\ occurrences (str AddChinese.build_file_id) (AddChinese.stage4 content)
     = occurrences (str AddChinese.build_file_id) content
       + count_matches false AddChinese.build_file_pattern content
       + count_matches false AddChinese.build_phase_pattern (AddChinese.stage3 content).
Proof.
  unfold AddChinese.stage4, AddChinese.stage3, AddChinese.stage2, AddChinese.stage1.
  split; repeat count_stage;
    fold (AddChinese.stage1 content); fold (AddChinese.stage2 content);
    fold (AddChinese.stage3 content);
    repeat match goal with
           | |- context [occurrences ?p ?a] =>
               is_ground a; let v := eval vm_compute in (occurrences p a) in
               change (occurrences p a) with v
           end;
    lia.
Qed.

(** * The runs of [add_pinyin_openai.py] *)

Ltac known_counts :=
  repeat match goal with
         | |- context [occurrences ?p ?a] =>
             is_ground a; let v := eval vm_compute in (occurrences p a) in
             change (occurrences p a) with v
         end.

(** X2.  After the six substitutions of [add_pinyin_openai.py], each of the
    three identifiers occurs as often as in the buffer read, and once more
    for every match of each anchor whose record holds it: the primary
    identifier for the two build-registration anchors, the file-reference
    anchor and the group anchor; each build identifier for its
    build-registration anchor and its build-phase anchor. *)
Theorem pinyin_identifier_count (content : text) :
  AddPinyin.pipeline content = PinyinStages.stage6 content
  /\ occurrences (str AddPinyin.file_ref_id) (AddPinyin.pipeline content)
     = occurrences (str AddPinyin.file_ref_id) content
       + count_matches false AddPinyin.build_file_pattern content
       + count_matches false AddPinyin.share_ext_pattern (PinyinStages.stage1 content)
       + count_matches false AddPinyin.file_ref_pattern (PinyinStages.stage2 content)
       + count_matches false AddPinyin.services_pattern (PinyinStages.stage3 content)
  /\ occurrences (str AddPinyin.build_file_id) (AddPinyin.pipeline content)
     = occurrences (str AddPinyin.build_file_id) content
       + count_matches false AddPinyin.build_file_pattern content
       + count_matches false AddPinyin.build_phase_pattern (PinyinStages.stage4 content)
  /\ occurrences (str AddPinyin.build_file_id2) (AddPinyin.pipeline content)
     = occurrences (str AddPinyin.build_file_id2) content
       + count_matches false AddPinyin.share_ext_pattern (PinyinStages.stage1 content)
       + count_matches false AddPinyin.share_build_pattern (PinyinStages.stage5 content).
Proof.
  split; [reflexivity|].
  change (AddPinyin.pipeline content) with (PinyinStages.stage6 content).
  unfold PinyinStages.stage6, PinyinStages.stage5, PinyinStages.stage4,
    PinyinStages.stage3, PinyinStages.stage2, PinyinStages.stage1.
  repeat split; repeat count_stage;
    fold (PinyinStages.stage1 content); fold (PinyinStages.stage2 content);
    fold (PinyinStages.stage3 content); fold (PinyinStages.stage4 content);
    fold (PinyinStages.stage5 content);
    known_counts; lia.
Qed.

Section PinyinRun.

Lemma pinyin_run_eq (content : text) :
  AddPinyin.run content
  = if contains (str AddPinyin.display_name) content
    then {| stdout := AddPinyin.msg_present; status := 0; written := None |}
    else {| stdout := AddPinyin.msg_added; status := 0;
            written := Some (PinyinStages.stage6 content) |}.
Proof. reflexivity. Qed.

(** When the display name is not in the buffer after the six substitutions,
    none of them found its anchor and the buffer is the one read. *)
Lemma pinyin_absent (content : text) :
  contains (str AddPinyin.display_name) (PinyinStages.stage6 content) = false ->
  PinyinStages.stage6 content = content
  /\ count_matches false AddPinyin.build_file_pattern content = 0
  /\ count_matches false AddPinyin.share_ext_pattern content = 0
  /\ count_matches false AddPinyin.file_ref_pattern content = 0
  /\ count_matches false AddPinyin.services_pattern content = 0
  /\ count_matches false AddPinyin.build_phase_pattern content = 0
  /\ count_matches false AddPinyin.share_build_pattern content = 0.
Proof.
  set (name := str AddPinyin.display_name). intros H6.
  destruct (insert_after_absent AddPinyin.share_build_pattern
              AddPinyin.share_build_addition (PinyinStages.stage5 content) name
              eq_refl eq_refl H6) as [C6 E6].
  fold (PinyinStages.stage6 content) in E6. rewrite E6 in H6.
  destruct (insert_after_absent AddPinyin.build_phase_pattern
              AddPinyin.build_phase_addition (PinyinStages.stage4 content) name
              eq_refl eq_refl H6) as [C5 E5].
  fold (PinyinStages.stage5 content) in E5. rewrite E5 in H6.
  destruct (insert_after_absent AddPinyin.services_pattern
              AddPinyin.services_addition (PinyinStages.stage3 content) name
              eq_refl eq_refl H6) as [C4 E4].
  fold (PinyinStages.stage4 content) in E4. rewrite E4 in H6.
  destruct (insert_after_absent AddPinyin.file_ref_pattern
              AddPinyin.file_ref_addition (PinyinStages.stage2 content) name
              eq_refl eq_refl H6) as [C3 E3].
  fold (PinyinStages.stage3 content) in E3. rewrite E3 in H6.
  destruct (insert_after_absent AddPinyin.share_ext_pattern
              AddPinyin.share_ext_addition (PinyinStages.stage1 content) name
              eq_refl eq_refl H6) as [C2 E2].
  fold (PinyinStages.stage2 content) in E2. rewrite E2 in H6.
  destruct (insert_after_absent AddPinyin.build_file_pattern
              AddPinyin.build_file_addition content name
              eq_refl eq_refl H6) as [C1 E1].
  fold (PinyinStages.stage1 content) in E1.
  rewrite E5, E4, E3, E2, E1 in C6. rewrite E4, E3, E2, E1 in C5.
  rewrite E3, E2, E1 in C4. rewrite E2, E1 in C3. rewrite E1 in C2.
  repeat split; try assumption. congruence.
Qed.

End PinyinRun.

(** X3.  Running [add_pinyin_openai.py] twice in a row leaves the file as
    one run leaves it, whatever the buffer: a first run that inserted
    something put the display name into the file, so the second run stops
    at the presence check; a first run that inserted nothing wrote the
    buffer it had read. *)
Theorem pinyin_run_twice_same_file (content : text) :
  file_after (file_after content (AddPinyin.run content))
             (AddPinyin.run (file_after content (AddPinyin.run content)))
  = file_after content (AddPinyin.run content).
Proof.
  set (name := str AddPinyin.display_name).
  rewrite (pinyin_run_eq content). fold name.
  destruct (contains name content) eqn:Hc; unfold file_after at 2 3; cbn [written].
  - rewrite pinyin_run_eq. fold name. rewrite Hc. reflexivity.
  - rewrite pinyin_run_eq. fold name.
    destruct (contains name (PinyinStages.stage6 content)) eqn:H6;
      unfold file_after; cbn [written]; [reflexivity|].
    destruct (pinyin_absent content H6) as [E _]. rewrite !E. reflexivity.
Qed.

(** X4.  A run of [add_pinyin_openai.py] that adds the entity only inserts:
    the buffer it writes is the buffer read with, at each of the six steps,
    one copy of that step's record put in for every match of that step's
    anchor, and nothing else changed. *)
Theorem pinyin_run_only_inserts (content : text) :
  contains (str AddPinyin.display_name) content = false ->
  written (AddPinyin.run content) = Some (PinyinStages.stage6 content)
  /\ inserted AddPinyin.build_file_addition
       (count_matches false AddPinyin.build_file_pattern content)
       content (PinyinStages.stage1 content)
  /\ inserted AddPinyin.share_ext_addition
       (count_matches false AddPinyin.share_ext_pattern (PinyinStages.stage1 content))
       (PinyinStages.stage1 content) (PinyinStages.stage2 content)
  /\ inserted AddPinyin.file_ref_addition
       (count_matches false AddPinyin.file_ref_pattern (PinyinStages.stage2 content))
       (PinyinStages.stage2 content) (PinyinStages.stage3 content)
  /\ inserted AddPinyin.services_addition
       (count_matches false AddPinyin.services_pattern (PinyinStages.stage3 content))
       (PinyinStages.stage3 content) (PinyinStages.stage4 content)
  /\ inserted AddPinyin.build_phase_addition
       (count_matches false AddPinyin.build_phase_pattern (PinyinStages.stage4 content))
       (PinyinStages.stage4 content) (PinyinStages.stage5 content)
  /\ inserted AddPinyin.share_build_addition
       (count_matches false AddPinyin.share_build_pattern (PinyinStages.stage5 content))
       (PinyinStages.stage5 content) (PinyinStages.stage6 content).
Proof.
  intros Hname. rewrite pinyin_run_eq, Hname.
  split; [reflexivity|].
  repeat split; apply insert_after_inserted; reflexivity.
Qed.

Lemma pinyin_run_only_inserts_witness :
  written (AddPinyin.run Samples.pinyin_manifest)
  = Some (PinyinStages.stage6 Samples.pinyin_manifest)
  /\ inserted AddPinyin.build_file_addition
       (count_matches false AddPinyin.build_file_pattern Samples.pinyin_manifest)
       Samples.pinyin_manifest (PinyinStages.stage1 Samples.pinyin_manifest).
Proof.
  destruct (pinyin_run_only_inserts Samples.pinyin_manifest) as (H1 & H2 & _).
  - vm_compute. reflexivity.
  - split; [exact H1 | exact H2].
Defined.

Section AnchorShape.

(** A greedy class followed by a pattern that cannot start inside the
    class: the class runs to the first character outside it. *)
Lemma rep_until (p : ascii -> bool) (min : nat) (k : text -> option tagged)
      (ing : bool) (x : text) (c0 : ascii) (z : text) :
  (forall c s, p c = true -> k (c :: s) = None) ->
  forallb p x = true ->
  p c0 = false ->
  forall n,
    rep p min k ing n (x ++ c0 :: z)
    = if min <=? n + length x
      then option_map (app (map (pair ing) x)) (k (c0 :: z))
      else None.
Proof.
  intros Hk. induction x as [|a x IH]; intros Px P0 n.
  - cbn [app rep length map]. rewrite P0, Nat.add_0_r.
    destruct (min <=? n); [|reflexivity].
    destruct (k (c0 :: z)); reflexivity.
  - simpl in Px. apply andb_true_iff in Px. destruct Px as [Pa Px].
    cbn [app rep length map]. rewrite Pa, (IH Px P0 (S n)).
    replace (n + S (length x)) with (S n + length x) by lia.
    destruct (min <=? S n + length x).
    + destruct (k (c0 :: z)); cbn [option_map]; [reflexivity|].
      rewrite (Hk a _ Pa). destruct (min <=? n); reflexivity.
    + rewrite (Hk a _ Pa). destruct (min <=? n); reflexivity.
Qed.

Lemma record_end_here (rest : text) :
  match_here false (lits "};" ++ [Lit nl; GClose]) true ("}"%char :: rest)
  = if starts_with [";"%char; nl] rest
    then Some (map (pair true) ["}"%char; ";"%char; nl])
    else None.
Proof.
  cbn [lits str list_ascii_of_string map app match_here]. unfold ceq.
  rewrite Ascii.eqb_refl.
  destruct rest as [|a [|b rest]]; cbn [starts_with].
  - reflexivity.
  - destruct (Ascii.eqb ";"%char a); reflexivity.
  - destruct (Ascii.eqb ";"%char a) eqn:A; [|reflexivity].
    apply Ascii.eqb_eq in A. subst a.
    destruct (Ascii.eqb nl b) eqn:B; [|reflexivity].
    apply Ascii.eqb_eq in B. subst b. reflexivity.
Qed.

Lemma record_end_other (c : ascii) (s : text) :
  not_rbrace c = true ->
  match_here false (lits "};" ++ [Lit nl; GClose]) true (c :: s) = None.
Proof.
  intros H. cbn [lits str list_ascii_of_string map app match_here]. unfold ceq.
  unfold not_rbrace in H. apply negb_true_iff in H.
  rewrite Ascii.eqb_sym, H. reflexivity.
Qed.

End AnchorShape.

(** X5.  What the anchors of the manifest scripts match.  A record anchor
    [(prefix[^}]+};\n)] matches from its prefix to the first closing brace
    after it, provided at least one character stands between them and the
    brace is followed by a semicolon and a line feed; otherwise it has no
    match at this place.  A line anchor [(prefix\n)] matches its prefix
    followed by a line feed, and nothing else. *)
Theorem anchor_matches (prefix : string) (body rest s : text) :
  forallb not_rbrace body = true ->
  match_here false (record_anchor prefix) false (str prefix ++ body ++ "}"%char :: rest)
  = (if negb (is_empty body) && starts_with [";"%char; nl] rest
     then Some (map (pair true) (str prefix ++ body ++ ["}"%char; ";"%char; nl]))
     else None)
  /\ match_here false (line_anchor prefix) false s
     = (if starts_with (str prefix ++ [nl]) s
        then Some (map (pair true) (str prefix ++ [nl]))
        else None).
Proof.
  intros B. split.
  - change (record_anchor prefix)
      with (GOpen :: map Lit (str prefix)
              ++ Rep 1 not_rbrace :: lits "};" ++ [Lit nl; GClose]).
    cbn [match_here]. rewrite lits_here. cbn [match_here].
    rewrite (rep_until not_rbrace 1 _ true body "}"%char rest record_end_other B eq_refl).
    rewrite record_end_here.
    destruct body as [|a body]; [reflexivity|].
    cbn [length is_empty negb andb Nat.add Nat.leb].
    destruct (starts_with [";"%char; nl] rest); [|reflexivity].
    cbn [option_map]. rewrite <- !map_app. reflexivity.
  - unfold line_anchor, lits.
    replace (map Lit (str prefix) ++ [Lit nl; GClose])
      with (map Lit (str prefix ++ [nl]) ++ [GClose])
      by (rewrite map_app, <- app_assoc; reflexivity).
    cbn [match_here].
    destruct (starts_with (str prefix ++ [nl]) s) eqn:S.
    + rewrite (starts_with_split _ _ S), lits_here. cbn [match_here option_map].
      rewrite app_nil_r. reflexivity.
    + destruct (match_here false (map Lit (str prefix ++ [nl]) ++ [GClose]) true s)
        as [res|] eqn:M; [|reflexivity].
      apply lits_inv in M. destruct M as (s' & _ & -> & _).
      rewrite starts_with_self in S. discriminate.
Qed.

Lemma anchor_matches_witness :
  match_here false AddChinese.build_file_pattern false
    (str "3D9B1A211234567890123458 /* PinyinServiceOpenAI.swift in Sources */ = {"
     ++ str "isa = PBXBuildFile; " ++ "}"%char :: str ";" ++ [nl] ++ str "next")
  = Some (map (pair true)
            (str "3D9B1A211234567890123458 /* PinyinServiceOpenAI.swift in Sources */ = {"
             ++ str "isa = PBXBuildFile; " ++ ["}"%char; ";"%char; nl]))
  /\ match_here false AddChinese.services_pattern false (str "other line")
     = None.
Proof.
  destruct (anchor_matches
              "3D9B1A211234567890123458 /* PinyinServiceOpenAI.swift in Sources */ = {"
              (str "isa = PBXBuildFile; ") (str ";" ++ [nl] ++ str "next")
              (str "other line") eq_refl) as [H1 _].
  destruct (anchor_matches
              "3D9B1A201234567890123457 /* PinyinServiceOpenAI.swift */,"
              (str "isa = PBXBuildFile; ") [] (str "other line") eq_refl) as [_ H2].
  split; [exact H1 | exact H2].
Defined.

(** * Text the log scripts leave alone *)

Section Untouched.

(** Rules that need a double quote leave a text without one as it is. *)
Lemma rules_need_quote (rules : list rule) (s : text) :
  Forall (fun r => 1 <= quotes_needed (r_pat r)) rules ->
  quote_free s = true ->
  apply_rules rules s = s.
Proof.
  intros F Q. unfold apply_rules. induction F as [|r rules N _ IH]; [reflexivity|].
  cbn [fold_left]. unfold apply_rule at 2.
  rewrite re_sub_gaps; [exact IH|].
  apply scan_post; assumption.
Qed.

Lemma starts_ci_app (ci : bool) (l l' s : text) :
  starts_with_ci ci l l' = true -> starts_with_ci ci l (l' ++ s) = true.
Proof.
  revert l'. induction l as [|c l IH]; intros l' H; [reflexivity|].
  destruct l' as [|a l']; [discriminate|]. simpl in *.
  apply andb_true_iff in H. destruct H as [-> H]. simpl. apply IH. exact H.
Qed.

Lemma starts_ci_weaken (ci : bool) (l s : text) :
  starts_with_ci ci l s = true -> starts_with_ci true l s = true.
Proof.
  destruct ci; [auto|]. revert s. induction l as [|c l IH]; intros s H; [reflexivity|].
  destruct s as [|a s]; [discriminate|]. simpl in *.
  apply andb_true_iff in H. destruct H as [E H].
  apply Ascii.eqb_eq in E. subst a. rewrite Ascii.eqb_refl. simpl. apply IH. exact H.
Qed.

Lemma mentioned_suffix (ci : bool) (l p1 s : text) :
  mentioned ci l (p1 ++ s) = false -> starts_with_ci ci l s = false.
Proof.
  induction p1 as [|c p1 IH]; simpl; intros H.
  - destruct s; simpl in H; apply orb_false_iff in H; tauto.
  - apply orb_false_iff in H. tauto.
Qed.

Lemma literal_start (ci : bool) (l : text) (r : regex) (ing : bool) (s : text)
      (res : tagged) :
  match_here ci (map Lit l ++ r) ing s = Some res ->
  starts_with_ci true l s = true.
Proof.
  intros H. apply lits_inv_ci in H. destruct H as (l' & s' & _ & -> & S & _).
  apply (starts_ci_weaken ci). apply starts_ci_app. exact S.
Qed.

Lemma normalize_needs_logger : needs_logger normalize.
Proof.
  intros s res H. cbn [normalize r_ci r_pat] in H.
  exact (literal_start false (str "logger.") _ false s res H).
Qed.

Lemma promote_needs_logger (ci : bool) (body : regex) (level : string) :
  needs_logger (promote ci body level).
Proof.
  intros s res H. cbn [promote r_ci r_pat] in H.
  change (debug_call body)
    with (map Lit (str "logger.")
          ++ (lits "debug(" ++ Lit dq :: GOpen :: body ++ closing)) in H.
  exact (literal_start ci (str "logger.") _ false s res H).
Qed.

Lemma strip_needs_logger (prefix : string) : needs_logger (strip prefix).
Proof.
  intros s res H. cbn [strip r_ci r_pat] in H.
  change (prefixed prefix)
    with (GOpen :: map Lit (str "logger.")
            ++ (Rep 1 is_word :: Lit "("%char :: GClose :: Lit dq :: lits prefix)) in H.
  cbn [match_here] in H.
  exact (literal_start false (str "logger.") _ true s res H).
Qed.

Lemma rules_need_logger (rules : list rule) (s : text) :
  Forall needs_logger rules ->
  mentioned true (str "logger.") s = false ->
  apply_rules rules s = s.
Proof.
  intros F M. unfold apply_rules. induction F as [|r rules N _ IH]; [reflexivity|].
  cbn [fold_left]. unfold apply_rule at 2.
  rewrite re_sub_gaps; [exact IH|].
  rewrite <- (app_nil_r s) at 1. rewrite <- (app_nil_r s) at 2.
  apply scan_gaps_app.
  - intros p1 c p2 E. rewrite app_nil_r.
    destruct (match_here (r_ci r) (r_pat r) false (c :: p2)) as [res|] eqn:H;
      [|reflexivity].
    apply N in H. rewrite E in M. apply mentioned_suffix in M. congruence.
  - simpl. destruct (match_here (r_ci r) (r_pat r) false []) as [res|] eqn:H;
      [|reflexivity].
    apply N in H. discriminate.
Qed.

End Untouched.

Section UntouchedRules.

Lemma fix_logging_quotes :
  Forall (fun r => 1 <= quotes_needed (r_pat r)) FixLogging.rules.
Proof.
  repeat constructor;
    first [ apply prefixed_quotes
          | (cbn [promote r_pat];
             match goal with |- 1 <= quotes_needed (debug_call ?b) =>
               pose proof (debug_call_quotes b); lia end)
          | (simpl; lia) ].
Qed.

Lemma fix_app_logging_quotes :
  Forall (fun r => 1 <= quotes_needed (r_pat r)) FixAppLogging.rules.
Proof.
  repeat constructor;
    first [ apply prefixed_quotes
          | (cbn [promote r_pat];
             match goal with |- 1 <= quotes_needed (debug_call ?b) =>
               pose proof (debug_call_quotes b); lia end)
          | (simpl; lia) ].
Qed.

Lemma fix_logging_logger : Forall needs_logger FixLogging.rules.
Proof.
  repeat constructor;
    first [ apply normalize_needs_logger
          | apply promote_needs_logger
          | apply strip_needs_logger ].
Qed.

Lemma fix_app_logging_logger : Forall needs_logger FixAppLogging.rules.
Proof.
  repeat constructor;
    first [ apply normalize_needs_logger
          | apply promote_needs_logger
          | apply strip_needs_logger ].
Qed.

Lemma promotes_keep_other (rs : list rule) (pre : text) (level : string) (m post : text) :
  Forall (fun r => exists ci body target,
            r = promote ci body target /\ plain body = true /\ In target levels) rs ->
  In level ["error"; "warning"; "info"]%string ->
  quote_free pre = true -> quote_free m = true -> quote_free post = true ->
  fold_left apply_rule rs (in_context pre level m post) = in_context pre level m post.
Proof.
  intros F L Qpre Qm Qpost.
  induction F as [|r rs (ci & body & target & -> & _) _ IH]; [reflexivity|].
  cbn [fold_left]. unfold apply_rule at 2, promote. cbn [r_ci r_pat r_tpl].
  rewrite ctx_promote_other by assumption. exact IH.
Qed.

End UntouchedRules.

(** X6.  A text without a double quote is left as it is by both log
    passes: every pattern of the two scripts holds a literal double quote. *)
Theorem quote_free_text_unchanged (s : text) :
  quote_free s = true ->
  FixLogging.rewrite s = s /\ FixAppLogging.rewrite s = s.
Proof.
  intros Q. split.
  - apply rules_need_quote; [exact fix_logging_quotes | exact Q].
  - apply rules_need_quote; [exact fix_app_logging_quotes | exact Q].
Qed.

Lemma quote_free_text_unchanged_witness :
  FixLogging.rewrite (str "logger.debug(error)") = str "logger.debug(error)"
  /\ FixAppLogging.rewrite (str "logger.debug(error)") = str "logger.debug(error)".
Proof.
  apply (quote_free_text_unchanged (str "logger.debug(error)")). reflexivity.
Defined.

(** X7.  A text in which [logger.] does not occur, in any case of the
    letters, is left as it is by both log passes: every pattern of the two
    scripts starts with these characters. *)
Theorem text_without_logger_unchanged (s : text) :
  mentioned true (str "logger.") s = false ->
  FixLogging.rewrite s = s /\ FixAppLogging.rewrite s = s.
Proof.
  intros M. split.
  - apply rules_need_logger; [exact fix_logging_logger | exact M].
  - apply rules_need_logger; [exact fix_app_logging_logger | exact M].
Qed.

Lemma text_without_logger_unchanged_witness :
  FixLogging.rewrite (str "print(" ++ [dq] ++ str "TTSService: failed" ++ [dq] ++ str ")")
  = str "print(" ++ [dq] ++ str "TTSService: failed" ++ [dq] ++ str ")"
  /\ FixAppLogging.rewrite
       (str "print(" ++ [dq] ++ str "TTSService: failed" ++ [dq] ++ str ")")
     = str "print(" ++ [dq] ++ str "TTSService: failed" ++ [dq] ++ str ")".
Proof.
  apply (text_without_logger_unchanged
           (str "print(" ++ [dq] ++ str "TTSService: failed" ++ [dq] ++ str ")")).
  reflexivity.
Defined.

(** X8.  Neither log pass changes the level of a call that is not a debug
    call.  A call [logger.error], [logger.warning] or [logger.info] whose
    message has no double quote, between two stretches of text without
    double quotes, keeps its level and its message; only the prefix of the
    script ("TTSService: ", "AppState: ") is taken off the message, and the
    text around the call is as it was. *)
Theorem other_levels_keep_level (pre : text) (level : string) (m post : text) :
  In level ["error"; "warning"; "info"]%string ->
  quote_free pre = true -> quote_free m = true -> quote_free post = true ->
  FixLogging.rewrite (in_context pre level m post)
  = in_context pre level (strip_prefix (str "TTSService: ") m) post
  /\ FixAppLogging.rewrite (in_context pre level m post)
     = in_context pre level (strip_prefix (str "AppState: ") m) post.
Proof.
  intros L Qpre Qm Qpost.
  assert (L' : In level levels) by (simpl in L |- *; tauto).
  split.
  - unfold FixLogging.rewrite, apply_rules.
    change FixLogging.rules
      with (normalize :: [ promote true (mentions "error") "error";
                           promote true (mentions "failed") "error";
                           promote true (mentions "invalid") "error";
                           promote true (mentions "not configured") "warning";
                           promote true (mentions "not properly") "warning";
                           promote false (tts_mentions "generateAudio") "info";
                           promote false (tts_mentions "Received") "info";
                           promote false (tts_mentions "Audio saved") "info" ]
                      ++ [strip "TTSService: "]).
    cbn [fold_left]. unfold apply_rule at 2, normalize. cbn [r_ci r_pat r_tpl].
    rewrite ctx_normalize by assumption.
    rewrite fold_left_app, (promotes_keep_other _ _ _ _ _ fix_logging_shape) by assumption.
    cbn [fold_left]. unfold apply_rule, strip. cbn [r_ci r_pat r_tpl].
    apply ctx_strip; auto.
  - unfold FixAppLogging.rewrite, apply_rules.
    change FixAppLogging.rules
      with (normalize :: [ promote true (mentions "Error") "error";
                           promote true (mentions "Failed") "error";
                           promote true FixAppLogging.no_found "info";
                           promote false (mentions "Processing") "info";
                           promote false (mentions "Looking for") "debug";
                           promote false (mentions "Found") "info";
                           promote false (mentions "Successfully") "info";
                           promote false (mentions "loaded") "info";
                           promote false (mentions "exists") "debug";
                           promote false (mentions "Cleaned up") "info" ]
                      ++ [strip "AppState: "]).
    cbn [fold_left]. unfold apply_rule at 2, normalize. cbn [r_ci r_pat r_tpl].
    rewrite ctx_normalize by assumption.
    rewrite fold_left_app, (promotes_keep_other _ _ _ _ _ fix_app_logging_shape)
      by assumption.
    cbn [fold_left]. unfold apply_rule, strip. cbn [r_ci r_pat r_tpl].
    apply ctx_strip; auto.
Qed.

Lemma other_levels_keep_level_witness :
  FixLogging.rewrite (in_context (str "  ") "error" Samples.failed_message [nl])
  = in_context (str "  ") "error" (str "Request failed") [nl]
  /\ FixAppLogging.rewrite (in_context (str "  ") "error" Samples.failed_message [nl])
     = in_context (str "  ") "error" Samples.failed_message [nl].
Proof.
  apply (other_levels_keep_level (str "  ") "error" Samples.failed_message [nl]);
    [simpl; tauto | reflexivity ..].
Defined.

(** * The level tables of the log scripts *)

Section Classes.

Lemma rep_span_some (p : ascii -> bool) (k : text -> option tagged) (ing : bool)
      (l : text) :
  k (drop_class p l) <> None -> forall n, rep p 0 k ing n l <> None.
Proof.
  induction l as [|c l IH]; intros H n; cbn [rep drop_class Nat.leb] in *.
  - exact H.
  - destruct (p c); [|exact H].
    specialize (IH H (S n)). destruct (rep p 0 k ing (S n) l); [discriminate|].
    contradiction.
Qed.

Lemma rep_span_none (p : ascii -> bool) (k : text -> option tagged) (ing : bool)
      (l : text) :
  (forall c s, p c = true -> k (c :: s) = None) ->
  k (drop_class p l) = None -> forall n, rep p 0 k ing n l = None.
Proof.
  intros Hk. induction l as [|c l IH]; intros H n; cbn [rep drop_class Nat.leb] in *.
  - exact H.
  - destruct (p c) eqn:Pc; [|exact H].
    rewrite (IH H (S n)). apply Hk. exact Pc.
Qed.

Lemma drop_class_app (p : ascii -> bool) (a b : text) :
  drop_class p (a ++ b)
  = match drop_class p a with
    | [] => drop_class p b
    | c :: d => (c :: d) ++ b
    end.
Proof.
  induction a as [|c a IH]; cbn [app drop_class].
  - destruct (drop_class p b); reflexivity.
  - destruct (p c); [exact IH | reflexivity].
Qed.

Lemma drop_class_quote_free (p : ascii -> bool) (s : text) :
  quote_free s = true -> quote_free (drop_class p s) = true.
Proof.
  induction s as [|c s IH]; intros Q; [reflexivity|]. cbn [drop_class].
  destruct (p c); [|exact Q].
  simpl in Q. apply andb_true_iff in Q. apply IH. tauto.
Qed.

Lemma skipn_quote_free (n : nat) (s : text) :
  quote_free s = true -> quote_free (skipn n s) = true.
Proof.
  revert s. induction n as [|n IH]; intros s Q; [exact Q|].
  destruct s as [|c s]; [reflexivity|]. cbn [skipn].
  simpl in Q. apply andb_true_iff in Q. apply IH. tauto.
Qed.

Lemma starts_ci_false (l s : text) : starts_with_ci false l s = starts_with l s.
Proof.
  revert s. induction l as [|c l IH]; intros s; [reflexivity|].
  destruct s as [|a s]; [reflexivity|]. cbn [starts_with_ci starts_with].
  rewrite IH. reflexivity.
Qed.

End Classes.

Section TtsRules.

Lemma plain_lits (l : text) : plain (map Lit l) = true.
Proof. induction l as [|c l IH]; [reflexivity | exact IH]. Qed.

Lemma plain_app (a b : regex) : plain (a ++ b) = plain a && plain b.
Proof. apply forallb_app. Qed.

Lemma tts_tail_quotes (marker : string) :
  1 <= quotes_needed (map Lit (str ": " ++ str marker) ++ Rep 0 not_dq :: closing).
Proof.
  rewrite quotes_needed_app.
  change (quotes_needed (Rep 0 not_dq :: closing)) with 1. lia.
Qed.

(** Where the rules [TTS[^:]*: marker[^Q]*] match the message of a debug
    call. *)
Lemma tts_here (marker : string) (m post : text) :
  quote_free (str marker) = true ->
  quote_free m = true -> quote_free post = true ->
  match_here false (debug_call (tts_mentions marker)) false (call "debug" m ++ post)
  = if tts_form marker m then Some (call_match debug_head m) else None.
Proof.
  intros Qk Qm Qpost.
  set (tail := map Lit (str ": " ++ str marker) ++ Rep 0 not_dq :: closing).
  assert (P : debug_call (tts_mentions marker)
              = map Lit debug_head
                ++ GOpen :: (map Lit (str "TTS") ++ Rep 0 not_colon :: tail)).
  { unfold debug_call, tts_mentions, lits, tail. rewrite map_app.
    cbn [str list_ascii_of_string map app]. rewrite <- !app_assoc. reflexivity. }
  assert (T : call "debug" m ++ post = debug_head ++ m ++ dq :: ")"%char :: post).
  { rewrite call_app_eq. reflexivity. }
  assert (Qmk : quote_free (str ": " ++ str marker) = true).
  { rewrite quote_free_app, Qk. reflexivity. }
  assert (Hk : forall c s, not_colon c = true -> match_here false tail true (c :: s) = None).
  { intros c s C. unfold tail. cbn [str list_ascii_of_string map app match_here].
    unfold ceq. unfold not_colon in C. apply negb_true_iff in C.
    rewrite Ascii.eqb_sym, C. reflexivity. }
  assert (Shape : forall res,
            match_here false (debug_call (tts_mentions marker)) false
              (call "debug" m ++ post) = Some res ->
            res = call_match debug_head m).
  { intros res H. apply (promote_plain_here_ctx false (tts_mentions marker) m post res);
      [|assumption ..].
    unfold tts_mentions, lits. rewrite plain_app, plain_lits.
    change (Rep 0 not_colon :: map Lit (str ": ") ++ map Lit (str marker) ++ [Rep 0 not_dq])
      with ((Rep 0 not_colon :: map Lit (str ": ")) ++ map Lit (str marker) ++ [Rep 0 not_dq]).
    rewrite !plain_app, plain_lits. reflexivity. }
  unfold tts_form.
  destruct (starts_with (str "TTS") m) eqn:S; cbn [andb].
  2:{ destruct (match_here false (debug_call (tts_mentions marker)) false
                  (call "debug" m ++ post)) as [res|] eqn:M; [|reflexivity].
      rewrite P, T, lits_here in M. cbn [match_here] in M.
      destruct (match_here false (map Lit (str "TTS") ++ Rep 0 not_colon :: tail) true
                  (m ++ dq :: ")"%char :: post)) as [r|] eqn:M'; [|discriminate].
      apply lits_inv in M'. destruct M' as (s' & _ & E & _).
      assert (S' : starts_with (str "TTS") (m ++ dq :: ")"%char :: post) = true)
        by (rewrite E; apply starts_with_self).
      rewrite starts_with_msg in S' by reflexivity. congruence. }
  pose proof (starts_with_split _ _ S) as Em.
  change (length (str "TTS")) with 3 in Em.
  set (m3 := skipn 3 m) in *.
  assert (Q3 : quote_free m3 = true) by (apply skipn_quote_free; exact Qm).
  assert (R : match_here false (debug_call (tts_mentions marker)) false
                (call "debug" m ++ post)
              = option_map (app (map (pair false) debug_head))
                  (option_map (app (map (pair true) (str "TTS")))
                     (rep not_colon 0 (match_here false tail true) true 0
                        (m3 ++ dq :: ")"%char :: post)))).
  { rewrite P, T, lits_here. cbn [match_here]. rewrite Em at 1.
    rewrite <- app_assoc, lits_here. cbn [match_here]. reflexivity. }
  pose proof (drop_class_app not_colon m3 (dq :: ")"%char :: post)) as D.
  pose proof (drop_class_quote_free not_colon m3 Q3) as Qd.
  destruct (drop_class not_colon m3) as [|c0 d] eqn:Ed.
  - (* no colon in the message: the class runs past the closing quote *)
    cbn [starts_with app str list_ascii_of_string].
    rewrite R, (rep_span_none not_colon _ true _ Hk); [reflexivity|].
    rewrite D. change (drop_class not_colon (dq :: ")"%char :: post))
      with (drop_class not_colon post).
    destruct (match_here false tail true (drop_class not_colon post)) as [r|] eqn:K;
      [|reflexivity].
    apply match_here_quotes in K.
    pose proof (tts_tail_quotes marker) as N. fold tail in N.
    rewrite (quotes_quote_free _ (drop_class_quote_free not_colon post Qpost)) in K. lia.
  - assert (K : match_here false tail true ((c0 :: d) ++ dq :: ")"%char :: post)
                = if starts_with (str ": " ++ str marker) (c0 :: d)
                  then Some (map (pair true) (c0 :: d) ++ closed) else None).
    { unfold tail. rewrite (marker_at false _ (c0 :: d) (")"%char :: post) Qmk Qd).
      rewrite starts_ci_false.
      destruct (starts_with (str ": " ++ str marker) (c0 :: d)); reflexivity. }
    destruct (starts_with (str ": " ++ str marker) (c0 :: d)) eqn:Sd.
    + destruct (match_here false (debug_call (tts_mentions marker)) false
                  (call "debug" m ++ post)) as [res|] eqn:M.
      * rewrite (Shape res eq_refl). reflexivity.
      * exfalso. rewrite R in M.
        assert (Z : rep not_colon 0 (match_here false tail true) true 0
                      (m3 ++ dq :: ")"%char :: post) <> None).
        { apply rep_span_some. rewrite D, K. discriminate. }
        destruct (rep not_colon 0 (match_here false tail true) true 0
                    (m3 ++ dq :: ")"%char :: post)); [discriminate | contradiction].
    + rewrite R, (rep_span_none not_colon _ true _ Hk); [reflexivity|].
      rewrite D. exact K.
Qed.

End TtsRules.

Section TwoMarkers.

Variable ci : bool.

Lemma markers_at (k1 k2 x y : text) :
  quote_free k1 = true -> quote_free k2 = true ->
  quote_free x = true ->
  match_here ci (map Lit k1 ++ Rep 0 not_dq :: (map Lit k2 ++ Rep 0 not_dq :: closing))
    true (x ++ dq :: y)
  = if starts_with_ci ci k1 x && mentioned ci k2 (skipn (length k1) x)
    then option_map (app (map (pair true) x)) (match_here ci closing true (dq :: y))
    else None.
Proof.
  intros Q1 Q2. revert x. induction k1 as [|c k1 IH]; intros x Qx.
  - cbn [map app match_here starts_with_ci length skipn andb].
    apply mentions_at; assumption.
  - simpl in Q1. apply andb_true_iff in Q1. destruct Q1 as [Qc Q1].
    destruct x as [|a x]; cbn [map app match_here starts_with_ci length skipn].
    + rewrite (ceq_dq_r ci c Qc). reflexivity.
    + simpl in Qx. apply andb_true_iff in Qx. destruct Qx as [_ Qx].
      destruct (ceq ci c a); [|reflexivity]. cbn [andb].
      cbn [map app] in IH. rewrite (IH Q1 x Qx).
      destruct (starts_with_ci ci k1 x && mentioned ci k2 (skipn (length k1) x));
        [|reflexivity].
      destruct (match_here ci closing true (dq :: y)); reflexivity.
Qed.

Lemma mentions_then_at (k1 k2 x y : text) (n : nat) :
  quote_free k1 = true -> quote_free k2 = true ->
  quote_free x = true ->
  rep not_dq 0
      (match_here ci (map Lit k1 ++ Rep 0 not_dq :: (map Lit k2 ++ Rep 0 not_dq :: closing))
         true)
      true n (x ++ dq :: y)
  = if mentioned_then ci k1 k2 x
    then option_map (app (map (pair true) x)) (match_here ci closing true (dq :: y))
    else None.
Proof.
  intros Q1 Q2. revert n. induction x as [|a x IH]; intros n Qx.
  - cbn [app rep]. change (not_dq dq) with false. cbn [Nat.leb].
    change (dq :: y) with ([] ++ dq :: y) at 1.
    rewrite markers_at by auto. cbn [mentioned_then]. rewrite orb_false_r. reflexivity.
  - simpl in Qx. apply andb_true_iff in Qx. destruct Qx as [Qa Qx].
    cbn [rep app]. rewrite Qa. rewrite (IH (S n) Qx). cbn [mentioned_then Nat.leb].
    change (a :: x ++ dq :: y) with ((a :: x) ++ dq :: y).
    rewrite markers_at; [|exact Q1 | exact Q2 | simpl; rewrite Qa; exact Qx].
    destruct (mentioned_then ci k1 k2 x).
    + rewrite orb_true_r.
      destruct (match_here ci closing true (dq :: y)); [reflexivity|].
      destruct (starts_with_ci ci k1 (a :: x)
                && mentioned ci k2 (skipn (length k1) (a :: x))); reflexivity.
    + rewrite orb_false_r. reflexivity.
Qed.

End TwoMarkers.

Section AppRules.

(** Where the rule [[^Q]*No [^Q]* found[^Q]*] matches the message of a
    debug call. *)
Lemma no_found_here (ci : bool) (m post : text) :
  quote_free m = true ->
  match_here ci (debug_call FixAppLogging.no_found) false (call "debug" m ++ post)
  = if mentioned_then ci (str "No ") (str " found") m
    then Some (call_match debug_head m)
    else None.
Proof.
  intros Qm.
  assert (P : debug_call FixAppLogging.no_found
              = map Lit debug_head
                ++ GOpen :: Rep 0 not_dq
                  :: (map Lit (str "No ")
                        ++ Rep 0 not_dq :: (map Lit (str " found")
                                              ++ Rep 0 not_dq :: closing)))
    by reflexivity.
  assert (T : call "debug" m ++ post = debug_head ++ m ++ dq :: ")"%char :: post).
  { rewrite call_app_eq. reflexivity. }
  rewrite P, T, lits_here. cbn [match_here].
  rewrite (mentions_then_at ci (str "No ") (str " found") m (")"%char :: post) 0
             eq_refl eq_refl Qm).
  assert (K : match_here ci closing true (dq :: ")"%char :: post) = Some closed)
    by (destruct ci; reflexivity).
  rewrite K. destruct (mentioned_then ci (str "No ") (str " found") m); reflexivity.
Qed.

Lemma ctx_promote_no_found (ci : bool) (level : string) (pre m post : text) :
  quote_free pre = true -> quote_free m = true -> quote_free post = true ->
  re_sub ci (debug_call FixAppLogging.no_found) (call_tpl level)
    (in_context pre "debug" m post)
  = in_context pre
      (if mentioned_then ci (str "No ") (str " found") m then level else "debug") m post.
Proof.
  intros Qpre Qm Qpost.
  pose proof (no_found_here ci m post Qm) as H.
  destruct (mentioned_then ci (str "No ") (str " found") m).
  - apply ctx_promote_hit; assumption.
  - apply ctx_promote_miss; assumption.
Qed.

Lemma ctx_promote_tts (marker level : string) (pre m post : text) :
  quote_free (str marker) = true ->
  quote_free pre = true -> quote_free m = true -> quote_free post = true ->
  re_sub false (debug_call (tts_mentions marker)) (call_tpl level)
    (in_context pre "debug" m post)
  = in_context pre (if tts_form marker m then level else "debug") m post.
Proof.
  intros Qk Qpre Qm Qpost.
  pose proof (tts_here marker m post Qk Qm Qpost) as H.
  destruct (tts_form marker m).
  - apply ctx_promote_hit; assumption.
  - apply ctx_promote_miss; assumption.
Qed.

End AppRules.

Ltac mentions_rule marker :=
  rewrite (ctx_promote_mentions _ marker) by (assumption || reflexivity);
  match goal with
  | |- context [mentioned ?ci (str marker) ?m] =>
      destruct (mentioned ci (str marker) m)
  end.

Ltac tts_rule marker :=
  rewrite (ctx_promote_tts marker) by (assumption || reflexivity);
  destruct (tts_form marker _).





(** * Texts with several calls *)

Section Quoted.

Variable ci : bool.

(** A match of a quoteless body closed by [closing] runs to the first
    quote, which a closing parenthesis follows. *)
Lemma quoteless_inv (body : regex) :
  quoteless body ->
  forall s res, match_here ci (body ++ closing) true s = Some res ->
    exists g y, quote_free g = true /\ s = g ++ dq :: ")"%char :: y.
Proof.
  induction 1 as [|i body Hi _ IH]; intros s res H.
  - cbn [app] in H. apply closing_at in H. destruct H as (rest & -> & _).
    exists [], rest. split; reflexivity.
  - destruct i as [c|min p| |]; try contradiction.
    + cbn [app match_here] in H. destruct s as [|a s]; [discriminate|].
      destruct (ceq ci c a) eqn:A; [|discriminate].
      destruct (match_here ci (body ++ closing) true s) as [r|] eqn:M; [|discriminate].
      destruct (IH _ _ M) as (g & y & Qg & ->).
      exists (a :: g), y. split; [|reflexivity].
      simpl. rewrite (ceq_quote_free ci c a Hi A). exact Qg.
    + subst p. cbn [app match_here] in H. apply rep_inv in H.
      destruct H as (w & s' & res' & W & _ & -> & K & _).
      destruct (IH _ _ K) as (g & y & Qg & ->).
      exists (w ++ g), y. split.
      * rewrite quote_free_app. unfold quote_free at 1. rewrite W. exact Qg.
      * rewrite <- app_assoc. reflexivity.
Qed.

(** After the closing quote of a call, before a text that [opens], a
    quoteless body has no match. *)
Lemma quoteless_after (body : regex) (rest : text) :
  quoteless body -> opens rest ->
  match_here ci (body ++ closing) true (")"%char :: rest) = None.
Proof.
  intros Q O.
  destruct (match_here ci (body ++ closing) true (")"%char :: rest)) as [r|] eqn:M;
    [|reflexivity].
  exfalso. destruct (quoteless_inv body Q _ _ M) as (g & y & Qg & E).
  destruct g as [|a g]; [discriminate|].
  cbn [app] in E. injection E as <- E.
  simpl in Qg. pose proof (O g (")"%char :: y) Qg E) as N. discriminate N.
Qed.

(** No match of a quoted pattern starts inside a message when what follows
    the closing quote does not continue the pattern. *)
Lemma quoted_not_inside (head : text) (r : regex) (a : ascii) (p2 tail : text) :
  quote_free head = true ->
  quote_free (a :: p2) = true ->
  match_here ci r true tail = None ->
  match_here ci (quoted head r) false (a :: p2 ++ dq :: tail) = None.
Proof.
  intros Qh Q N.
  destruct (match_here ci (quoted head r) false (a :: p2 ++ dq :: tail))
    as [res|] eqn:E; [|reflexivity].
  exfalso. unfold quoted in E. apply lits_inv_ci in E.
  destruct E as (l' & s' & res' & Es & S & L & M & _).
  cbn [match_here] in M. destruct s' as [|b s']; [discriminate|].
  destruct (ceq ci dq b) eqn:B; [|discriminate]. apply ceq_dq_l in B. subst b.
  assert (X : (a :: p2) ++ dq :: tail = l' ++ dq :: s') by exact Es.
  apply first_quote_both in X;
    [|exact Q | exact (starts_ci_quote_free ci head l' Qh S L)].
  destruct X as [_ <-]. rewrite N in M. discriminate.
Qed.

End Quoted.

Section Tails.

Variable ci : bool.
Variable items : regex.

Hypothesis at_quote : forall y, match_here ci items false (dq :: y) = None.
Hypothesis at_paren : forall y, match_here ci items false (")"%char :: y) = None.

(** The end of a call holds no match when no match starts inside the
    message. *)
Lemma scan_call_end (m rest : text) :
  (forall p1 a p2, m = p1 ++ a :: p2 ->
     match_here ci items false (a :: p2 ++ dq :: ")"%char :: rest) = None) ->
  scan ci items 0 (m ++ dq :: ")"%char :: rest)
  = map Gap (m ++ [dq; ")"%char]) ++ scan ci items 0 rest.
Proof.
  intros H. rewrite scan_gaps_prefix by exact H.
  rewrite !scan_gap by (apply at_quote || apply at_paren).
  rewrite map_app, <- app_assoc. reflexivity.
Qed.

End Tails.

Section PromoteStep.

Variable ci : bool.
Variable body : regex.

Lemma promote_at_quote (y : text) :
  match_here ci (debug_call body) false (dq :: y) = None.
Proof. destruct ci; reflexivity. Qed.

Lemma promote_at_paren (y : text) :
  match_here ci (debug_call body) false (")"%char :: y) = None.
Proof. destruct ci; reflexivity. Qed.

Lemma promote_not_inside (m rest : text) :
  quote_free m = true ->
  match_here ci (body ++ closing) true (")"%char :: rest) = None ->
  forall p1 a p2, m = p1 ++ a :: p2 ->
    match_here ci (debug_call body) false (a :: p2 ++ dq :: ")"%char :: rest) = None.
Proof.
  intros Qm N p1 a p2 E.
  apply (quoted_not_inside ci (str "logger.debug(") (body ++ closing) a p2
           (")"%char :: rest) eq_refl); [|exact N].
  exact (suffix_quote_free _ _ _ _ Qm E).
Qed.

(** A call at which a promotion rule has no match is copied. *)
Lemma promote_scan_miss (level : string) (m rest : text) :
  In level levels ->
  quote_free m = true ->
  match_here ci (body ++ closing) true (")"%char :: rest) = None ->
  match_here ci (debug_call body) false (call level m ++ rest) = None ->
  scan ci (debug_call body) 0 (call level m ++ rest)
  = map Gap (call level m) ++ scan ci (debug_call body) 0 rest.
Proof.
  intros L Qm N H.
  pose proof (scan_call_end ci (debug_call body) promote_at_quote promote_at_paren
                m rest (promote_not_inside m rest Qm N)) as T.
  rewrite call_app_eq in *. unfold call.
  destruct L as [<-|[<-|[<-|[<-|[]]]]];
    cbn [str list_ascii_of_string app map] in *;
    rewrite scan_gap by exact H;
    repeat (rewrite scan_gap by (destruct ci; reflexivity));
    rewrite T; reflexivity.
Qed.

Lemma promote_other_start (level : string) (m rest : text) :
  In level ["error"; "warning"; "info"]%string ->
  match_here ci (debug_call body) false (call level m ++ rest) = None.
Proof.
  intros L. rewrite call_app_eq.
  destruct L as [<-|[<-|[<-|[]]]]; destruct ci; reflexivity.
Qed.

(** What a promotion rule does to a call and the text before it, whatever
    follows. *)
Lemma promote_step (lv : string) (fits : bool) (pre : text) (level : string)
      (m rest : text) :
  In level levels ->
  quote_free pre = true -> quote_free m = true ->
  match_here ci (body ++ closing) true (")"%char :: rest) = None ->
  match_here ci (debug_call body) false (call "debug" m ++ rest)
  = (if fits then Some (call_match debug_head m) else None) ->
  re_sub ci (debug_call body) (call_tpl lv) (pre ++ call level m ++ rest)
  = pre ++ call (if String.eqb level "debug" && fits then lv else level) m
        ++ re_sub ci (debug_call body) (call_tpl lv) rest.
Proof.
  intros L Qpre Qm N H. unfold re_sub, finditer.
  rewrite scan_gaps_prefix.
  2:{ intros p1 c p2 E. rewrite call_app_eq. apply promote_not_before; [exact L|].
      exact (suffix_quote_free _ _ _ _ Qpre E). }
  rewrite flat_map_app, render_gaps. f_equal.
  destruct (String.eqb level "debug" && fits) eqn:C.
  - apply andb_true_iff in C. destruct C as [C F].
    apply String.eqb_eq in C. subst level. rewrite F in H.
    rewrite (scan_hit_prefix ci _ (call "debug" m) rest _ H).
    + cbn [flat_map render]. rewrite expand_call_match. reflexivity.
    + rewrite whole_call_match. reflexivity.
    + discriminate.
  - rewrite promote_scan_miss, flat_map_app, render_gaps; try assumption; [reflexivity|].
    destruct L as [<-|L].
    + cbn [String.eqb Ascii.eqb Bool.eqb andb] in C. rewrite C in H. exact H.
    + apply promote_other_start. exact L.
Qed.

End PromoteStep.

Section NormalizeStep.

Lemma quoteless_class : quoteless [Rep 1 not_dq].
Proof. repeat constructor. Qed.

(** The first rule copies a well-formed call, whatever follows it, when
    the first quote after the call does not close a call. *)
Lemma normalize_step (t : template) (pre : text) (level : string) (m rest : text) :
  In level levels ->
  quote_free pre = true -> quote_free m = true ->
  opens rest ->
  re_sub false malformed t (pre ++ call level m ++ rest)
  = pre ++ call level m ++ re_sub false malformed t rest.
Proof.
  intros L Qpre Qm O. unfold re_sub, finditer.
  rewrite scan_gaps_prefix.
  2:{ intros p1 c p2 E. rewrite call_app_eq.
      pose proof (normalize_not_before c p2 (str "logger." ++ str level ++ ["("%char])
                    (m ++ dq :: ")"%char :: rest)) as H.
      rewrite <- !app_assoc in H. apply H.
      - change (quote_free ((c :: p2) ++ str "logger." ++ str level ++ ["("%char]) = true).
        rewrite !quote_free_app, (suffix_quote_free _ _ _ _ Qpre E),
          (word_quote_free _ (levels_words _ L)). reflexivity.
      - rewrite length_app. simpl. lia. }
  rewrite flat_map_app, render_gaps. f_equal.
  assert (T : scan false malformed 0 (m ++ dq :: ")"%char :: rest)
              = map Gap (m ++ [dq; ")"%char]) ++ scan false malformed 0 rest).
  { apply scan_call_end; try reflexivity.
    intros p1 a p2 E.
    apply (quoted_not_inside false (str "logger.") ([Rep 1 not_dq] ++ closing) a p2
             (")"%char :: rest) eq_refl).
    - exact (suffix_quote_free _ _ _ _ Qm E).
    - apply quoteless_after; [exact quoteless_class | exact O]. }
  assert (S : scan false malformed 0 (call level m ++ rest)
              = map Gap (call level m) ++ scan false malformed 0 rest).
  { rewrite call_app_eq. unfold call.
    destruct L as [<-|[<-|[<-|[<-|[]]]]];
      cbn [str list_ascii_of_string app map] in *;
      repeat (rewrite scan_gap by reflexivity);
      rewrite T; reflexivity. }
  rewrite S, flat_map_app, render_gaps. reflexivity.
Qed.

End NormalizeStep.

Section StripStep.

Variable prefix : string.

Hypothesis prefix_quote_free : quote_free (str prefix) = true.
Hypothesis prefix_not_paren : forall y, starts_with (str prefix) (")"%char :: y) = false.

Lemma strip_not_inside (m rest : text) :
  quote_free m = true ->
  forall p1 a p2, m = p1 ++ a :: p2 ->
    match_here false (prefixed prefix) false (a :: p2 ++ dq :: ")"%char :: rest) = None.
Proof.
  intros Qm p1 c p2 E.
  destruct (match_here false (prefixed prefix) false (c :: p2 ++ dq :: ")"%char :: rest))
    as [res|] eqn:M; [|reflexivity].
  exfalso. apply strip_match_inv in M. destruct M as (w & r & Ww & _ & M).
  assert (X : (c :: p2) ++ dq :: ")"%char :: rest
              = (str "logger." ++ w ++ ["("%char]) ++ dq :: str prefix ++ r).
  { rewrite <- !app_assoc. exact M. }
  apply first_quote_both in X.
  - destruct X as [_ X]. pose proof (prefix_not_paren rest) as N'.
    rewrite X, starts_with_self in N'. discriminate.
  - exact (suffix_quote_free _ _ _ _ Qm E).
  - rewrite !quote_free_app, (word_quote_free _ Ww). reflexivity.
Qed.

Lemma strip_call_end (m rest : text) :
  quote_free m = true ->
  scan false (prefixed prefix) 0 (m ++ dq :: ")"%char :: rest)
  = map Gap (m ++ [dq; ")"%char]) ++ scan false (prefixed prefix) 0 rest.
Proof.
  intros Qm. apply scan_call_end; try reflexivity.
  apply strip_not_inside. exact Qm.
Qed.

(** What the prefix rule does to a call and the text before it, whatever
    follows. *)
Lemma strip_step (pre : text) (level : string) (m rest : text) :
  In level levels ->
  quote_free pre = true -> quote_free m = true ->
  re_sub false (prefixed prefix) strip_tpl (pre ++ call level m ++ rest)
  = pre ++ call level (strip_prefix (str prefix) m)
        ++ re_sub false (prefixed prefix) strip_tpl rest.
Proof.
  intros L Qpre Qm.
  pose proof (word_here level (map Lit (str prefix)) (m ++ dq :: ")"%char :: rest) L) as H.
  rewrite lits_exact, starts_with_msg in H by exact prefix_quote_free.
  change (GOpen :: lits "logger." ++ Rep 1 is_word :: Lit "("%char :: GClose
            :: Lit dq :: map Lit (str prefix))
    with (prefixed prefix) in H.
  unfold re_sub, finditer.
  rewrite scan_gaps_prefix.
  2:{ intros p1 c p2 E. rewrite call_app_eq. apply strip_not_before.
      - apply levels_words. exact L.
      - exact (suffix_quote_free _ _ _ _ Qpre E). }
  rewrite flat_map_app, render_gaps. f_equal.
  rewrite call_app_eq.
  unfold strip_prefix.
  destruct (starts_with (str prefix) m) eqn:S.
  - pose proof (starts_with_split _ _ S) as Em.
    set (m' := skipn (length (str prefix)) m) in *.
    assert (Qm' : quote_free m' = true).
    { rewrite Em, quote_free_app in Qm. apply andb_true_iff in Qm. tauto. }
    set (w := str "logger." ++ str level ++ ["("%char; dq] ++ str prefix).
    set (res := map (pair true) (str "logger." ++ str level ++ ["("%char])
                ++ [(false, dq)] ++ map (pair false) (str prefix)).
    assert (T : str "logger." ++ str level ++ "("%char :: dq :: m ++ dq :: ")"%char :: rest
                = w ++ m' ++ dq :: ")"%char :: rest).
    { unfold w. rewrite Em at 1. rewrite <- !app_assoc. reflexivity. }
    rewrite T in H |- *.
    rewrite (scan_hit_prefix false _ w (m' ++ dq :: ")"%char :: rest) res).
    + cbn [flat_map render]. rewrite (strip_call_end m' rest Qm').
      rewrite flat_map_app, render_gaps.
      unfold expand, strip_tpl, res, call. cbn [t_pre t_post].
      rewrite !group1_app, group1_in, group1_out.
      change (group1 [(false, dq)]) with (@nil ascii).
      cbn [app]. repeat (rewrite <- app_assoc; cbn [app]). reflexivity.
    + rewrite H. cbn [option_map]. unfold res. rewrite <- app_assoc. reflexivity.
    + unfold res, w. rewrite !whole_app, !whole_tag. cbn [whole map snd].
      rewrite <- !app_assoc. reflexivity.
    + unfold w. discriminate.
  - cbn [option_map] in H.
    pose proof (strip_call_end m rest Qm) as T.
    unfold call.
    destruct L as [<-|[<-|[<-|[<-|[]]]]];
      cbn [str list_ascii_of_string app map] in *;
      rewrite scan_gap by exact H;
      repeat (rewrite scan_gap by reflexivity);
      rewrite T; cbn [flat_map render original app];
      rewrite flat_map_app, render_gaps, <- app_assoc; reflexivity.
Qed.

End StripStep.

Section CallTexts.

Lemma call_text_app (c : logcall) (rest : text) :
  call_text c ++ rest = c_pre c ++ call (c_level c) (c_msg c) ++ rest.
Proof. unfold call_text. rewrite <- app_assoc. reflexivity. Qed.

(** The first quote of a text of calls opens the message of the first
    call. *)
Lemma opens_calls (cs : list logcall) (post : text) :
  Forall well_formed cs -> quote_free post = true -> opens (calls_text cs post).
Proof.
  intros F Qpost x y Qx E. destruct F as [|c cs (L & Qpre & Qm & N) _].
  - cbn [calls_text] in E. rewrite E, quote_free_app in Qpost.
    apply andb_true_iff in Qpost. destruct Qpost as [_ Q]. discriminate Q.
  - cbn [calls_text] in E. rewrite call_text_app, call_app_eq in E.
    assert (X : (c_pre c ++ str "logger." ++ str (c_level c) ++ ["("%char])
                  ++ dq :: c_msg c ++ dq :: ")"%char :: calls_text cs post
                = x ++ dq :: y).
    { rewrite <- E, <- !app_assoc. reflexivity. }
    apply first_quote_both in X; [|
      rewrite !quote_free_app, Qpre, (word_quote_free _ (levels_words _ L)); reflexivity
      | exact Qx].
    destruct X as [_ <-].
    destruct (c_msg c) as [|a m]; [reflexivity | exact N].
Qed.

Variable ci : bool.
Variable items : regex.
Variable t : template.
Variable good : logcall -> Prop.
Variable f : logcall -> logcall.

Hypothesis good_well_formed : forall c, good c -> well_formed c.
Hypothesis needs_quote : 1 <= quotes_needed items.
Hypothesis step : forall c rest, good c -> opens rest ->
  re_sub ci items t (call_text c ++ rest) = call_text (f c) ++ re_sub ci items t rest.

(** A rule that rewrites each call by itself rewrites a text of calls call
    by call. *)
Lemma calls_rule (cs : list logcall) (post : text) :
  Forall good cs -> quote_free post = true ->
  re_sub ci items t (calls_text cs post) = calls_text (map f cs) post.
Proof.
  intros F Qpost. induction F as [|c cs G F IH]; cbn [calls_text map].
  - apply re_sub_gaps, scan_post; assumption.
  - rewrite step, IH; [reflexivity | exact G |].
    apply opens_calls; [|exact Qpost].
    apply Forall_impl with (2 := F). exact good_well_formed.
Qed.

End CallTexts.

Section TtsAnywhere.

Lemma drop_class_split (p : ascii -> bool) (s : text) :
  exists x, s = x ++ drop_class p s /\ forallb p x = true.
Proof.
  induction s as [|c s (x & E & P)]; [exists []; split; reflexivity|].
  cbn [drop_class]. destruct (p c) eqn:Pc.
  - exists (c :: x). split; [cbn [app]; rewrite <- E; reflexivity|].
    simpl. rewrite Pc. exact P.
  - exists []. split; reflexivity.
Qed.

Lemma drop_class_head (p : ascii -> bool) (s : text) (c0 : ascii) (d : text) :
  drop_class p s = c0 :: d -> p c0 = false.
Proof.
  induction s as [|c s IH]; [discriminate|]. cbn [drop_class].
  destruct (p c) eqn:Pc; [exact IH|]. intros E. injection E as <- _. exact Pc.
Qed.

(** Where a rule [TTS[^:]*: marker[^Q]*] matches the message of a debug
    call, whatever follows the call, when the message has a colon after
    [TTS] if it starts with it. *)
Lemma tts_here_any (marker : string) (m rest : text) :
  quote_free (str marker) = true ->
  quote_free m = true ->
  tts_open m = false ->
  match_here false (debug_call (tts_mentions marker)) false (call "debug" m ++ rest)
  = if tts_form marker m then Some (call_match debug_head m) else None.
Proof.
  intros Qk Qm Op.
  set (tail := map Lit (str ": " ++ str marker) ++ Rep 0 not_dq :: closing).
  assert (P : debug_call (tts_mentions marker)
              = map Lit debug_head
                ++ GOpen :: (map Lit (str "TTS") ++ Rep 0 not_colon :: tail)).
  { unfold debug_call, tts_mentions, lits, tail. rewrite map_app.
    cbn [str list_ascii_of_string map app]. rewrite <- !app_assoc. reflexivity. }
  assert (T : call "debug" m ++ rest = debug_head ++ m ++ dq :: ")"%char :: rest).
  { rewrite call_app_eq. reflexivity. }
  assert (Qmk : quote_free (str ": " ++ str marker) = true).
  { rewrite quote_free_app, Qk. reflexivity. }
  assert (Hk : forall c s, not_colon c = true -> match_here false tail true (c :: s) = None).
  { intros c s C. unfold tail. cbn [str list_ascii_of_string map app match_here].
    unfold ceq. unfold not_colon in C. apply negb_true_iff in C.
    rewrite Ascii.eqb_sym, C. reflexivity. }
  unfold tts_form. unfold tts_open in Op.
  destruct (starts_with (str "TTS") m) eqn:S; cbn [andb] in *.
  2:{ destruct (match_here false (debug_call (tts_mentions marker)) false
                  (call "debug" m ++ rest)) as [res|] eqn:M; [|reflexivity].
      rewrite P, T, lits_here in M. cbn [match_here] in M.
      destruct (match_here false (map Lit (str "TTS") ++ Rep 0 not_colon :: tail) true
                  (m ++ dq :: ")"%char :: rest)) as [r|] eqn:M'; [|discriminate].
      apply lits_inv in M'. destruct M' as (s' & _ & E & _).
      assert (S' : starts_with (str "TTS") (m ++ dq :: ")"%char :: rest) = true)
        by (rewrite E; apply starts_with_self).
      rewrite starts_with_msg in S' by reflexivity. congruence. }
  pose proof (starts_with_split _ _ S) as Em.
  change (length (str "TTS")) with 3 in Em.
  assert (Q3 : quote_free (skipn 3 m) = true) by (apply skipn_quote_free; exact Qm).
  destruct (drop_class_split not_colon (skipn 3 m)) as (x & E3 & Px).
  pose proof (drop_class_quote_free not_colon (skipn 3 m) Q3) as Qd.
  destruct (drop_class not_colon (skipn 3 m)) as [|c0 d] eqn:Ed; [discriminate Op|].
  pose proof (drop_class_head _ _ _ _ Ed) as P0.
  rewrite E3 in Em. clear E3 Ed Q3 S Op Qm.
  rewrite P, T, Em, <- !app_assoc, lits_here. cbn [match_here].
  rewrite lits_here. cbn [match_here app].
  rewrite (rep_until not_colon 0 _ true x c0 _ Hk Px P0). cbn [Nat.leb].
  change (c0 :: d ++ dq :: ")"%char :: rest) with ((c0 :: d) ++ dq :: ")"%char :: rest).
  unfold tail. rewrite (marker_at false _ (c0 :: d) (")"%char :: rest) Qmk Qd).
  rewrite starts_ci_false.
  destruct (starts_with (str ": " ++ str marker) (c0 :: d)); [|reflexivity].
  change (match_here false closing true (dq :: ")"%char :: rest)) with (Some closed).
  cbn [option_map]. f_equal. unfold call_match.
  rewrite !map_app, <- !app_assoc. reflexivity.
Qed.

End TtsAnywhere.

Section RulesOnCalls.

Lemma quoteless_lits (l : text) :
  quote_free l = true -> quoteless (map Lit l).
Proof.
  induction l as [|c l IH]; intros Q; [constructor|].
  simpl in Q. apply andb_true_iff in Q. destruct Q as [Qc Ql].
  constructor; [exact Qc | exact (IH Ql)].
Qed.

Lemma quoteless_mentions (marker : string) :
  quote_free (str marker) = true -> quoteless (mentions marker).
Proof.
  intros Q. unfold mentions, lits. constructor; [reflexivity|].
  apply Forall_app. split; [apply quoteless_lits; exact Q | repeat constructor].
Qed.

Lemma quoteless_no_found : quoteless FixAppLogging.no_found.
Proof. repeat constructor. Qed.

Lemma promote_call_text (fits : text -> bool) (lv : string) (c : logcall) (rest : text) :
  c_pre c ++ call (if String.eqb (c_level c) "debug" && fits (c_msg c)
                   then lv else c_level c) (c_msg c) ++ rest
  = call_text (promote_call fits lv c) ++ rest.
Proof.
  unfold promote_call.
  destruct (String.eqb (c_level c) "debug" && fits (c_msg c));
    rewrite call_text_app; reflexivity.
Qed.

Lemma promote_call_well_formed (fits : text -> bool) (lv : string) (c : logcall) :
  In lv levels -> well_formed c -> well_formed (promote_call fits lv c).
Proof.
  intros L W. unfold promote_call.
  destruct (String.eqb (c_level c) "debug" && fits (c_msg c)); [|exact W].
  destruct W as (_ & W). split; [exact L | exact W].
Qed.

Lemma promote_calls_well_formed (fits : text -> bool) (lv : string) (cs : list logcall) :
  In lv levels -> Forall well_formed cs ->
  Forall well_formed (map (promote_call fits lv) cs).
Proof.
  intros L F. induction F as [|c cs W _ IH]; constructor; [|exact IH].
  apply promote_call_well_formed; assumption.
Qed.

Lemma promote_call_msg (fits : text -> bool) (lv : string) (c : logcall) :
  c_msg (promote_call fits lv c) = c_msg c.
Proof.
  unfold promote_call.
  destruct (String.eqb (c_level c) "debug" && fits (c_msg c)); reflexivity.
Qed.

Lemma promote_calls_closed (fits : text -> bool) (lv : string) (cs : list logcall) :
  Forall (fun c => tts_open (c_msg c) = false) cs ->
  Forall (fun c => tts_open (c_msg c) = false) (map (promote_call fits lv) cs).
Proof.
  intros F. induction F as [|c cs W _ IH]; constructor; [|exact IH].
  rewrite promote_call_msg. exact W.
Qed.

(** The first rule leaves a text of well-formed calls as it is. *)
Lemma calls_normalize (t : template) (cs : list logcall) (post : text) :
  Forall well_formed cs -> quote_free post = true ->
  re_sub false malformed t (calls_text cs post) = calls_text cs post.
Proof.
  intros F Qpost.
  rewrite (calls_rule false malformed t well_formed (fun c => c)); auto.
  - rewrite map_id. reflexivity.
  - simpl. lia.
  - intros c rest (L & Qpre & Qm & _) O. rewrite !call_text_app.
    apply normalize_step; assumption.
Qed.

(** A promotion rule for a marker promotes the debug calls that mention
    it, each by itself. *)
Lemma calls_mentions (ci : bool) (marker lv : string) (cs : list logcall) (post : text) :
  quote_free (str marker) = true ->
  Forall well_formed cs -> quote_free post = true ->
  re_sub ci (debug_call (mentions marker)) (call_tpl lv) (calls_text cs post)
  = calls_text (map (promote_call (mentioned ci (str marker)) lv) cs) post.
Proof.
  intros Qk F Qpost.
  apply (calls_rule ci _ _ well_formed); auto.
  - pose proof (debug_call_quotes (mentions marker)). lia.
  - intros c rest (L & Qpre & Qm & _) O. rewrite call_text_app, <- promote_call_text.
    apply promote_step; try assumption.
    + apply quoteless_after; [apply quoteless_mentions; exact Qk | exact O].
    + apply promote_here_ctx; assumption.
Qed.

Lemma calls_no_found (ci : bool) (lv : string) (cs : list logcall) (post : text) :
  Forall well_formed cs -> quote_free post = true ->
  re_sub ci (debug_call FixAppLogging.no_found) (call_tpl lv) (calls_text cs post)
  = calls_text
      (map (promote_call (mentioned_then ci (str "No ") (str " found")) lv) cs) post.
Proof.
  intros F Qpost.
  apply (calls_rule ci _ _ well_formed); auto.
  - pose proof (debug_call_quotes FixAppLogging.no_found). lia.
  - intros c rest (L & Qpre & Qm & _) O. rewrite call_text_app, <- promote_call_text.
    apply promote_step; try assumption.
    + apply quoteless_after; [exact quoteless_no_found | exact O].
    + apply no_found_here; assumption.
Qed.

Lemma calls_tts (marker lv : string) (cs : list logcall) (post : text) :
  quote_free (str marker) = true ->
  Forall well_formed cs ->
  Forall (fun c => tts_open (c_msg c) = false) cs ->
  quote_free post = true ->
  re_sub false (debug_call (tts_mentions marker)) (call_tpl lv) (calls_text cs post)
  = calls_text (map (promote_call (tts_form marker) lv) cs) post.
Proof.
  intros Qk F C Qpost.
  apply (calls_rule false _ _ (fun c => well_formed c /\ tts_open (c_msg c) = false)).
  - tauto.
  - pose proof (debug_call_quotes (tts_mentions marker)). lia.
  - intros c rest ((L & Qpre & Qm & _) & Op) O.
    rewrite call_text_app, <- promote_call_text.
    apply promote_step; try assumption.
    + reflexivity.
    + apply tts_here_any; assumption.
  - clear Qpost. induction F as [|c cs W F IH]; constructor.
    + split; [exact W | exact (Forall_inv C)].
    + apply IH. exact (Forall_inv_tail C).
  - exact Qpost.
Qed.

(** The prefix rule takes the prefix off the message of every call. *)
Lemma calls_strip (prefix : string) (cs : list logcall) (post : text) :
  quote_free (str prefix) = true ->
  (forall y, starts_with (str prefix) (")"%char :: y) = false) ->
  Forall well_formed cs -> quote_free post = true ->
  re_sub false (prefixed prefix) strip_tpl (calls_text cs post)
  = calls_text (map (strip_call prefix) cs) post.
Proof.
  intros Qp N F Qpost.
  apply (calls_rule false _ _ well_formed); auto.
  - apply prefixed_quotes.
  - intros c rest (L & Qpre & Qm & _) O. rewrite !call_text_app.
    apply strip_step; assumption.
Qed.

End RulesOnCalls.

Ltac calls_well_formed :=
  repeat (apply promote_calls_well_formed; [simpl; tauto|]); assumption.

Ltac calls_closed :=
  repeat apply promote_calls_closed; assumption.

Lemma promote_call_eq (fits : text -> bool) (lv : string) (pre : text)
      (level : string) (m : text) :
  promote_call fits lv {| c_pre := pre; c_level := level; c_msg := m |}
  = {| c_pre := pre;
       c_level := if String.eqb level "debug" && fits m then lv else level;
       c_msg := m |}.
Proof.
  unfold promote_call. cbn [c_pre c_level c_msg].
  destruct (String.eqb level "debug" && fits m); reflexivity.
Qed.

Ltac rule_done :=
  repeat (rewrite promote_call_eq; cbn [String.eqb Ascii.eqb Bool.eqb andb]);
  reflexivity.

Ltac rule_step b :=
  rewrite promote_call_eq; cbn [String.eqb Ascii.eqb Bool.eqb andb]; destruct b.





Section AcrossCalls.

(** The class [[^:]*] of a TTS rule passes double quotes: the rule matches
    from [TTS] to the first colon, wherever that is. *)
Lemma tts_match_far (marker : string) (x d rest : text) :
  quote_free (str marker) = true ->
  forallb not_colon x = true ->
  quote_free d = true ->
  match_here false (debug_call (tts_mentions marker)) false
    (call "debug" (str "TTS" ++ x ++ str ": " ++ str marker ++ d) ++ rest)
  = Some (call_match debug_head (str "TTS" ++ x ++ str ": " ++ str marker ++ d)).
Proof.
  intros Qk Px Qd.
  set (tail := map Lit (str ": " ++ str marker) ++ Rep 0 not_dq :: closing).
  assert (P : debug_call (tts_mentions marker)
              = map Lit debug_head
                ++ GOpen :: (map Lit (str "TTS") ++ Rep 0 not_colon :: tail)).
  { unfold debug_call, tts_mentions, lits, tail. rewrite map_app.
    cbn [str list_ascii_of_string map app]. rewrite <- !app_assoc. reflexivity. }
  assert (Hk : forall c s, not_colon c = true -> match_here false tail true (c :: s) = None).
  { intros c s C. unfold tail. cbn [str list_ascii_of_string map app match_here].
    unfold ceq. unfold not_colon in C. apply negb_true_iff in C.
    rewrite Ascii.eqb_sym, C. reflexivity. }
  assert (T : call "debug" (str "TTS" ++ x ++ str ": " ++ str marker ++ d) ++ rest
              = debug_head ++ str "TTS" ++ x
                ++ ":"%char :: " "%char :: str marker ++ d ++ dq :: ")"%char :: rest).
  { rewrite call_app_eq. cbn [str list_ascii_of_string app].
    rewrite <- !app_assoc. cbn [app]. rewrite <- !app_assoc. reflexivity. }
  rewrite P, T, lits_here. cbn [match_here]. rewrite lits_here. cbn [match_here].
  rewrite (rep_until not_colon 0 _ true x ":"%char _ Hk Px eq_refl). cbn [Nat.leb].
  assert (K : match_here false tail true
                (":"%char :: " "%char :: str marker ++ d ++ dq :: ")"%char :: rest)
              = Some (map (pair true) (str ": " ++ str marker ++ d) ++ closed)).
  { unfold tail.
    change (":"%char :: " "%char :: str marker ++ d ++ dq :: ")"%char :: rest)
      with ((str ": " ++ str marker) ++ d ++ dq :: ")"%char :: rest).
    rewrite lits_here. cbn [match_here].
    rewrite (class_to_quote false d (")"%char :: rest) 0 Qd).
    change (match_here false closing true (dq :: ")"%char :: rest)) with (Some closed).
    cbn [option_map]. rewrite !map_app, <- !app_assoc. reflexivity. }
  rewrite K. cbn [option_map]. f_equal. unfold call_match.
  rewrite !map_app, <- !app_assoc. reflexivity.
Qed.

End AcrossCalls.

(** X13.  A TTS rule of [fix_logging.py] is not confined to one call.  Its
    class [[^:]*] passes double quotes, so a debug call whose message starts
    with [TTS] and has no colon is promoted to [info] when the first colon
    after it, in the text between the calls or in a later call, starts
    [: <marker>] and a quote and parenthesis close the run without a double
    quote after the marker: the rule takes the text from the first message
    to the later one for one message, and writes it back unchanged inside a
    [logger.info] call.  The message of the promoted call does not have the
    form of the rule. *)
Theorem tts_rule_reaches_later_call (marker : string) (pre a b : text)
        (level : string) (c d post : text) :
  quote_free (str marker) = true ->
  quote_free pre = true -> quote_free post = true ->
  forallb not_colon a = true -> forallb not_colon b = true ->
  forallb not_colon (str level) = true -> forallb not_colon c = true ->
  quote_free d = true ->
  tts_form marker (str "TTS" ++ a) = false
  /\ apply_rule
       (pre ++ call "debug" (str "TTS" ++ a) ++ b
            ++ call level (c ++ str ": " ++ str marker ++ d) ++ post)
       (promote false (tts_mentions marker) "info")
     = pre ++ call "info" (str "TTS" ++ a) ++ b
           ++ call level (c ++ str ": " ++ str marker ++ d) ++ post.
Proof.
  intros Qk Qpre Qpost Pa Pb Pl Pc Qd. split.
  - unfold tts_form. cbn [str list_ascii_of_string app starts_with skipn].
    rewrite !Ascii.eqb_refl. cbn [andb].
    replace (drop_class not_colon a) with (@nil ascii); [destruct (str marker); reflexivity|].
    clear - Pa. induction a as [|e a IH]; [reflexivity|].
    simpl in Pa. apply andb_true_iff in Pa. destruct Pa as [Pe Pa].
    cbn [drop_class]. rewrite Pe. exact (IH Pa).
  - set (x := a ++ dq :: ")"%char :: b ++ str "logger." ++ str level
                ++ "("%char :: dq :: c).
    assert (Px : forallb not_colon x = true).
    { unfold x. rewrite forallb_app, Pa. cbn [forallb andb].
      change (not_colon dq) with true. change (not_colon ")"%char) with true.
      cbn [andb]. rewrite forallb_app, Pb. cbn [andb].
      rewrite forallb_app. change (forallb not_colon (str "logger.")) with true.
      cbn [andb]. rewrite forallb_app, Pl. cbn [forallb andb].
      change (not_colon "("%char) with true. change (not_colon dq) with true.
      cbn [andb]. exact Pc. }
    set (g := str "TTS" ++ x ++ str ": " ++ str marker ++ d).
    assert (E : forall lv,
              pre ++ call lv (str "TTS" ++ a) ++ b
                  ++ call level (c ++ str ": " ++ str marker ++ d) ++ post
              = pre ++ call lv g ++ post).
    { intros lv. f_equal. unfold g, x, call.
      repeat (rewrite <- app_assoc; cbn [app]). reflexivity. }
    rewrite !E. unfold apply_rule, promote. cbn [r_ci r_pat r_tpl].
    unfold re_sub, finditer.
    rewrite (scan_one_hit false _ pre (call "debug" g) post (call_match debug_head g)).
    + rewrite render_one_hit, expand_call_match. reflexivity.
    + intros p1 e p2 Ep. rewrite call_app_eq. apply promote_not_before.
      * simpl. tauto.
      * exact (suffix_quote_free _ _ _ _ Qpre Ep).
    + apply tts_match_far; assumption.
    + rewrite whole_call_match. reflexivity.
    + discriminate.
    + apply scan_post; [exact Qpost|].
      pose proof (debug_call_quotes (tts_mentions marker)). lia.
Qed.

Lemma tts_rule_reaches_later_call_witness :
  apply_rule
    (str "  " ++ call "debug" (str "TTS" ++ str " ready") ++ [nl]
         ++ call "error" (str "step 2" ++ str ": " ++ str "Received" ++ str " nothing") ++ [nl])
    (promote false (tts_mentions "Received") "info")
  = str "  " ++ call "info" (str "TTS" ++ str " ready") ++ [nl]
        ++ call "error" (str "step 2" ++ str ": " ++ str "Received" ++ str " nothing") ++ [nl].
Proof.
  apply (tts_rule_reaches_later_call "Received" (str "  ") (str " ready") [nl]
           "error" (str "step 2") (str " nothing") [nl]); reflexivity.
Defined.

(** * The two manifest scripts in sequence *)

Section WholeLines.

Variable q : text.

(** [q] is a line: a text without line feed, then a line feed. *)
Hypothesis q_line : q = removelast q ++ [nl].
Hypothesis q_body : newline_free (removelast q) = true.
Hypothesis q_long : removelast q <> [].

Lemma line_not_empty : q <> [].
Proof. rewrite q_line. destruct (removelast q); discriminate. Qed.

Lemma starts_with_whole_line (w z : text) :
  starts_with q (w ++ nl :: z) = starts_with q (w ++ [nl]).
Proof.
  rewrite q_line. revert w q_body. generalize (removelast q) as p. clear.
  induction p as [|c p IH]; intros w Q.
  - destruct w as [|a w]; cbn [app starts_with]; [reflexivity|].
    rewrite !andb_true_r. reflexivity.
  - simpl in Q. apply andb_true_iff in Q. destruct Q as [Qc Qp].
    destruct w as [|a w]; cbn [app starts_with].
    + apply negb_true_iff in Qc. rewrite Qc. reflexivity.
    + rewrite (IH w Qp). reflexivity.
Qed.

(** Occurrences of a line are counted line by line. *)
Lemma occurrences_whole_line (u y : text) :
  occurrences q ((u ++ [nl]) ++ y) = occurrences q (u ++ [nl]) + occurrences q y.
Proof.
  pose proof line_not_empty as N.
  induction u as [|a u IH].
  - change (occurrences q (nl :: y) = occurrences q [nl] + occurrences q y).
    change (occurrences q (nl :: y))
      with ((if starts_with q ([] ++ nl :: y) then 1 else 0) + occurrences q y).
    change (occurrences q [nl])
      with ((if starts_with q ([] ++ [nl]) then 1 else 0) + occurrences q []).
    rewrite starts_with_whole_line, (occurrences_nil q N). lia.
  - change (occurrences q (((a :: u) ++ [nl]) ++ y))
      with ((if starts_with q (a :: (u ++ [nl]) ++ y) then 1 else 0)
            + occurrences q ((u ++ [nl]) ++ y)).
    change (occurrences q ((a :: u) ++ [nl]))
      with ((if starts_with q ((a :: u) ++ [nl]) then 1 else 0)
            + occurrences q (u ++ [nl])).
    rewrite IH.
    replace (a :: (u ++ [nl]) ++ y) with ((a :: u) ++ nl :: y)
      by (simpl; rewrite <- app_assoc; reflexivity).
    rewrite starts_with_whole_line. lia.
Qed.

Lemma whole_line_segments (a : text) (l : list seg) :
  Forall (fun x => match x with
                   | Hit m => exists w, whole m = w ++ [nl]
                   | Gap _ => True
                   end) l ->
  forall left,
    occurrences q (left ++ flat_map (with_addition (a ++ [nl])) l)
    = occurrences q (left ++ flat_map original l)
      + length (filter is_hit l) * occurrences q (a ++ [nl]).
Proof.
  intros F. induction F as [|x l Hx _ IH]; intros left.
  - simpl. lia.
  - destruct x as [c|m].
    + change (occurrences q (left ++ c :: flat_map (with_addition (a ++ [nl])) l)
              = occurrences q (left ++ c :: flat_map original l)
                + length (filter is_hit l) * occurrences q (a ++ [nl])).
      replace (left ++ c :: flat_map (with_addition (a ++ [nl])) l)
        with ((left ++ [c]) ++ flat_map (with_addition (a ++ [nl])) l)
        by (rewrite <- app_assoc; reflexivity).
      replace (left ++ c :: flat_map original l)
        with ((left ++ [c]) ++ flat_map original l)
        by (rewrite <- app_assoc; reflexivity).
      apply IH.
    + destruct Hx as [w W].
      change (occurrences q (left ++ (whole m ++ a ++ [nl])
                                  ++ flat_map (with_addition (a ++ [nl])) l)
              = occurrences q (left ++ whole m ++ flat_map original l)
                + S (length (filter is_hit l)) * occurrences q (a ++ [nl])).
      rewrite W.
      replace (left ++ ((w ++ [nl]) ++ a ++ [nl]) ++ flat_map (with_addition (a ++ [nl])) l)
        with (((left ++ w) ++ [nl])
              ++ ((a ++ [nl]) ++ flat_map (with_addition (a ++ [nl])) l))
        by (rewrite <- !app_assoc; reflexivity).
      replace (left ++ (w ++ [nl]) ++ flat_map original l)
        with (((left ++ w) ++ [nl]) ++ flat_map original l)
        by (rewrite <- !app_assoc; reflexivity).
      rewrite !occurrences_whole_line.
      pose proof (IH []) as E. cbn [app] in E. rewrite E. simpl. lia.
Qed.

(** How often a line occurs after a section insertion: as often as before,
    and once more per match for each occurrence in the record. *)
Lemma insert_after_whole_line (pattern : regex) (addition s : text) :
  is_anchor pattern = true ->
  ends_with_nl pattern = true ->
  addition = removelast addition ++ [nl] ->
  occurrences q (insert_after pattern addition s)
  = occurrences q s + count_matches false pattern s * occurrences q addition.
Proof.
  intros A E ->. rewrite insert_after_segments by exact A.
  unfold count_matches.
  rewrite <- (finditer_original false pattern s) at 2.
  apply (whole_line_segments _ _) with (left := []).
  apply hits_Forall. intros l1 m l2 H. apply scan_hit in H.
  eapply ends_with_nl_match; eauto.
Qed.

(** A pattern that matches wherever the line stands has a match in every
    text that holds the line. *)
Lemma line_found (pattern : regex) (s : text) :
  (forall z, match_here false pattern false (q ++ z) <> None) ->
  1 <= occurrences q s ->
  1 <= count_matches false pattern s.
Proof.
  intros M. unfold count_matches, finditer.
  induction s as [|c s IH]; intros O.
  - rewrite (occurrences_nil q line_not_empty) in O. lia.
  - cbn [scan]. destruct (match_here false pattern false (c :: s)) as [[|x m]|] eqn:H.
    + simpl. lia.
    + simpl. lia.
    + cbn [filter is_hit]. apply IH. cbn [occurrences] in O.
      destruct (starts_with q (c :: s)) eqn:S; [|exact O].
      exfalso. apply starts_with_split in S. apply (M (skipn (length q) (c :: s))).
      rewrite <- S. exact H.
Qed.

End WholeLines.

Ltac line_stages q :=
  repeat (rewrite (insert_after_whole_line q eq_refl eq_refl
                     ltac:(intros E; vm_compute in E; discriminate E)) by reflexivity).

Ltac line_counts :=
  repeat match goal with
         | |- context [occurrences ?p ?a] =>
             is_ground a; let v := eval vm_compute in (occurrences p a) in
             change (occurrences p a) with v
         end.

Ltac unfold_stages :=
  unfold AddChinese.stage3, AddChinese.stage2, AddChinese.stage1,
    PinyinStages.stage6, PinyinStages.stage5, PinyinStages.stage4,
    PinyinStages.stage3, PinyinStages.stage2, PinyinStages.stage1 in *.

Ltac line_kept q :=
  apply (line_found q eq_refl eq_refl ltac:(intros E; vm_compute in E; discriminate E));
  [ intros z; vm_compute; discriminate
  | unfold_stages; line_stages q; line_counts; lia ].

(** X14.  [add_chinese_processing.py] finds its anchors in what
    [add_pinyin_openai.py] writes.  Each record that the first four sections
    of the pinyin script insert for the main target (build registration,
    file reference, group membership, build phase) is the anchor of the
    section of the same kind of the Chinese script: when the pinyin script
    found its anchor for a section, the Chinese script, run on the buffer
    the pinyin script wrote, finds its anchor for that section, at the step
    where it looks for it. *)
Theorem chinese_anchors_after_pinyin (content : text) :
  (1 <= count_matches false AddPinyin.build_file_pattern content ->
   1 <= count_matches false AddChinese.build_file_pattern (AddPinyin.pipeline content))
  /\ (1 <= count_matches false AddPinyin.file_ref_pattern (PinyinStages.stage2 content) ->
      1 <= count_matches false AddChinese.file_ref_pattern
             (AddChinese.stage1 (AddPinyin.pipeline content)))
  /\ (1 <= count_matches false AddPinyin.services_pattern (PinyinStages.stage3 content) ->
      1 <= count_matches false AddChinese.services_pattern
             (AddChinese.stage2 (AddPinyin.pipeline content)))
  /\ (1 <= count_matches false AddPinyin.build_phase_pattern (PinyinStages.stage4 content) ->
      1 <= count_matches false AddChinese.build_phase_pattern
             (AddChinese.stage3 (AddPinyin.pipeline content))).
Proof.
  change (AddPinyin.pipeline content) with (PinyinStages.stage6 content).
  repeat split; intros H.
  - line_kept (skipn 2 AddPinyin.build_file_addition).
  - line_kept (skipn 2 AddPinyin.file_ref_addition).
  - line_kept (skipn 4 AddPinyin.services_addition).
  - line_kept (skipn 4 AddPinyin.build_phase_addition).
Qed.

Lemma chinese_anchors_after_pinyin_witness :
  1 <= count_matches false AddChinese.build_file_pattern
         (AddPinyin.pipeline Samples.pinyin_manifest)
  /\ 1 <= count_matches false AddChinese.file_ref_pattern
            (AddChinese.stage1 (AddPinyin.pipeline Samples.pinyin_manifest))
  /\ 1 <= count_matches false AddChinese.services_pattern
            (AddChinese.stage2 (AddPinyin.pipeline Samples.pinyin_manifest))
  /\ 1 <= count_matches false AddChinese.build_phase_pattern
            (AddChinese.stage3 (AddPinyin.pipeline Samples.pinyin_manifest)).
Proof.
  destruct (chinese_anchors_after_pinyin Samples.pinyin_manifest) as (H1 & H2 & H3 & H4).
  repeat split; [apply H1 | apply H2 | apply H3 | apply H4];
    vm_compute; repeat constructor.
Defined.
